(** * Portfolio resolution pipeline of listen-interface

    A shallow embedding of the rate limiter (lib/evmPortfolio.ts, second
    document), the symbol aggregation (lib/portfolioHelpers.ts), the dust
    filter and totals of components/Portfolio.tsx, the denylist cache
    (DenylistCache) and the EVM metadata enrichment (lib/evmPortfolio.ts).

    Conventions.
    - Timestamps and durations are integer milliseconds ([Z], durations that
      the environment chooses are [N]).
    - JavaScript numbers that carry money amounts are modelled by exact
      rationals ([Qc]); rounding of IEEE doubles is outside the model.
    - Strings are byte strings; [toLowerCase] / [toUpperCase] act on the
      ASCII letters only, and the regular-expression classes are their ASCII
      parts.
    - A JS [Map] is an association list in insertion order; the IndexedDB
      object stores are finite maps ([gmap]). *)

From Stdlib Require Import ZArith QArith Qcanon String Ascii List Lia.
From stdpp Require Import base numbers list strings gmap pretty.
Import ListNotations.

Open Scope string_scope.
Open Scope Z_scope.

(* ===================================================================== *)
(** ** JavaScript string primitives used by the sources                   *)
(* ===================================================================== *)

Module Js.

Definition isUpper (c : ascii) : bool :=
    let n := nat_of_ascii c in (65 <=? n)%nat && (n <=? 90)%nat.

Definition isLower (c : ascii) : bool :=
    let n := nat_of_ascii c in (97 <=? n)%nat && (n <=? 122)%nat.

Definition lowerChar (c : ascii) : ascii :=
    if isUpper c then ascii_of_nat (nat_of_ascii c + 32) else c.

Definition upperChar (c : ascii) : ascii :=
    if isLower c then ascii_of_nat (nat_of_ascii c - 32) else c.

Fixpoint mapString (f : ascii -> ascii) (s : string) : string :=
    match s with
    | EmptyString => EmptyString
    | String c s' => String (f c) (mapString f s')
    end.

(** [String.prototype.toLowerCase] and [toUpperCase] on ASCII text, which
    is what the sources apply them to (hexadecimal addresses, chain
    identifiers, the words of an error message): the letters A to Z are
    folded and every other character is kept.  Characters outside ASCII
    that JavaScript would also fold are not modelled. *)
Definition toLowerCase : string -> string := mapString lowerChar.
Definition toUpperCase : string -> string := mapString upperChar.

Fixpoint startsWith (p s : string) : bool :=
  match p, s with
  | EmptyString, _ => true
  | String a p', String b s' => if Ascii.eqb a b then startsWith p' s' else false
  | String _ _, EmptyString => false
  end.

(** [hay.includes(needle)]. *)
Fixpoint includes (needle hay : string) : bool :=
  startsWith needle hay ||
  match hay with
  | EmptyString => false
  | String _ hay' => includes needle hay'
  end.

(** Every character of a string belongs to a class. *)
Fixpoint every (p : ascii -> bool) (s : string) : bool :=
  match s with
  | EmptyString => true
  | String c s' => p c && every p s'
  end.

(** Truthiness of a string: the empty string is falsy. *)
Definition truthy (s : string) : bool :=
  match s with EmptyString => false | _ => true end.

(** [x || d] on an optional number: [undefined], [null] and [0] give [d]. *)
Definition orNumber (x : option Z) (d : Z) : Z :=
  match x with
  | Some v => if v =? 0 then d else v
  | None => d
  end.

(** [x || d] on an optional string. *)
Definition orString (x : option string) (d : string) : string :=
  match x with
  | Some v => if truthy v then v else d
  | None => d
  end.

(** A thrown value, as far as the sources inspect it: [error.message]
    and [error.status]. *)
Record Error : Type := mkError { message : option string; status : option Z }.

(** [new Error(msg)]. *)
Definition newError (msg : string) : Error :=
  {| message := Some msg; status := None |}.

End Js.

(* ===================================================================== *)
(** ** RateLimiter                                                        *)
(* ===================================================================== *)

Module RateLimiter.

Record RateLimiterOptions : Type := mkOptions {
  maxRequests : Z;
  windowMs : Z;
  retryAfterMs : Z;
  maxRetries : Z
}.

(** The constructor: [retryAfterMs || 1000] and [maxRetries || 3]. *)
Definition new (maxReq window : Z) (retryAfter retries : option Z)
  : RateLimiterOptions :=
  {| maxRequests := maxReq;
     windowMs := window;
     retryAfterMs := Js.orNumber retryAfter 1000;
     maxRetries := Js.orNumber retries 3 |}.

Definition jupiterRateLimiter : RateLimiterOptions :=
  new 10 1000 (Some 2000) (Some 3).

(** The limiter's store together with the wall clock.  [requests] is the
    field of the class; [granted] is a ghost history that records every
    timestamp ever pushed, oldest first; [clock] is what [Date.now()]
    returns. *)
Record World : Type := mkWorld {
  clock : Z;
  requests : list Z;
  granted : list Z
}.

(** A timer delay handed to [setTimeout]: [Math.min()] of an empty list
    is [Infinity], which makes the computed wait infinite. *)
Inductive Delay : Type :=
| Finite (ms : Z)
| Infinity.

(** How an invocation of the wrapped operation settles. *)
Inductive Outcome (T : Type) : Type :=
| Fulfilled (v : T)
| RejectedWith (e : Js.Error).
Arguments Fulfilled {T} v.
Arguments RejectedWith {T} e.

(** Where a call of [execute] currently is.  Every [await] of the body is
    a phase of its own; [retries] is the local counter. *)
Inductive Phase (T : Type) : Type :=
| AtLoop (retries : Z)
| Awaiting (retries : Z)
| Sleeping (retries : Z) (since : Z) (ms : Delay)
| Returned (v : T)
| Thrown (e : Js.Error).
Arguments AtLoop {T} retries.
Arguments Awaiting {T} retries.
Arguments Sleeping {T} retries since ms.
Arguments Returned {T} v.
Arguments Thrown {T} e.

(** What the event loop hands to a suspended call. *)
Inductive Input (T : Type) : Type :=
| Resume (d : N)
| TimerFired
| Settled (o : Outcome T).
Arguments Resume {T} d.
Arguments TimerFired {T}.
Arguments Settled {T} o.

Section Limiter.
Variable opts : RateLimiterOptions.

(** The test of [cleanupOldRequests]: [now - timestamp < windowMs]. *)
Definition recent (now timestamp : Z) : bool :=
  now - timestamp <? windowMs opts.

(** [cleanupOldRequests], with [now] the value of [Date.now()]. *)
Definition cleanupOldRequests (now : Z) (reqs : list Z) : list Z :=
  List.filter (recent now) reqs.

(** [Math.min(...this.requests)]; [None] stands for [Infinity]. *)
Definition oldestRequest (reqs : list Z) : option Z :=
  match reqs with
  | [] => None
  | t :: rest => Some (fold_left Z.min rest t)
  end.

(** [error.message?.includes('429') || error.status === 429]. *)
Definition isRateLimit (e : Js.Error) : bool :=
  match Js.message e with
  | Some m => Js.includes "429" m
  | None => false
  end
  || match Js.status e with
     | Some s => s =? 429
     | None => false
     end.

(** The error of the statement after the loop. *)
Definition exhausted : Js.Error :=
  Js.newError ("Failed after " +:+ pretty (maxRetries opts) +:+ " retries").

(** [windowMs - (Date.now() - oldestRequest) + 100]. *)
Definition waitTime (now : Z) (reqs : list Z) : Delay :=
  match oldestRequest reqs with
  | Some oldest => Finite (windowMs opts - (now - oldest) + 100)
  | None => Infinity
  end.

Definition positiveDelay (d : Delay) : bool :=
  match d with
  | Finite ms => 0 <? ms
  | Infinity => true
  end.

(** [retryAfterMs * Math.pow(2, retries - 1)]. *)
Definition backoffTime (retries : Z) : Z :=
  retryAfterMs opts * 2 ^ (retries - 1).

Section Call.
Context {T : Type}.

(** One pass through the head of the [while] loop, up to the first
    [await].  The code is synchronous, so it is atomic with respect to
    other calls; it reads the clock twice, [d] milliseconds apart. *)
Definition iteration (d : N) (w : World) (retries : Z) : World * Phase T :=
  if retries <=? maxRetries opts then
    let now1 := clock w in
    let reqs := cleanupOldRequests now1 (requests w) in
    let now2 := now1 + Z.of_N d in
    if Z.of_nat (length reqs) <? maxRequests opts then
      ({| clock := now2;
          requests := reqs ++ [now2];
          granted := granted w ++ [now2] |},
       Awaiting retries)
    else
      let w' := {| clock := now2; requests := reqs; granted := granted w |} in
      let wt := waitTime now2 reqs in
      if positiveDelay wt then (w', Sleeping retries now2 wt)
      else (w', AtLoop retries)
  else (w, Thrown exhausted).

(** The [try]/[catch] around [await fn()]. *)
Definition settle (w : World) (retries : Z) (o : Outcome T) : World * Phase T :=
  match o with
  | Fulfilled v => (w, Returned v)
  | RejectedWith e =>
      if isRateLimit e then
        let retries' := retries + 1 in
        if retries' >? maxRetries opts then (w, Thrown e)
        else (w, Sleeping retries' (clock w) (Finite (backoffTime retries')))
      else (w, Thrown e)
  end.

(** A timer set at [since] for [ms] fires no earlier than [since + ms];
    a delay that is not finite is clamped by the timer.  This is
    [setTimeout] for a delay of at most 2147483647 ms; a longer finite
    delay overflows the timer, which then fires at once, and the
    statements that let a call sleep assume the delay within that
    range. *)
Definition due (now since : Z) (ms : Delay) : bool :=
  match ms with
  | Finite d => since + d <=? now
  | Infinity => true
  end.

(** One resumption of a call.  An input that the phase is not waiting
    for changes nothing. *)
Definition stepCall (w : World) (ph : Phase T) (inp : Input T) : World * Phase T :=
  match ph, inp with
  | AtLoop retries, Resume d => iteration d w retries
  | Awaiting retries, Settled o => settle w retries o
  | Sleeping retries since ms, TimerFired =>
      if due (clock w) since ms then (w, AtLoop retries) else (w, ph)
  | _, _ => (w, ph)
  end.

(** *** Several calls interleaved by the event loop. *)

Record System : Type := mkSystem {
  world : World;
  calls : list (Phase T)
}.

Inductive Event : Type :=
| Tick (d : N)
| Invoke
| Deliver (i : nat) (inp : Input T).

Definition advance (d : N) (w : World) : World :=
  {| clock := clock w + Z.of_N d; requests := requests w; granted := granted w |}.

Definition sysStep (s : System) (ev : Event) : System :=
  match ev with
  | Tick d => {| world := advance d (world s); calls := calls s |}
  | Invoke => {| world := world s; calls := calls s ++ [AtLoop 0] |}
  | Deliver i inp =>
      match calls s !! i with
      | Some ph =>
          let '(w', ph') := stepCall (world s) ph inp in
          {| world := w'; calls := <[i := ph']> (calls s) |}
      | None => s
      end
  end.

Definition run (evs : list Event) (s : System) : System :=
  fold_left sysStep evs s.

Definition fresh (t0 : Z) : System :=
  {| world := {| clock := t0; requests := []; granted := [] |}; calls := [] |}.

(** *** One call on its own. *)

(** An invocation of the operation: how long it takes and how it
    settles. *)
Record Reply : Type := mkReply { latency : N; outcome : Outcome T }.

(** The time at which a call asleep since [since] resumes when nothing
    else runs: the moment its timer is [due] (same range of delays). *)
Definition wakeAt (now since : Z) (ms : Delay) : Z :=
  match ms with
  | Finite d => Z.max now (since + d)
  | Infinity => now
  end.

(** [execute(fn)] run to completion with no other call in flight: the
    clock moves only while the call is suspended, [replies] are the
    successive results of [fn()].  The phase returned is [Returned] or
    [Thrown] once the call has finished. *)
Fixpoint drive (fuel : nat) (replies : list Reply) (w : World) (ph : Phase T)
  : World * Phase T :=
  match fuel with
  | O => (w, ph)
  | S fuel' =>
      match ph with
      | Returned _ | Thrown _ => (w, ph)
      | AtLoop _ =>
          let '(w', ph') := stepCall w ph (Resume 0) in
          drive fuel' replies w' ph'
      | Sleeping _ since ms =>
          let w1 := {| clock := wakeAt (clock w) since ms;
                       requests := requests w; granted := granted w |} in
          let '(w', ph') := stepCall w1 ph TimerFired in
          drive fuel' replies w' ph'
      | Awaiting _ =>
          match replies with
          | [] => (w, ph)
          | r :: rest =>
              let '(w', ph') := stepCall (advance (latency r) w) ph (Settled (outcome r)) in
              drive fuel' rest w' ph'
          end
      end
  end.

Definition execute (fuel : nat) (replies : list Reply) (w : World)
  : World * Phase T :=
  drive fuel replies w (AtLoop 0).

(** An invocation that fails with the rate-limit signal. *)
Definition rateLimited (rp : Reply) : Prop :=
  exists e, outcome rp = RejectedWith e /\ isRateLimit e = true.

End Call.
End Limiter.

Arguments System T : clear implicits.
Arguments Event T : clear implicits.
Arguments Reply T : clear implicits.

(** Number of admissions with a timestamp in the window [lo, lo + W). *)
Definition inWindow (lo W ts : Z) : bool := (lo <=? ts) && (ts <? lo + W).

Definition admissionsIn (lo W : Z) (log : list Z) : nat :=
  length (List.filter (inWindow lo W) log).

(** The state invariant of the limiter: no window of length [windowMs]
    holds more than [maxRequests] pushed timestamps, and the list kept by
    the limiter agrees with the history on everything that is still recent
    at, or after, the current time. *)
Definition bounded (opts : RateLimiterOptions) (w : World) : Prop :=
  forall lo,
    (admissionsIn lo (windowMs opts) (granted w) <= Z.to_nat (maxRequests opts))%nat.

Definition coherent (opts : RateLimiterOptions) (w : World) : Prop :=
  forall y, clock w <= y ->
    List.filter (recent opts y) (granted w) = List.filter (recent opts y) (requests w).

Definition invariant (opts : RateLimiterOptions) (w : World) : Prop :=
  bounded opts w /\ coherent opts w.

End RateLimiter.


(* ===================================================================== *)
(** ** Portfolio items and cross-chain aggregation (portfolioHelpers.ts)  *)
(* ===================================================================== *)

Module Portfolio.

Open Scope Qc_scope.

(** [a > b] on numbers. *)
Definition gtb (a b : Qc) : bool :=
  if Qclt_le_dec b a then true else false.

(** An integer literal. *)
Definition num (z : Z) : Qc := Q2Qc (inject_Z z).

(** [PortfolioItem] is declared in lib/types, which is not among the
    sources; the record has the fields that the sources read or build (the
    placeholder items of Portfolio.tsx list them).  Optional fields are
    carried along unchanged by the object spread and are left out. *)
Record PortfolioItem : Type := mkItem {
  address : string;
  name : string;
  symbol : string;
  decimals : Z;
  logoURI : string;
  price : Qc;
  amount : Qc;
  chain : string;
  priceChange24h : Qc
}.

Record AggregatedPortfolioItem : Type := mkAggregated {
  agg_address : string;
  agg_name : string;
  agg_symbol : string;
  agg_decimals : Z;
  agg_logoURI : string;
  agg_price : Qc;
  agg_amount : Qc;
  agg_priceChange24h : Qc;
  chains : list string;
  originalItems : list PortfolioItem;
  isAggregated : bool
}.

(** [SYMBOL_AGGREGATION_MAP[key]]. *)
Definition SYMBOL_AGGREGATION_MAP (key : string) : option string :=
  if String.eqb key "WETH" then Some "ETH"
  else if String.eqb key "ETH" then Some "ETH"
  else if String.eqb key "USDC" then Some "USDC"
  else None.

(** A JS [Map] with string keys: entries in insertion order, [set] on a key
    that is present replaces the value where it stands. *)
Definition JsMap (V : Type) : Type := list (string * V).

Fixpoint mapGet {V} (key : string) (m : JsMap V) : option V :=
  match m with
  | [] => None
  | (k, v) :: rest => if String.eqb k key then Some v else mapGet key rest
  end.

Fixpoint mapSet {V} (key : string) (value : V) (m : JsMap V) : JsMap V :=
  match m with
  | [] => [(key, value)]
  | (k, v) :: rest =>
      if String.eqb k key then (k, value) :: rest
      else (k, v) :: mapSet key value rest
  end.

Definition mapValues {V} (m : JsMap V) : list V := List.map snd m.

Definition mapKeys {V} (m : JsMap V) : list string := List.map fst m.

(** The three [reduce] calls of the merge branch. *)
Definition totalValueOf (items : list PortfolioItem) : Qc :=
  fold_left (fun sum i => sum + price i * amount i) items 0.

Definition totalAmountOf (items : list PortfolioItem) : Qc :=
  fold_left (fun sum i => sum + amount i) items 0.

Definition totalChangeOf (items : list PortfolioItem) : Qc :=
  fold_left (fun sum i => sum + priceChange24h i * amount i) items 0.

(** [chains.includes(c)]. *)
Definition chainsInclude (c : string) (cs : list string) : bool :=
  existsb (String.eqb c) cs.

Definition ETH_LOGO : string :=
  "https://raw.githubusercontent.com/trustwallet/assets/master/blockchains/ethereum/info/logo.png".

(** "Aggregate with existing item": the in-place update of [existing]. *)
Definition merge (existing : AggregatedPortfolioItem) (item : PortfolioItem)
  : AggregatedPortfolioItem :=
  let amount' := agg_amount existing + amount item in
  let chains' :=
    if chainsInclude (chain item) (chains existing) then chains existing
    else (chains existing ++ [chain item])%list in
  let originalItems' := (originalItems existing ++ [item])%list in
  let totalValue := totalValueOf originalItems' in
  let totalAmount := totalAmountOf originalItems' in
  {| agg_address := agg_address existing;
     agg_name := agg_name existing;
     agg_symbol := agg_symbol existing;
     agg_decimals := agg_decimals existing;
     agg_logoURI := agg_logoURI existing;
     agg_price := if gtb totalAmount 0 then totalValue / totalAmount else 0;
     agg_amount := amount';
     agg_priceChange24h :=
       if gtb totalAmount 0 then totalChangeOf originalItems' / totalAmount else 0;
     chains := chains';
     originalItems := originalItems';
     isAggregated := isAggregated existing |}.

(** "Create new aggregated item". *)
Definition seed (canonicalSymbol : string) (item : PortfolioItem)
  : AggregatedPortfolioItem :=
  {| agg_address := address item;
     agg_name := if String.eqb canonicalSymbol "ETH" then "Ethereum" else canonicalSymbol;
     agg_symbol := canonicalSymbol;
     agg_decimals := decimals item;
     agg_logoURI := if String.eqb canonicalSymbol "ETH" then ETH_LOGO else logoURI item;
     agg_price := price item;
     agg_amount := amount item;
     agg_priceChange24h := priceChange24h item;
     chains := [chain item];
     originalItems := [item];
     isAggregated := true |}.

(** "Non-aggregated item, just convert to aggregated format". *)
Definition wrap (item : PortfolioItem) : AggregatedPortfolioItem :=
  {| agg_address := address item;
     agg_name := name item;
     agg_symbol := symbol item;
     agg_decimals := decimals item;
     agg_logoURI := logoURI item;
     agg_price := price item;
     agg_amount := amount item;
     agg_priceChange24h := priceChange24h item;
     chains := [chain item];
     originalItems := [item];
     isAggregated := false |}.

(** The key of the non-aliased branch: [`${item.symbol}-${item.chain}`]. *)
Definition plainKey (item : PortfolioItem) : string :=
  symbol item +:+ "-" +:+ chain item.

(** The body of [items.forEach]. *)
Definition addItem (aggregationMap : JsMap AggregatedPortfolioItem) (item : PortfolioItem)
  : JsMap AggregatedPortfolioItem :=
  match SYMBOL_AGGREGATION_MAP (Js.toUpperCase (symbol item)) with
  | Some canonicalSymbol =>
      let key := canonicalSymbol in
      match mapGet key aggregationMap with
      | Some existing => mapSet key (merge existing item) aggregationMap
      | None => mapSet key (seed canonicalSymbol item) aggregationMap
      end
  | None => mapSet (plainKey item) (wrap item) aggregationMap
  end.

Definition aggregationMapOf (items : list PortfolioItem) : JsMap AggregatedPortfolioItem :=
  fold_left addItem items [].

Definition aggregatePortfolioItems (items : list PortfolioItem)
  : list AggregatedPortfolioItem :=
  mapValues (aggregationMapOf items).

(** The canonical symbol of an item, when its symbol is in the table. *)
Definition canonicalOf (item : PortfolioItem) : option string :=
  SYMBOL_AGGREGATION_MAP (Js.toUpperCase (symbol item)).

(** The arithmetic sum of a list of numbers, and the holdings-weighted
    average of a quantity over a list of items. *)
Definition sumQc (l : list Qc) : Qc := fold_right Qcplus 0 l.

Definition sumAmounts (items : list PortfolioItem) : Qc :=
  sumQc (List.map amount items).

Definition weightedAverage (f : PortfolioItem -> Qc) (items : list PortfolioItem) : Qc :=
  sumQc (List.map (fun i => f i * amount i) items) / sumAmounts items.

(** *** The view component (components/Portfolio.tsx) *)

(** The dust threshold [0.02]. *)
Definition DUST : Qc := Q2Qc (2 # 100).

Definition usdValue (asset : AggregatedPortfolioItem) : Qc :=
  agg_price asset * agg_amount asset.

(** [aggregatedAssets.filter((asset) => asset.price * asset.amount > 0.02)]. *)
Definition assets (aggregatedAssets : list AggregatedPortfolioItem)
  : list AggregatedPortfolioItem :=
  List.filter (fun asset => gtb (agg_price asset * agg_amount asset) DUST) aggregatedAssets.

(** [assets.reduce((sum, asset) => sum + asset.price * asset.amount, 0)]. *)
Definition totalBalance (aggregatedAssets : list AggregatedPortfolioItem) : Qc :=
  fold_left (fun sum asset => sum + agg_price asset * agg_amount asset)
            (assets aggregatedAssets) 0.

(** *** Properties of entries used to state the invariants of the fold *)

(** Every entry of a map satisfies a property of key and value. *)
Definition entriesSatisfy (Q : string -> AggregatedPortfolioItem -> Prop)
           (m : JsMap AggregatedPortfolioItem) : Prop :=
  forall k a, In (k, a) m -> Q k a.

(** What every entry of the map satisfies: the amount is the sum over the
    original items; an entry that was never merged shows the price and the
    change of its only item, a merged entry shows the recomputed averages. *)
Definition averaged (a : AggregatedPortfolioItem) : Prop :=
  agg_amount a = sumAmounts (originalItems a)
  /\ ((exists it, originalItems a = [it]
        /\ agg_price a = price it /\ agg_priceChange24h a = priceChange24h it)
      \/ ((2 <= length (originalItems a))%nat
          /\ agg_price a =
               (if gtb (sumAmounts (originalItems a)) 0
                then weightedAverage price (originalItems a) else 0)
          /\ agg_priceChange24h a =
               (if gtb (sumAmounts (originalItems a)) 0
                then weightedAverage priceChange24h (originalItems a) else 0))).

(** The two kinds of entries of the map: a group under a canonical symbol,
    flagged, whose original items all map to that symbol; or one item
    outside the table, wrapped under its own key. *)
Definition classified (k : string) (a : AggregatedPortfolioItem) : Prop :=
  (isAggregated a = true
   /\ k = agg_symbol a
   /\ originalItems a <> []
   /\ Forall (fun i => canonicalOf i = Some (agg_symbol a)) (originalItems a))
  \/ (isAggregated a = false
      /\ exists it, canonicalOf it = None /\ a = wrap it /\ k = plainKey it).

(** An entry [covers] an item of the table when the item sits in a flagged
    group under its canonical symbol. *)
Definition covers (m : JsMap AggregatedPortfolioItem) (it : PortfolioItem) (c : string) : Prop :=
  exists a, mapGet c m = Some a
            /\ isAggregated a = true /\ agg_symbol a = c /\ In it (originalItems a).

End Portfolio.


(* ===================================================================== *)
(** ** DenylistCache                                                      *)
(* ===================================================================== *)

Module Denylist.

(** A chain id is passed as [string | number]; a template literal renders
    a number in decimal. *)
Inductive ChainId : Type :=
| ChainStr (s : string)
| ChainNum (n : Z).

Definition showChainId (chainId : ChainId) : string :=
  match chainId with
  | ChainStr s => s
  | ChainNum n => pretty n
  end.

Definition truthyChainId (chainId : ChainId) : bool :=
  match chainId with
  | ChainStr s => Js.truthy s
  | ChainNum n => negb (n =? 0)
  end.

Definition TTL_MS : Z := 24 * 60 * 60 * 1000.

Definition DENYLIST_MESSAGES : list string :=
  ["deny list"; "denylist"; "is invalid"].

(** The object store [denylisted_tokens]: key path [key], value the
    [timestamp].  [db = None] is a database that could not be opened: every
    method then takes its [if (!this.db)] or [catch] exit. *)
Record DenylistCache : Type := mkCache {
  db : option (gmap string Z)
}.

(** [`${chainId}-${token.toLowerCase()}`]. *)
Definition createKey (token : string) (chainId : ChainId) : string :=
  showChainId chainId +:+ "-" +:+ Js.toLowerCase token.

(** [Date.now() - timestamp > this.TTL_MS]. *)
Definition isExpired (now timestamp : Z) : bool :=
  TTL_MS <? now - timestamp.

(** [cleanupExpired]: the cursor over [IDBKeyRange.upperBound(cutoffTime)]
    deletes every entry whose timestamp is at most the cutoff. *)
Definition cleanupExpired (now : Z) (store : gmap string Z) : gmap string Z :=
  let cutoffTime := now - TTL_MS in
  filter (fun entry : string * Z => cutoffTime < entry.2) store.

Definition removeFromDenylist (token : string) (chainId : ChainId)
           (cache : DenylistCache) : DenylistCache :=
  match db cache with
  | None => cache
  | Some store => {| db := Some (delete (createKey token chainId) store) |}
  end.

Definition isDenylisted (now : Z) (token : string) (chainId : ChainId)
           (cache : DenylistCache) : bool * DenylistCache :=
  match db cache with
  | None => (false, cache)
  | Some store =>
      let key := createKey token chainId in
      match store !! key with
      | None => (false, cache)
      | Some timestamp =>
          if isExpired now timestamp
          then (false, removeFromDenylist token chainId cache)
          else (true, cache)
      end
  end.

(** [addToDenylist] at time [now]; [random] is the value of
    [Math.random()], and the sweep it may start reads the clock [lag]
    milliseconds later. *)
Definition addToDenylist (now : Z) (random : Qc) (lag : N)
           (token : string) (chainId : ChainId) (cache : DenylistCache)
  : DenylistCache :=
  match db cache with
  | None => cache
  | Some store =>
      let key := createKey token chainId in
      let store' := <[key := now]> store in
      if Portfolio.gtb (Q2Qc (1 # 10)) random
      then {| db := Some (cleanupExpired (now + Z.of_N lag) store') |}
      else {| db := Some store' |}
  end.

Definition isDenylistError (errorMessage : string) : bool :=
  let message := Js.toLowerCase errorMessage in
  existsb (fun phrase => Js.includes phrase message) DENYLIST_MESSAGES.

(** *** The pattern [/token\s+(\d+)-([a-fA-F0-9x]+)/i] *)

Definition isSpace (c : ascii) : bool :=
  let n := nat_of_ascii c in
  (n =? 32)%nat || ((9 <=? n)%nat && (n <=? 13)%nat).

Definition isDigit (c : ascii) : bool :=
  let n := nat_of_ascii c in (48 <=? n)%nat && (n <=? 57)%nat.

(** The class [[a-fA-F0-9x]] under the [i] flag. *)
Definition isHexClass (c : ascii) : bool :=
  let n := nat_of_ascii (Js.lowerChar c) in
  isDigit c || ((97 <=? n)%nat && (n <=? 102)%nat) || (n =? 120)%nat.

(** The longest prefix of characters of a class, and the rest. *)
Fixpoint span (p : ascii -> bool) (s : string) : string * string :=
  match s with
  | EmptyString => (EmptyString, EmptyString)
  | String c s' =>
      if p c then let '(taken, rest) := span p s' in (String c taken, rest)
      else (EmptyString, s)
  end.

(** A literal matched without regard to letter case. *)
Fixpoint literalCI (lit s : string) : option string :=
  match lit, s with
  | EmptyString, _ => Some s
  | String a lit', String b s' =>
      if Ascii.eqb a (Js.lowerChar b) then literalCI lit' s' else None
  | String _ _, EmptyString => None
  end.

(** A match of the pattern that starts at the first character.  The three
    repetitions are greedy and are followed by a character outside their
    class, so the longest run is the only one that can match. *)
Definition matchHere (s : string) : option (string * string) :=
  match literalCI "token" s with
  | None => None
  | Some s1 =>
      let '(spaces, s2) := span isSpace s1 in
      if Js.truthy spaces then
        let '(digits, s3) := span isDigit s2 in
        if Js.truthy digits then
          match s3 with
          | String "-" s4 =>
              let '(hex, _) := span isHexClass s4 in
              if Js.truthy hex then Some (digits, hex) else None
          | _ => None
          end
        else None
      else None
  end.

(** [errorMessage.match(...)]: the leftmost match; the result is the pair
    [(chainId, token)] of the two groups. *)
Fixpoint parseTokenFromError (errorMessage : string) : option (string * string) :=
  match matchHere errorMessage with
  | Some groups => Some groups
  | None =>
      match errorMessage with
      | EmptyString => None
      | String _ rest => parseTokenFromError rest
      end
  end.

Definition handlePotentialDenylistError (now : Z) (random : Qc) (lag : N)
           (errorMessage : string) (token : option string) (chainId : option ChainId)
           (cache : DenylistCache) : bool * DenylistCache :=
  if negb (isDenylistError errorMessage) then (false, cache)
  else
    match parseTokenFromError errorMessage with
    | Some (parsedChainId, parsedToken) =>
        (true, addToDenylist now random lag parsedToken (ChainStr parsedChainId) cache)
    | None =>
        match token, chainId with
        | Some t, Some c =>
            if Js.truthy t && truthyChainId c
            then (true, addToDenylist now random lag t c cache)
            else (false, cache)
        | _, _ => (false, cache)
        end
    end.

End Denylist.


(* ===================================================================== *)
(** ** EVM metadata enrichment (evmPortfolio.ts)                          *)
(* ===================================================================== *)

Module Evm.

(** [TokenMetadata] of lib/types (not among the sources), with the fields
    that [enrichTokenMetadata] fills in; [md_chainId] is the result of
    [parseInt], [None] standing for [NaN]. *)
Record TokenMetadata : Type := mkMetadata {
  md_address : string;
  md_name : string;
  md_symbol : string;
  md_decimals : Z;
  md_logoURI : string;
  md_chainId : option Z
}.

(** [TokenMetadataSchema]: every field nullable and optional. *)
Record InlineMetadata : Type := mkInline {
  in_symbol : option string;
  in_decimals : option Z;
  in_name : option string;
  in_logo : option string
}.

(** [TokenSchema]; the balance string is taken through [BigInt] already. *)
Record Token : Type := mkToken {
  network : string;
  tokenAddress : option string;
  tokenBalance : Z;
  tokenMetadata : option InlineMetadata
}.

Record Network : Type := mkNetwork {
  chainId : string;
  networkId : string;
  chain : string
}.

Definition SUPPORTED_NETWORKS : list Network :=
  [ {| chainId := "1"; networkId := "eth-mainnet"; chain := "ethereum" |};
    {| chainId := "42161"; networkId := "arb-mainnet"; chain := "arbitrum" |};
    {| chainId := "56"; networkId := "bnb-mainnet"; chain := "bsc" |};
    {| chainId := "8453"; networkId := "base-mainnet"; chain := "base" |};
    {| chainId := "480"; networkId := "worldchain-mainnet"; chain := "worldchain" |} ].

(** What [getAnyToken] resolves to.  [LifiToken] is declared in lib/types,
    which is not among the sources; the record has the fields that
    [enrichTokenMetadata] reads, each of which may be missing. *)
Record LifiToken : Type := mkLifi {
  lifi_name : option string;
  lifi_symbol : option string;
  lifi_decimals : option Z;
  lifi_logoURI : option string
}.

Definition ZERO_ADDRESS : string := "0x0000000000000000000000000000000000000000".

(** Truthiness of an optional number and of an optional string. *)
Definition truthyNumber (x : option Z) : option Z :=
  match x with
  | Some v => if v =? 0 then None else Some v
  | None => None
  end.

Definition truthyString (x : option string) : option string :=
  match x with
  | Some s => if Js.truthy s then Some s else None
  | None => None
  end.

(** [parseInt] of a string of decimal digits; [None] is [NaN]. *)
Fixpoint parseDigits (acc : option Z) (s : string) : option Z :=
  match s with
  | EmptyString => acc
  | String c s' =>
      if Denylist.isDigit c then
        let d := Z.of_nat (nat_of_ascii c - 48) in
        parseDigits (Some (match acc with Some a => 10 * a + d | None => d end)) s'
      else acc
  end.

Definition parseInt (s : string) : option Z := parseDigits None s.

(** [`${address}-${network.chainId}`]. *)
Definition cacheKey (address chainId : string) : string :=
  address +:+ "-" +:+ chainId.

(** Modelled from the spec: [tokenMetadataCache.get(key)] of ./localStorage,
    which is not among the sources.  The key of a cache entry is
    "normalized to lowercase" and the metadata cache has "no expiry": the
    store holds its records under the lower-cased key and is read under
    the lower-cased key. *)
Definition cacheGet (key : string) (cache : gmap string TokenMetadata)
  : option TokenMetadata := cache !! Js.toLowerCase key.

(** Modelled from the spec: [tokenMetadataCache.set(key, value)] of
    ./localStorage, which is not among the sources: the key is "normalized
    to lowercase" and "a new write replaces". *)
Definition cacheSet (key : string) (value : TokenMetadata)
           (cache : gmap string TokenMetadata) : gmap string TokenMetadata :=
  <[Js.toLowerCase key := value]> cache.

(** The test "we have complete metadata from Alchemy": all four fields
    truthy. *)
Definition completeInline (m : option InlineMetadata)
  : option (string * string * Z * string) :=
  match m with
  | None => None
  | Some i =>
      match truthyString (in_name i), truthyString (in_symbol i),
            truthyNumber (in_decimals i), truthyString (in_logo i) with
      | Some n, Some s, Some d, Some l => Some (n, s, d, l)
      | _, _, _, _ => None
      end
  end.

Section Enrich.
(** [getAddress] of viem ([None]: it throws), and the result of the network
    lookup [getAnyToken(token, chainId)] ([None]: it resolves to [null]). *)
Variable getAddress : string -> option string.
Variable getAnyToken : string -> string -> option LifiToken.

(** "If metadata is incomplete, fetch from traditional source". *)
Definition fallbackLookup (address : string) (net : Network)
           (cache : gmap string TokenMetadata)
  : option TokenMetadata * gmap string TokenMetadata :=
  match getAddress address with
  | None => (None, cache)
  | Some checksummed =>
      match getAnyToken checksummed (chainId net) with
      | None => (None, cache)
      | Some metadata =>
          match truthyNumber (lifi_decimals metadata) with
          | None => (None, cache)
          | Some d =>
              let tokenMetadata :=
                {| md_address := address;
                   md_name := Js.orString (lifi_name metadata) "";
                   md_symbol := Js.orString (lifi_symbol metadata) "";
                   md_decimals := d;
                   md_logoURI := Js.orString (lifi_logoURI metadata) "";
                   md_chainId := parseInt (chainId net) |} in
              (Some tokenMetadata,
               cacheSet (cacheKey address (chainId net)) tokenMetadata cache)
          end
      end
  end.

Definition enrichTokenMetadata (token : Token) (net : Network)
           (cache : gmap string TokenMetadata)
  : option TokenMetadata * gmap string TokenMetadata :=
  let address := Js.orString (tokenAddress token) ZERO_ADDRESS in
  let key := cacheKey address (chainId net) in
  match cacheGet key cache with
  | Some cachedMetadata => (Some cachedMetadata, cache)
  | None =>
      match completeInline (tokenMetadata token) with
      | Some (n, s, d, l) =>
          let metadata :=
            {| md_address := address;
               md_name := n;
               md_symbol := s;
               md_decimals := d;
               md_logoURI := l;
               md_chainId := parseInt (chainId net) |} in
          (Some metadata, cacheSet key metadata cache)
      | None => fallbackLookup address net cache
      end
  end.

(** [Math.pow(10, decimals)]. *)
Definition pow10 (d : Z) : Qc :=
  if 0 <=? d then Qcpower (Q2Qc 10) (Z.to_nat d)
  else (/ Qcpower (Q2Qc 10) (Z.to_nat (- d)))%Qc.

(** An entry of [tokens] in [getTokenHoldings]. *)
Record Holding : Type := mkHolding {
  h_metadata : TokenMetadata;
  h_amount : Qc;
  h_chain : string;
  h_address : string
}.

(** The callback of [filteredTokens.map]: [None] is the [null] that the
    following [filter] drops. *)
Definition holdingOf (token : Token) (cache : gmap string TokenMetadata)
  : option Holding * gmap string TokenMetadata :=
  match List.find (fun n => String.eqb (networkId n) (network token)) SUPPORTED_NETWORKS with
  | None => (None, cache)
  | Some net =>
      match enrichTokenMetadata token net cache with
      | (None, cache') => (None, cache')
      | (Some metadata, cache') =>
          (Some {| h_metadata := metadata;
                   h_amount := (Q2Qc (inject_Z (tokenBalance token)) / pow10 (md_decimals metadata))%Qc;
                   h_chain := chain net;
                   h_address := Js.orString (tokenAddress token) ZERO_ADDRESS |},
           cache')
      end
  end.

(** [tokens]: the holdings that survive, the cache threaded through the
    tokens in order. *)
Fixpoint holdingsOf (tokens : list Token) (cache : gmap string TokenMetadata)
  : list Holding * gmap string TokenMetadata :=
  match tokens with
  | [] => ([], cache)
  | token :: rest =>
      let '(h, cache') := holdingOf token cache in
      let '(hs, cache'') := holdingsOf rest cache' in
      (match h with Some x => x :: hs | None => hs end, cache'')
  end.

End Enrich.

(** No cached metadata has zero decimals. *)
Definition noZeroDecimals (cache : gmap string TokenMetadata) : Prop :=
  forall key metadata, cache !! key = Some metadata -> md_decimals metadata <> 0.

End Evm.


(* ===================================================================== *)
(** ** RateLimiter: what a finished call leaves behind                    *)
(* ===================================================================== *)

Module RateLimiterRuns.
Import RateLimiter.

(** How [execute] ends on a reply that is not a rate-limit failure:
    [return result] or the final [throw error] of the [catch]. *)
Definition decided {T} (o : Outcome T) : Phase T :=
  match o with
  | Fulfilled v => Returned v
  | RejectedWith e => Thrown e
  end.

(** A reply that the [catch] does not retry. *)
Definition decisive {T} (rp : Reply T) : Prop :=
  match outcome rp with
  | Fulfilled _ => True
  | RejectedWith e => isRateLimit e = false
  end.

(** The time the operation itself takes over a list of invocations. *)
Definition totalLatency {T} (rs : list (Reply T)) : Z :=
  fold_right (fun rp acc => Z.of_N (latency rp) + acc) 0 rs.

(** What the list of the limiter holds at any time: no more than
    [maxRequests] timestamps, none from the future, each of them the
    timestamp of an admission. *)
Definition tidy (opts : RateLimiterOptions) (w : World) : Prop :=
  (length (requests w) <= Z.to_nat (maxRequests opts))%nat
  /\ (forall ts, In ts (requests w) -> ts <= clock w /\ In ts (granted w)).

End RateLimiterRuns.


(* ===================================================================== *)
(** ** Aggregation: groups, keys and the summary line                     *)
(* ===================================================================== *)

Module PortfolioView.
Import Portfolio.
Open Scope Qc_scope.

(** The input item belongs to the group of a canonical symbol. *)
Definition inGroup (canonicalSymbol : string) (item : PortfolioItem) : bool :=
  match canonicalOf item with
  | Some c => String.eqb c canonicalSymbol
  | None => false
  end.

(** The key under which the loop body files an item. *)
Definition keyOf (item : PortfolioItem) : string :=
  match canonicalOf item with
  | Some c => c
  | None => plainKey item
  end.


(** What every entry of the map satisfies about its chains: no chain is
    listed twice and the chains are those of the original items. *)
Definition chainsExact (a : AggregatedPortfolioItem) : Prop :=
  NoDup (chains a)
  /\ forall c, In c (chains a) <-> exists i, In i (originalItems a) /\ chain i = c.

(** The display fields of an entry: address and decimals are those of its
    first original item; an entry flagged as a group is named after its
    symbol ("Ethereum" for ETH) and has the logo of its first item (the
    fixed logo for ETH); any other entry has the name, logo and symbol of
    its first item. *)
Definition seededByFirst (a : AggregatedPortfolioItem) : Prop :=
  exists first rest,
    originalItems a = first :: rest
    /\ agg_address a = address first
    /\ agg_decimals a = decimals first
    /\ (isAggregated a = true ->
        agg_name a = (if String.eqb (agg_symbol a) "ETH" then "Ethereum" else agg_symbol a)
        /\ agg_logoURI a = (if String.eqb (agg_symbol a) "ETH" then ETH_LOGO
                            else logoURI first))
    /\ (isAggregated a = false ->
        agg_name a = name first /\ agg_logoURI a = logoURI first
        /\ agg_symbol a = symbol first).

(** The groups of the two canonical symbols hold the items processed so
    far that belong to them, in the order of processing. *)
Definition collects (processed : list PortfolioItem)
           (m : JsMap AggregatedPortfolioItem) : Prop :=
  forall c, c = "ETH" \/ c = "USDC" ->
    match mapGet c m with
    | Some a => originalItems a = List.filter (inGroup c) processed
    | None => List.filter (inGroup c) processed = []
    end.

End PortfolioView.


(* ===================================================================== *)
(** ** DenylistCache: the methods as operations on one cache              *)
(* ===================================================================== *)

Module DenylistOps.
Import Denylist.

(** [cleanupExpired] as a method: [if (!this.db) return]. *)
Definition cleanup (now : Z) (cache : DenylistCache) : DenylistCache :=
  match db cache with
  | None => cache
  | Some store => {| db := Some (cleanupExpired now store) |}
  end.

(** [size()]: the number of entries, 0 without a database. *)
Definition size (cache : DenylistCache) : nat :=
  match db cache with
  | None => 0%nat
  | Some store => base.size store
  end.

(** [clear()]. *)
Definition clear (cache : DenylistCache) : DenylistCache :=
  match db cache with
  | None => cache
  | Some _ => {| db := Some ∅ |}
  end.

(** A call of one of the methods that touch the store, with the values the
    environment chooses for it: the clock, [Math.random()], and the delay
    of the sweep. *)
Inductive Op : Type :=
| OpIsDenylisted (now : Z) (token : string) (chainId : ChainId)
| OpAddToDenylist (now : Z) (random : Qc) (lag : N) (token : string) (chainId : ChainId)
| OpHandle (now : Z) (random : Qc) (lag : N) (errorMessage : string)
           (token : option string) (chainId : option ChainId)
| OpCleanupExpired (now : Z)
| OpClear.

Definition perform (op : Op) (cache : DenylistCache) : DenylistCache :=
  match op with
  | OpIsDenylisted now token chainId => snd (isDenylisted now token chainId cache)
  | OpAddToDenylist now random lag token chainId =>
      addToDenylist now random lag token chainId cache
  | OpHandle now random lag errorMessage token chainId =>
      snd (handlePotentialDenylistError now random lag errorMessage token chainId cache)
  | OpCleanupExpired now => cleanup now cache
  | OpClear => clear cache
  end.

Definition performAll (ops : list Op) (cache : DenylistCache) : DenylistCache :=
  fold_left (fun c op => perform op c) ops cache.

(** The operations that put an entry. *)
Definition writes (op : Op) : bool :=
  match op with
  | OpAddToDenylist _ _ _ _ _ | OpHandle _ _ _ _ _ _ => true
  | _ => false
  end.

(** The entry under the key of a token, if the database is open. *)
Definition entryOf (token : string) (chainId : ChainId) (cache : DenylistCache)
  : option Z :=
  match db cache with
  | None => None
  | Some store => store !! createKey token chainId
  end.

(** A chain id that renders as a decimal number. *)
Definition numericChain (chainId : ChainId) : Prop :=
  Js.every isDigit (showChainId chainId) = true.

(** The token and chain that [handlePotentialDenylistError] puts on the
    list for a message that passed [isDenylistError]: the pair parsed from
    the message if there is one, the explicit arguments otherwise. *)
Definition target (errorMessage : string) (token : option string)
           (chainId : option ChainId) : option (string * ChainId) :=
  match parseTokenFromError errorMessage with
  | Some (parsedChainId, parsedToken) => Some (parsedToken, ChainStr parsedChainId)
  | None =>
      match token, chainId with
      | Some t, Some c => if Js.truthy t && truthyChainId c then Some (t, c) else None
      | _, _ => None
      end
  end.

(** The shape of the text that [matchHere] accepts. *)
Definition matched (s chainId token : string) : Prop :=
  exists word spaces post,
    s = word +:+ spaces +:+ chainId +:+ "-" +:+ token +:+ post
    /\ Js.toLowerCase word = "token"
    /\ spaces <> "" /\ Js.every isSpace spaces = true
    /\ chainId <> "" /\ Js.every isDigit chainId = true
    /\ token <> "" /\ Js.every isHexClass token = true
    /\ match post with
       | EmptyString => True
       | String c _ => isHexClass c = false
       end.

(** Two texts that differ at most in the case of the letters A to Z:
    character by character they are equal once an upper-case letter of
    that range is replaced by its lower-case letter.  Every other
    character, also one outside ASCII that [String.prototype.toLowerCase]
    would change, is the same in both. *)
Definition sameUpToAsciiCase (a b : string) : Prop :=
  Js.mapString Js.lowerChar a = Js.mapString Js.lowerChar b.

(** Two results of the parser that agree up to letter case. *)
Definition sameGroups (x y : option (string * string)) : Prop :=
  match x, y with
  | Some (c, t), Some (c', t') =>
      Js.toLowerCase c = Js.toLowerCase c' /\ Js.toLowerCase t = Js.toLowerCase t'
  | None, None => True
  | _, _ => False
  end.

End DenylistOps.


(* ===================================================================== *)
(** ** getAnyToken: the lookup at li.quest behind the denylist            *)
(* ===================================================================== *)

Module TokenLookup.
Import Denylist.

(** How the request to li.quest ends: a body that passes
    [LifiTokenSchema.parse]; a response that is not [ok], with its text; or
    an exception ([fetch], [res.json()] or the schema), with its message. *)
Inductive Answer : Type :=
| Parsed (data : Evm.LifiToken)
| NotOk (errorText : string)
| Threw (errorMessage : string).

(** What the environment chooses for one call: the clock at the denylist
    check, the time the request takes, [Math.random()] and the delay of the
    sweep in [addToDenylist]. *)
Record Env : Type := mkEnv {
  now : Z;
  elapsed : N;
  random : Qc;
  lag : N
}.

(** What a call leaves behind: its result, the URLs it requested and the
    denylist. *)
Record Lookup : Type := mkLookup {
  result : option Evm.LifiToken;
  requested : list string;
  denylist : DenylistCache
}.

Section Lookup.
(** [caip2ToLifiChainId] and [caip2Map] of lib/util, which is not among
    the sources; [None] is [null]. *)
Variable caip2ToLifiChainId : string -> option ChainId.
Variable caip2Map : list (string * string).

Definition mapped (key : string) : option string :=
  option_map snd (List.find (fun entry => String.eqb (fst entry) key) caip2Map).

Definition resolveChain (chainIdOrCaip2 : string) : ChainId :=
  let chainId :=
    if Js.includes ":" chainIdOrCaip2 then caip2ToLifiChainId chainIdOrCaip2
    else
      match mapped chainIdOrCaip2 with
      | Some caip2 => caip2ToLifiChainId caip2
      | None => None
      end in
  match chainId with
  | Some c => c
  | None => ChainStr chainIdOrCaip2
  end.

Definition url (token : string) (chainId : ChainId) : string :=
  "https://li.quest/v1/token?token=" +:+ token +:+ "&chain=" +:+ showChainId chainId.

Definition getAnyToken (env : Env) (api : string -> Answer)
           (token chainIdOrCaip2 : string) (cache : DenylistCache) : Lookup :=
  let chainId := resolveChain chainIdOrCaip2 in
  let '(denied, cache) := isDenylisted (now env) token chainId cache in
  if denied then {| result := None; requested := []; denylist := cache |}
  else
    let failed (message : string) :=
      {| result := None;
         requested := [url token chainId];
         denylist :=
           snd (handlePotentialDenylistError
                  (now env + Z.of_N (elapsed env)) (random env) (lag env)
                  message (Some token) (Some chainId) cache) |} in
    match api (url token chainId) with
    | Parsed data =>
        {| result := Some data; requested := [url token chainId]; denylist := cache |}
    | NotOk errorText => failed errorText
    | Threw errorMessage => failed errorMessage
    end.

(** The message of a failed request, if the request failed. *)
Definition failure (a : Answer) : option string :=
  match a with
  | Parsed _ => None
  | NotOk errorText => Some errorText
  | Threw errorMessage => Some errorMessage
  end.

End Lookup.

End TokenLookup.


(* ===================================================================== *)
(** ** getTokenHoldings: from the validated response to portfolio items   *)
(* ===================================================================== *)

Module Holdings.
Import Denylist Evm.

(** [balance > BigInt(0)]. *)
Definition preFilteredTokens (tokens : list Token) : list Token :=
  List.filter (fun token => 0 <? tokenBalance token) tokens.

(** [!token.tokenAddress || token.tokenAddress === "0x00...00"]. *)
Definition isNativeToken (token : Token) : bool :=
  match tokenAddress token with
  | None => true
  | Some a => negb (Js.truthy a) || String.eqb a ZERO_ADDRESS
  end.

(** [SUPPORTED_NETWORKS.find(n => n.networkId === token.network)]. *)
Definition networkOf (token : Token) : option Network :=
  List.find (fun n => String.eqb (networkId n) (network token)) SUPPORTED_NETWORKS.

(** The callback of [preFilteredTokens.map]: [None] is the [null] that the
    following [filter] drops; [now] is the clock at the read of the
    denylist. *)
Definition denylistCheck (now : Z) (token : Token) (cache : DenylistCache)
  : option Token * DenylistCache :=
  if isNativeToken token then (Some token, cache)
  else
    match networkOf token, tokenAddress token with
    | Some net, Some a =>
        if Js.truthy a then
          let '(denied, cache') := isDenylisted now a (ChainStr (chainId net)) cache in
          if denied then (None, cache') else (Some token, cache')
        else (Some token, cache)
    | _, _ => (Some token, cache)
    end.

(** [filteredTokens]: the callbacks in the order of the tokens, the [i]-th
    one reading the clock at [clock i]; the denylist is threaded through
    because a read deletes the entry it finds expired. *)
Fixpoint filteredFrom (clock : nat -> Z) (i : nat) (tokens : list Token)
         (cache : DenylistCache) : list Token * DenylistCache :=
  match tokens with
  | [] => ([], cache)
  | token :: rest =>
      let '(kept, cache') := denylistCheck (clock i) token cache in
      let '(more, cache'') := filteredFrom clock (S i) rest cache' in
      (match kept with Some t => t :: more | None => more end, cache'')
  end.

Definition filteredTokens (clock : nat -> Z) (tokens : list Token)
           (cache : DenylistCache) : list Token * DenylistCache :=
  filteredFrom clock 0 tokens cache.

(** An entry of the map that [fetchTokenPrices] resolves to. *)
Record PriceData : Type := mkPrice {
  pd_price : Qc;
  pd_priceChange24h : Qc
}.

(** [x.toFixed(2) === "0.00"]: [x] rounds to zero at two decimals, a tie
    going up, and has no minus sign. *)
Definition printsZero (x : Qc) : bool :=
  negb (Portfolio.gtb 0%Qc x) && Portfolio.gtb (Q2Qc (1 # 200)) x.

(** The callback of the last [tokens.map]; [prices] is [prices.get]. *)
Definition itemOf (prices : string -> option PriceData) (token : Holding)
  : option Portfolio.PortfolioItem :=
  match prices (h_address token) with
  | None => None
  | Some priceData =>
      if printsZero (pd_price priceData * h_amount token)%Qc then None
      else
        Some {| Portfolio.address := md_address (h_metadata token);
                Portfolio.name := md_name (h_metadata token);
                Portfolio.symbol := md_symbol (h_metadata token);
                Portfolio.decimals := md_decimals (h_metadata token);
                Portfolio.logoURI := Js.orString (Some (md_logoURI (h_metadata token))) "";
                Portfolio.price := pd_price priceData;
                Portfolio.amount := h_amount token;
                Portfolio.chain := h_chain token;
                Portfolio.priceChange24h := pd_priceChange24h priceData |}
  end.

Section Pipeline.
Variable getAddress : string -> option string.
Variable getAnyToken : string -> string -> option LifiToken.
(** The clock of the denylist reads and the prices of [fetchTokenPrices]
    (./price, not among the sources). *)
Variable clock : nat -> Z.
Variable prices : string -> option PriceData.

(** [getTokenHoldings] from the validated tokens of the response on. *)
Definition getTokenHoldings (tokens : list Token) (denylist : DenylistCache)
           (cache : gmap string TokenMetadata) : list Portfolio.PortfolioItem :=
  let filtered := fst (filteredTokens clock (preFilteredTokens tokens) denylist) in
  let tokens := fst (holdingsOf getAddress getAnyToken filtered cache) in
  omap (itemOf prices) tokens.

End Pipeline.

(** What the denylist says about a token at a given time, read off a
    cache without touching it. *)
Definition listed (now : Z) (token : Token) (cache : DenylistCache) : bool :=
  match networkOf token, tokenAddress token with
  | Some net, Some a =>
      Js.truthy a && fst (isDenylisted now a (ChainStr (chainId net)) cache)
  | _, _ => false
  end.

(** The filter that the denylist stage amounts to: the denylist is read,
    never written; the [i]-th token is judged at [clock i]. *)
Fixpoint keptFrom (clock : nat -> Z) (i : nat) (tokens : list Token)
         (cache : DenylistCache) : list Token :=
  match tokens with
  | [] => []
  | token :: rest =>
      if isNativeToken token || negb (listed (clock i) token cache)
      then token :: keptFrom clock (S i) rest cache
      else keptFrom clock (S i) rest cache
  end.

End Holdings.


(* ===================================================================== *)
(** ** solanaPortfolio: holdings, metadata in batches, the portfolio      *)
(* ===================================================================== *)

Module Solana.

(** [TokenMetadata] of lib/types as it is built here. *)
Record TokenMetadata : Type := mkMetadata {
  address : string;
  decimals : Z;
  name : string;
  symbol : string;
  logoURI : string;
  volume24h : Qc;
  chainId : Z
}.

Definition SOLANA_CHAIN_ID : Z := 1151111081099710.

(** An entry of the answer of the Jupiter search, with the fields that the
    code reads; each of them may be missing. *)
Record TokenData : Type := mkTokenData {
  id : option string;
  td_decimals : option Z;
  td_name : option string;
  td_symbol : option string;
  icon : option string;
  buyVolume : option Qc
}.

(** [x || 0] on an optional number. *)
Definition orZero (x : option Qc) : Qc :=
  match x with
  | Some v => if Qc_eq_dec v 0%Qc then 0%Qc else v
  | None => 0%Qc
  end.

(** The metadata built from a search result. *)
Definition metadataOf (mint : string) (tokenData : TokenData) : TokenMetadata :=
  {| address := Js.orString (id tokenData) mint;
     decimals := Js.orNumber (td_decimals tokenData) 9;
     name := Js.orString (td_name tokenData) "unknown";
     symbol := Js.orString (td_symbol tokenData) "unknown";
     logoURI := Js.orString (icon tokenData) "";
     volume24h := orZero (buyVolume tokenData);
     chainId := SOLANA_CHAIN_ID |}.

(** The placeholder for a mint without metadata. *)
Definition unknown (mint : string) : TokenMetadata :=
  {| address := mint;
     decimals := 9;
     name := "unknown";
     symbol := "unknown";
     logoURI := "";
     volume24h := 0%Qc;
     chainId := SOLANA_CHAIN_ID |}.

(** What [response.json()] resolves to, as far as the code tells values
    apart: an array of results, another value that is read as one
    result, or a falsy value. *)
Inductive Json : Type :=
| JArray (items : list TokenData)
| JOther (item : TokenData)
| JFalsy.

(** The error thrown by the operation of [fetchTokenMetadataFromJupiter]
    and by that of [fetchTokenMetadataBatch] on a response that is not
    [ok]. *)
Definition lookupError (mint : string) (status : Z) : Js.Error :=
  {| Js.message := Some ("Failed to fetch metadata for " +:+ mint);
     Js.status := Some status |}.

Definition batchError (status : Z) : Js.Error :=
  {| Js.message := Some "Failed to fetch batch metadata";
     Js.status := Some status |}.

(** [mints.join(',')]. *)
Fixpoint join (parts : list string) : string :=
  match parts with
  | [] => ""
  | [p] => p
  | p :: rest => p +:+ "," +:+ join rest
  end.

Definition BATCH_SIZE : nat := 20.

(** [tokenDataMap.get(mint)] for the [Map] built from the pairs
    [[t.id, t]]: of several results with the same id the last one stays. *)
Definition resultFor (mint : string) (items : list TokenData) : option TokenData :=
  List.find (fun t => match id t with
                      | Some i => String.eqb i mint
                      | None => false
                      end) (rev items).

(** A JS array written by index: [results[i] = x]. *)
Abbreviation Results := (gmap nat TokenMetadata).

Section Metadata.
(** [tokenMetadataCache] of ./localStorage, which is not among the
    sources: any store with a [get] and a [set]. *)
Context {Cache : Type}.
Variable cacheGet : string -> Cache -> option TokenMetadata.
Variable cacheSet : string -> TokenMetadata -> Cache -> Cache.
(** How [jupiterRateLimiter.execute] settles for the search of a query
    string, the [n]-th search since the start: [Some] data, or [None] when
    it rejects. *)
Variable search : nat -> string -> option Json.

(** The metadata cache and the queries sent so far, oldest first. *)
Record Store : Type := mkStore {
  cache : Cache;
  asked : list string
}.

Definition ask (query : string) (st : Store) : option Json * Store :=
  (search (length (asked st)) query,
   {| cache := cache st; asked := asked st ++ [query] |}).

Definition fetchTokenMetadataFromJupiter (mint : string) (st : Store)
  : TokenMetadata * Store :=
  match cacheGet mint (cache st) with
  | Some cachedMetadata => (cachedMetadata, st)
  | None =>
      let '(data, st) := ask mint st in
      let tokenData :=
        match data with
        | Some (JArray items) => head items
        | Some (JOther item) => Some item
        | Some JFalsy => None
        | None => None
        end in
      match tokenData with
      | None => (unknown mint, st)
      | Some tokenData =>
          let metadata := metadataOf mint tokenData in
          (metadata, {| cache := cacheSet mint metadata (cache st); asked := asked st |})
      end
  end.

(** The first loop: "check cache first". *)
Fixpoint checkCache (i : nat) (mints : list string) (c : Cache) (results : Results)
  : Results * list (string * nat) :=
  match mints with
  | [] => (results, [])
  | mint :: rest =>
      match cacheGet mint c with
      | Some cachedMetadata => checkCache (S i) rest c (<[i := cachedMetadata]> results)
      | None =>
          let '(results, uncachedMints) := checkCache (S i) rest c results in
          (results, (mint, i) :: uncachedMints)
      end
  end.

(** The [for] over a batch whose search succeeded. *)
Fixpoint mapBack (batch : list (string * nat)) (items : list TokenData)
         (results : Results) (c : Cache) : Results * Cache :=
  match batch with
  | [] => (results, c)
  | (mint, index) :: rest =>
      match resultFor mint items with
      | Some tokenData =>
          let metadata := metadataOf mint tokenData in
          mapBack rest items (<[index := metadata]> results) (cacheSet mint metadata c)
      | None => mapBack rest items (<[index := unknown mint]> results) c
      end
  end.

(** The [for] of the [catch]: "fallback to individual fetches". *)
Fixpoint individually (batch : list (string * nat)) (results : Results) (st : Store)
  : Results * Store :=
  match batch with
  | [] => (results, st)
  | (mint, index) :: rest =>
      let '(metadata, st) := fetchTokenMetadataFromJupiter mint st in
      individually rest (<[index := metadata]> results) st
  end.

(** The loop [for (i = 0; i < uncachedMints.length; i += BATCH_SIZE)];
    [pending] is what is left from position [i] on, and the loop runs at
    most once per pending mint. *)
Fixpoint batches (fuel : nat) (pending : list (string * nat)) (results : Results)
         (st : Store) : Results * Store :=
  match fuel, pending with
  | O, _ => (results, st)
  | _, [] => (results, st)
  | S fuel, _ =>
      let batch := firstn BATCH_SIZE pending in
      let mints := join (List.map fst batch) in
      let '(data, st) := ask mints st in
      let '(results, st) :=
        match data with
        | Some data =>
            let items := match data with JArray items => items | _ => [] end in
            let '(results, c) := mapBack batch items results (cache st) in
            (results, {| cache := c; asked := asked st |})
        | None => individually batch results st
        end in
      batches fuel (skipn BATCH_SIZE pending) results st
  end.

Definition fetchTokenMetadataBatch (mints : list string) (st : Store)
  : Results * Store :=
  let '(results, uncachedMints) := checkCache 0 mints (cache st) ∅ in
  batches (length uncachedMints) uncachedMints results st.

End Metadata.

Arguments Store Cache : clear implicits.

(** What the work on a list of pending entries does to the array: every
    pending index is assigned, no other index is touched. *)
Definition assigns (pending : list (string * nat)) (before after : Results) : Prop :=
  (forall m j, In (m, j) pending -> is_Some (after !! j))
  /\ (forall j, (forall m, ~ In (m, j) pending) -> after !! j = before !! j).

(** A query sent for some of the pending entries: the comma-separated
    list of at least one and at most [BATCH_SIZE] of their mints. *)
Definition sentFor (pending : list (string * nat)) (query : string) : Prop :=
  exists batch,
    batch <> [] /\ (length batch <= BATCH_SIZE)%nat /\ query = join batch
    /\ Forall (fun m => exists j, In (m, j) pending) batch.

(** *** The lookup behind the rate limiter *)

(** A response of the search service: [ok] with its JSON, or not [ok]
    with its status. *)
Inductive Response : Type :=
| Ok (data : Json)
| Status (status : Z).

(** One invocation of the operation that [fetchTokenMetadataFromJupiter]
    hands to [jupiterRateLimiter.execute]. *)
Definition lookupReply (mint : string) (latency : N) (response : Response)
  : RateLimiter.Reply Json :=
  {| RateLimiter.latency := latency;
     RateLimiter.outcome :=
       match response with
       | Ok data => RateLimiter.Fulfilled data
       | Status status => RateLimiter.RejectedWith (lookupError mint status)
       end |}.

(** *** Holdings *)

Record Holding : Type := mkHolding {
  mint : string;
  ata : string;
  h_amount : Z
}.

(** How [decodeTokenAccount] (lib/util, not among the sources) ends. *)
Inductive Decoded : Type :=
| DecodeThrew
| DecodedNothing
| DecodedAccount (mint : string) (amount : Z).

(** An entry of [getTokenAccountsByOwner(...).value]. *)
Record Account : Type := mkAccount {
  pubkey : string;
  decoded : Decoded
}.

Definition parseHolding (account : Account) : option Holding :=
  match decoded account with
  | DecodedAccount m a => Some {| mint := m; ata := pubkey account; h_amount := a |}
  | _ => None
  end.

(** [getHoldings] from the two account lists on. *)
Definition getHoldings (atas atas2022 : list Account) : list Holding :=
  List.filter (fun holding => 0 <? h_amount holding)
              (omap parseHolding (atas ++ atas2022)%list).

(** *** The portfolio *)

Definition WSOL_MINT : string := "So11111111111111111111111111111111111111112".
Definition LAMPORTS_PER_SOL : Z := 1000000000.

(** The callback of [holdings.map]: the outer [None] is the [TypeError] of
    [metadata.decimals] on a missing entry, the inner one the [null] that
    the [filter] drops. *)
Definition tokenItem (tokenMetadata : gmap nat TokenMetadata)
           (prices : string -> option Holdings.PriceData)
           (holding : Holding) (index : nat)
  : option (option Portfolio.PortfolioItem) :=
  match tokenMetadata !! (index + 1)%nat with
  | None => None
  | Some metadata =>
      let amount := (Q2Qc (inject_Z (h_amount holding)) / Evm.pow10 (decimals metadata))%Qc in
      match prices (mint holding) with
      | None => Some None
      | Some priceData =>
          if Holdings.printsZero (Holdings.pd_price priceData * amount)%Qc then Some None
          else
            Some (Some {| Portfolio.address := address metadata;
                          Portfolio.name := name metadata;
                          Portfolio.symbol := symbol metadata;
                          Portfolio.decimals := decimals metadata;
                          Portfolio.logoURI := Js.orString (Some (logoURI metadata)) "";
                          Portfolio.price := Holdings.pd_price priceData;
                          Portfolio.amount := amount;
                          Portfolio.chain := "solana";
                          Portfolio.priceChange24h := Holdings.pd_priceChange24h priceData |})
      end
  end.

Fixpoint tokenItems (tokenMetadata : gmap nat TokenMetadata)
         (prices : string -> option Holdings.PriceData)
         (holdings : list Holding) (index : nat)
  : option (list Portfolio.PortfolioItem) :=
  match holdings with
  | [] => Some []
  | holding :: rest =>
      match tokenItem tokenMetadata prices holding index,
            tokenItems tokenMetadata prices rest (S index) with
      | Some item, Some items =>
          Some (match item with Some i => i :: items | None => items end)
      | _, _ => None
      end
  end.

Definition solPortfolioItem (solMetadata : TokenMetadata)
           (solPrice : option Holdings.PriceData) (solBalance : Z)
  : Portfolio.PortfolioItem :=
  {| Portfolio.address := WSOL_MINT;
     Portfolio.name := "Solana";
     Portfolio.symbol := "SOL";
     Portfolio.decimals := decimals solMetadata;
     Portfolio.logoURI := Js.orString (Some (logoURI solMetadata)) "";
     Portfolio.price := orZero (option_map Holdings.pd_price solPrice);
     Portfolio.priceChange24h := orZero (option_map Holdings.pd_priceChange24h solPrice);
     Portfolio.amount := (Q2Qc (inject_Z solBalance) / Q2Qc (inject_Z LAMPORTS_PER_SOL))%Qc;
     Portfolio.chain := "solana" |}.

Section Portfolio.
Context {Cache : Type}.
Variable cacheGet : string -> Cache -> option TokenMetadata.
Variable cacheSet : string -> TokenMetadata -> Cache -> Cache.
Variable search : nat -> string -> option Json.
Variable prices : string -> option Holdings.PriceData.

(** [fetchPortfolio] from the balance and the holdings on; [None] is an
    exception. *)
Definition fetchPortfolio (solBalance : Z) (holdings : list Holding) (st : Store Cache)
  : option (list Portfolio.PortfolioItem) :=
  let mints := WSOL_MINT :: List.map mint holdings in
  let tokenMetadata := fst (fetchTokenMetadataBatch cacheGet cacheSet search mints st) in
  match tokenMetadata !! 0%nat with
  | None => None
  | Some solMetadata =>
      match tokenItems tokenMetadata prices holdings 0 with
      | None => None
      | Some tokenPortfolioItems =>
          Some (solPortfolioItem solMetadata (prices WSOL_MINT) solBalance
                  :: tokenPortfolioItems)
      end
  end.

End Portfolio.

End Solana.


(* ===================================================================== *)
(** ** suggestStore: suggestions per chat                                 *)
(* ===================================================================== *)

Module Suggest.

(** An entry of [suggestionsPerChat]; a field is [None] when it is [null]
    or was never set (the entry that a failure creates for a new chat has
    only [hasFailedForMessage]). *)
Record ChatSuggestions : Type := mkChat {
  suggestions : option (list string);
  lastMessageId : option string;
  hasFailedForMessage : option string
}.

Record SuggestState : Type := mkState {
  suggestionsPerChat : gmap string ChatSuggestions;
  isLoading : bool;
  error : option string;
  lastMessageHadSpecialTags : bool
}.

Definition initial : SuggestState :=
  {| suggestionsPerChat := ∅; isLoading := false; error := None;
     lastMessageHadSpecialTags := false |}.

(** [get().suggestionsPerChat[chatId]?.suggestions || []]. *)
Definition getSuggestions (chatId : string) (state : SuggestState) : list string :=
  match suggestionsPerChat state !! chatId with
  | Some entry =>
      match suggestions entry with
      | Some s => s
      | None => []
      end
  | None => []
  end.

Definition setLastMessageHadSpecialTags (value : bool) (state : SuggestState)
  : SuggestState :=
  {| suggestionsPerChat := suggestionsPerChat state; isLoading := isLoading state;
     error := error state; lastMessageHadSpecialTags := value |}.

(** A message of the chat, with the fields that the store reads. *)
Record Message : Type := mkMessage {
  msg_id : string;
  direction : string;
  message : string
}.

(** How the request ends: the suggestions of the response, or an
    exception with the text that ends up in [error]. *)
Inductive Outcome : Type :=
| Suggested (data : list string)
| Failed (errorMessage : string).

(** [lastMessage.id === x] for a field [x] that may be [null] or
    [undefined]. *)
Definition sameId (id : string) (x : option string) : bool :=
  match x with
  | Some y => String.eqb id y
  | None => false
  end.

(** The part of [fetchSuggestions] before the request: [None] when it
    returns early, otherwise the id of the last message and the state
    after [set({ isLoading: true, error: null })]. *)
Definition start (chatId : string) (messages : list Message) (state : SuggestState)
  : option (string * SuggestState) :=
  match last messages with
  | None => None
  | Some lastMessage =>
      let current := suggestionsPerChat state !! chatId in
      if sameId (msg_id lastMessage) (current ≫= lastMessageId)
         || sameId (msg_id lastMessage) (current ≫= hasFailedForMessage)
      then None
      else Some (msg_id lastMessage,
                 {| suggestionsPerChat := suggestionsPerChat state;
                    isLoading := true;
                    error := None;
                    lastMessageHadSpecialTags := lastMessageHadSpecialTags state |})
  end.

(** The update after the request, on the state of that moment. *)
Definition finish (chatId id : string) (outcome : Outcome) (state : SuggestState)
  : SuggestState :=
  match outcome with
  | Suggested data =>
      {| suggestionsPerChat :=
           <[chatId := {| suggestions := Some data;
                          lastMessageId := Some id;
                          hasFailedForMessage := None |}]>
             (suggestionsPerChat state);
         isLoading := false;
         error := error state;
         lastMessageHadSpecialTags := lastMessageHadSpecialTags state |}
  | Failed errorMessage =>
      let old := suggestionsPerChat state !! chatId in
      {| suggestionsPerChat :=
           <[chatId := {| suggestions := old ≫= suggestions;
                          lastMessageId := old ≫= lastMessageId;
                          hasFailedForMessage := Some id |}]>
             (suggestionsPerChat state);
         isLoading := false;
         error := Some errorMessage;
         lastMessageHadSpecialTags := lastMessageHadSpecialTags state |}
  end.

(** [fetchSuggestions] with no other action of the store in between; the
    flag tells whether the request was sent. *)
Definition fetchSuggestions (chatId : string) (messages : list Message)
           (outcome : Outcome) (state : SuggestState) : SuggestState * bool :=
  match start chatId messages state with
  | None => (state, false)
  | Some (id, loading) => (finish chatId id outcome loading, true)
  end.

(** [clearSuggestions(chatId?)]: one chat, or all of them when no id (or
    an empty one) is given. *)
Definition clearSuggestions (chatId : option string) (state : SuggestState)
  : SuggestState :=
  {| suggestionsPerChat :=
       match chatId with
       | Some c =>
           if Js.truthy c
           then <[c := {| suggestions := Some []; lastMessageId := None;
                          hasFailedForMessage := None |}]> (suggestionsPerChat state)
           else ∅
       | None => ∅
       end;
     isLoading := isLoading state;
     error := None;
     lastMessageHadSpecialTags := lastMessageHadSpecialTags state |}.

(** An action of the store on a chat other than the one under study. *)
Inductive Action : Type :=
| Fetch (chatId : string) (messages : list Message) (outcome : Outcome)
| Clear (chatId : string)
| SetTags (value : bool).

Definition act (a : Action) (state : SuggestState) : SuggestState :=
  match a with
  | Fetch chatId messages outcome => fst (fetchSuggestions chatId messages outcome state)
  | Clear chatId => clearSuggestions (Some chatId) state
  | SetTags value => setLastMessageHadSpecialTags value state
  end.

(** The action leaves the entry of [chatId] alone: it is about another
    chat, and a [Clear] names a chat. *)
Definition elsewhere (chatId : string) (a : Action) : Prop :=
  match a with
  | Fetch c _ _ => c <> chatId
  | Clear c => c <> chatId /\ c <> ""
  | SetTags _ => True
  end.

(** The id of the last message of a list. *)
Definition lastId (messages : list Message) : option string :=
  option_map msg_id (last messages).

End Suggest.


(* ===================================================================== *)
(** ** Concrete inputs                                                    *)
(* ===================================================================== *)

Module RateLimiterExamples.
Import RateLimiter.

(** Ten timestamps inside one second: the window of [jupiterRateLimiter] is
    full at time 500. *)
Definition fullWorld : World :=
  {| clock := 500;
     requests := [0; 1; 2; 3; 4; 5; 6; 7; 8; 9];
     granted := [0; 1; 2; 3; 4; 5; 6; 7; 8; 9] |}.

(** Twelve calls started and resumed within the same millisecond. *)
Definition burst : list (Event unit) :=
  List.repeat Invoke 12 ++ List.map (fun i => Deliver i (Resume 0)) (seq 0 12).

Definition http429 : Js.Error :=
  {| Js.message := Some "Failed to fetch metadata for So11111111111111111111111111111111111111112";
     Js.status := Some 429 |}.

Definition failing : Reply string :=
  {| latency := 50%N; outcome := RejectedWith http429 |}.

Definition idle : World := {| clock := 0; requests := []; granted := [] |}.

(** Ten calls let through at time 0 and an eleventh exactly [windowMs]
    later. *)
Definition boundary : list (Event unit) :=
  List.repeat Invoke 11
  ++ List.map (fun i => Deliver i (Resume 0)) (seq 0 10)
  ++ [Tick 1000; Deliver 10 (Resume 0)].

End RateLimiterExamples.

Module PortfolioExamples.
Import Portfolio.

Definition usdc : PortfolioItem :=
  {| address := "EPjFWdd5AufqSSqeM2qN1xzybapC8G4wEGGkZwyTDt1v";
     name := "USD Coin"; symbol := "USDC"; decimals := 6;
     logoURI := "https://example.org/usdc.png";
     price := num 1; amount := num 100; chain := "solana"; priceChange24h := num 0 |}.

(** An ETH entry with nothing held, priced at 2000. *)
Definition emptyEth : PortfolioItem :=
  {| address := "0x0000000000000000000000000000000000000000";
     name := "Ether"; symbol := "ETH"; decimals := 18;
     logoURI := "";
     price := num 2000; amount := num 0; chain := "ethereum"; priceChange24h := num 5 |}.

(** The dust example of the specification: price 0.001, amount 1. *)
Definition speck : PortfolioItem :=
  {| address := "SpeckMint1111111111111111111111111111111111";
     name := "Speck"; symbol := "SPECK"; decimals := 9;
     logoURI := "";
     price := Q2Qc (1 # 1000); amount := num 1; chain := "solana"; priceChange24h := num 0 |}.

Definition bonk (held : Z) : PortfolioItem :=
  {| address := "DezXAZ8z7PnrnRJjz3wXBoRgixCa6xjnB7YaB1pPB263";
     name := "Bonk"; symbol := "BONK"; decimals := 5;
     logoURI := "";
     price := num 1; amount := num held; chain := "solana"; priceChange24h := num 2 |}.

End PortfolioExamples.

Module DenylistExamples.

(** The address of the example in the source comment, in upper case as an
    upstream message may spell it, and in lower case. *)
Definition shouted : string := "0x42C35B14E6F163EA0A625C919DD95F5A3A594C19".
Definition quiet : string := "0x42c35b14e6f163ea0a625c919dd95f5a3a594c19".

(** USDC on Ethereum, checksummed and in lower case. *)
Definition checksummed : string := "0xA0b86991c6218b36c1d19D4a2e9Eb0cE3606eB48".


End DenylistExamples.

Module EvmExamples.
Import Evm.

(** A token for which both Alchemy and the individual lookup report zero
    decimals. *)
Definition collectible : Token :=
  {| network := "eth-mainnet";
     tokenAddress := Some "0x06012c8cf97BEaD5deAe237070F9587f8E7A266d";
     tokenBalance := 3;
     tokenMetadata :=
       Some {| in_symbol := Some "CK"; in_decimals := Some 0;
               in_name := Some "CryptoKitties"; in_logo := Some "https://example.org/ck.png" |} |}.

Definition mainnet : Network :=
  {| chainId := "1"; networkId := "eth-mainnet"; chain := "ethereum" |}.

Definition checksum (address : string) : option string := Some address.

(** The individual lookup fails. *)
Definition lookupNothing (token chain : string) : option LifiToken := None.

(** USDC on Ethereum as Alchemy reports it, under a given spelling of the
    address and with or without inline metadata. *)
Definition usdcToken (address : string) (inline : bool) : Token :=
  {| network := "eth-mainnet";
     tokenAddress := Some address;
     tokenBalance := 1000000;
     tokenMetadata :=
       if inline
       then Some {| in_symbol := Some "USDC"; in_decimals := Some 6;
                    in_name := Some "USD Coin";
                    in_logo := Some "https://example.org/usdc.png" |}
       else None |}.

Definition lookupZero (token chain : string) : option LifiToken :=
  Some {| lifi_name := Some "CryptoKitties"; lifi_symbol := Some "CK";
          lifi_decimals := Some 0; lifi_logoURI := None |}.

End EvmExamples.


Module RateLimiterRunExamples.
Import RateLimiter.

Definition succeeding : Reply string :=
  {| latency := 20%N; outcome := Fulfilled "[]" |}.

End RateLimiterRunExamples.


Module DenylistOpsExamples.
Import Denylist.

(** The message of the comment above [parseTokenFromError]. *)
Definition lifiMessage : string :=
  "Token 42161-0x42c35b14e6f163ea0a625c919dd95f5a3a594c19 is invalid or in deny list.".

(** A message with a denylist phrase that names no token. *)
Definition bareMessage : string := "This token is on the denylist".

(** A store with one entry, written at time 0. *)
Definition aged : DenylistCache :=
  {| db := Some (<[createKey DenylistExamples.quiet (ChainNum 42161) := 0]> ∅) |}.

End DenylistOpsExamples.


Module TokenLookupExamples.
Import Denylist TokenLookup.

(** A resolution of CAIP-2 names of EVM chains, [eip155:<id>], to the
    numeric id. *)
Definition eip155 (caip2 : string) : option ChainId :=
  if Js.startsWith "eip155:" caip2
  then option_map ChainNum
         (Evm.parseInt (String.substring 7 (String.length caip2 - 7) caip2))
  else None.

Definition names : list (string * string) := [("arbitrum", "eip155:42161")].

Definition refusing (_ : string) : Answer := NotOk DenylistOpsExamples.lifiMessage.

Definition serving (_ : string) : Answer :=
  Parsed {| Evm.lifi_name := Some "USD Coin"; Evm.lifi_symbol := Some "USDC";
            Evm.lifi_decimals := Some 6; Evm.lifi_logoURI := None |}.

Definition morning : Env := {| now := 1000; elapsed := 200; random := Q2Qc (1 # 2); lag := 0 |}.
Definition noon : Env := {| now := 5000; elapsed := 150; random := Q2Qc (1 # 2); lag := 0 |}.

End TokenLookupExamples.


Module HoldingsExamples.
Import Evm Holdings.

(** The native balance of an Ethereum account, as Alchemy lists it. *)
Definition ether : Token :=
  {| network := "eth-mainnet";
     tokenAddress := None;
     tokenBalance := 2000000000000000000;
     tokenMetadata :=
       Some {| in_symbol := Some "ETH"; in_decimals := Some 18;
               in_name := Some "Ether"; in_logo := Some "https://example.org/eth.png" |} |}.

Definition ticking (i : nat) : Z := 1000 + Z.of_nat i.

Definition quotes (address : string) : option PriceData :=
  if String.eqb address ZERO_ADDRESS
  then Some {| pd_price := Portfolio.num 2000; pd_priceChange24h := Portfolio.num 1 |}
  else Some {| pd_price := Portfolio.num 1; pd_priceChange24h := Portfolio.num 0 |}.

(** A denylist that holds the zero address on chain 1. *)
Definition zeroListed : Denylist.DenylistCache :=
  {| Denylist.db :=
       Some (<[Denylist.createKey ZERO_ADDRESS (Denylist.ChainStr "1") := 900]> ∅) |}.

Definition response : list Token :=
  [ether; EvmExamples.usdcToken DenylistExamples.checksummed true].

Definition items : list Portfolio.PortfolioItem :=
  getTokenHoldings EvmExamples.checksum EvmExamples.lookupNothing ticking quotes
                   response zeroListed ∅.

End HoldingsExamples.


Module SuggestExamples.
Import Suggest.

Definition hello : Message :=
  {| msg_id := "m1"; direction := "outgoing"; message := "What should I buy?" |}.

Definition answer : Message :=
  {| msg_id := "m2"; direction := "incoming"; message := "Here is your portfolio." |}.

(** A chat that already shows suggestions for its first message. *)
Definition shown : SuggestState :=
  fst (fetchSuggestions "chat-1" [hello] (Suggested ["Buy SOL"; "Show my portfolio"]) initial).

End SuggestExamples.


(* ===================================================================== *)
(** * Properties                                                          *)
(* ===================================================================== *)

(** ** Lists and filters *)

Lemma filter_length_mono {A} (p q : A -> bool) (l : list A) :
  (forall x, In x l -> p x = true -> q x = true) ->
  (length (List.filter p l) <= length (List.filter q l))%nat.
Proof.
  induction l as [|a l IH]; intros Hpq; simpl; [lia|].
  assert (IH' : (length (List.filter p l) <= length (List.filter q l))%nat).
  { apply IH. intros x Hx. apply Hpq. now right. }
  destruct (p a) eqn:Hp.
  - rewrite (Hpq a (or_introl eq_refl) Hp). simpl. lia.
  - destruct (q a); simpl; lia.
Qed.

Lemma filter_filter_absorb {A} (p q : A -> bool) (l : list A) :
  (forall x, p x = true -> q x = true) ->
  List.filter p (List.filter q l) = List.filter p l.
Proof.
  intros Hpq. induction l as [|a l IH]; simpl; [reflexivity|].
  destruct (q a) eqn:Hq; simpl.
  - destruct (p a); now rewrite IH.
  - destruct (p a) eqn:Hp; [|exact IH].
    rewrite (Hpq a Hp) in Hq. discriminate.
Qed.

Lemma filter_length_le_all {A} (p : A -> bool) (l : list A) :
  (length (List.filter p l) <= length l)%nat.
Proof.
  induction l as [|a l IH]; simpl; [lia|]. destruct (p a); simpl; lia.
Qed.

Lemma filter_drops_one {A} (p : A -> bool) (l : list A) (x : A) :
  In x l -> p x = false -> (length (List.filter p l) < length l)%nat.
Proof.
  induction l as [|a l IH]; simpl; [tauto|].
  intros [->|Hin] Hp.
  - rewrite Hp. pose proof (filter_length_le_all p l). lia.
  - specialize (IH Hin Hp). destruct (p a); simpl; lia.
Qed.

(** ** RateLimiter *)

Module RateLimiterFacts.
Import RateLimiter.

Section Facts.
Variable opts : RateLimiterOptions.
Context {T : Type}.

Local Abbreviation W := (windowMs opts) (only parsing).
Local Abbreviation recent := (RateLimiter.recent opts) (only parsing).
Local Abbreviation invariant := (RateLimiter.invariant opts) (only parsing).

Lemma cleanup_recent (now y : Z) (reqs : list Z) :
  now <= y ->
  List.filter (recent y) (cleanupOldRequests opts now reqs) = List.filter (recent y) reqs.
Proof.
  intros Hle. unfold cleanupOldRequests. apply filter_filter_absorb.
  intros x Hx. unfold RateLimiter.recent in *.
  apply Z.ltb_lt in Hx. apply Z.ltb_lt. lia.
Qed.

Lemma window_within_recent (lo now : Z) (log : list Z) :
  lo <= now < lo + W ->
  (admissionsIn lo W log <= length (List.filter (recent now) log))%nat.
Proof.
  intros Hnow. unfold admissionsIn. apply filter_length_mono.
  intros x _ Hx. unfold inWindow in Hx.
  apply andb_prop in Hx as [H1 H2].
  apply Z.leb_le in H1. apply Z.ltb_lt in H2.
  unfold RateLimiter.recent. apply Z.ltb_lt. lia.
Qed.

Lemma admissionsIn_snoc (lo : Z) (log : list Z) (ts : Z) :
  admissionsIn lo W (log ++ [ts]) =
  (admissionsIn lo W log + (if inWindow lo W ts then 1 else 0))%nat.
Proof.
  unfold admissionsIn. rewrite List.filter_app, length_app. simpl.
  destruct (inWindow lo W ts); reflexivity.
Qed.

Lemma iteration_invariant (d : N) (w : World) (retries : Z) :
  invariant w -> invariant (fst (iteration (T := T) opts d w retries)).
Proof.
  intros [Hb Hc]. unfold iteration.
  destruct (retries <=? maxRetries opts); [|split; assumption].
  set (now1 := clock w). set (now2 := now1 + Z.of_N d).
  set (reqs := cleanupOldRequests opts now1 (requests w)).
  assert (H12 : now1 <= now2) by (unfold now2; lia).
  destruct (Z.of_nat (length reqs) <? maxRequests opts) eqn:Hroom.
  - apply Z.ltb_lt in Hroom. split.
    + intros lo. simpl. rewrite admissionsIn_snoc.
      destruct (inWindow lo W now2) eqn:Hin; [|specialize (Hb lo); lia].
      unfold inWindow in Hin. apply andb_prop in Hin as [H1 H2].
      apply Z.leb_le in H1. apply Z.ltb_lt in H2.
      pose proof (window_within_recent lo now2 (granted w) (conj H1 H2)) as Hw.
      rewrite (Hc now2 H12) in Hw.
      rewrite <- (cleanup_recent now1 now2 (requests w) H12) in Hw.
      pose proof (filter_length_le_all (recent now2) (cleanupOldRequests opts now1 (requests w))) as Hl.
      fold reqs in Hl, Hw. lia.
    + intros y Hy. simpl in *.
      rewrite !List.filter_app. f_equal.
      unfold reqs. rewrite cleanup_recent by lia. apply Hc. lia.
  - assert (Hfull : invariant {| clock := now2; requests := reqs; granted := granted w |}).
    { split; [exact Hb|]. intros y Hy. simpl in *.
      unfold reqs. rewrite cleanup_recent by lia. apply Hc. lia. }
    destruct (positiveDelay (waitTime opts now2 reqs)); exact Hfull.
Qed.

Lemma settle_world (w : World) (retries : Z) (o : Outcome T) :
  fst (settle opts w retries o) = w.
Proof.
  unfold settle. destruct o as [v|e]; [reflexivity|].
  destruct (isRateLimit e); [|reflexivity].
  destruct (retries + 1 >? maxRetries opts); reflexivity.
Qed.

Lemma stepCall_invariant (w : World) (ph : Phase T) (inp : Input T) :
  invariant w -> invariant (fst (stepCall opts w ph inp)).
Proof.
  intros Hinv. destruct ph, inp; simpl; try exact Hinv.
  - now apply iteration_invariant.
  - now rewrite settle_world.
  - destruct (due _ _ _); exact Hinv.
Qed.

Lemma advance_invariant (d : N) (w : World) :
  invariant w -> invariant (advance d w).
Proof.
  intros [Hb Hc]. split; [exact Hb|].
  intros y Hy. simpl in *. apply Hc. lia.
Qed.

Lemma sysStep_invariant (s : System T) (ev : Event T) :
  invariant (world s) -> invariant (world (sysStep opts s ev)).
Proof.
  intros Hinv. destruct ev as [d| |i inp]; simpl.
  - now apply advance_invariant.
  - exact Hinv.
  - destruct (calls s !! i) as [ph|]; [|exact Hinv].
    pose proof (stepCall_invariant (world s) ph inp Hinv) as H.
    destruct (stepCall opts (world s) ph inp) as [w' ph']. exact H.
Qed.

Lemma run_invariant (evs : list (Event T)) (s : System T) :
  invariant (world s) -> invariant (world (run opts evs s)).
Proof.
  revert s. induction evs as [|ev evs IH]; intros s Hinv; simpl; [exact Hinv|].
  apply IH. now apply sysStep_invariant.
Qed.

Lemma fresh_invariant (t0 : Z) : invariant (world (fresh (T := T) t0)).
Proof.
  split.
  - intros lo. unfold admissionsIn. simpl. lia.
  - intros y _. reflexivity.
Qed.

Lemma fold_min_le (rest : list Z) (t : Z) :
  fold_left Z.min rest t <= t /\ forall x, In x rest -> fold_left Z.min rest t <= x.
Proof.
  revert t. induction rest as [|a rest IH]; intros t; simpl.
  - split; [lia|tauto].
  - destruct (IH (Z.min t a)) as [H1 H2]. split; [lia|].
    intros x [<-|Hx]; [lia|]. now apply H2.
Qed.

Lemma fold_min_in (rest : list Z) (t : Z) :
  In (fold_left Z.min rest t) (t :: rest).
Proof.
  revert t. induction rest as [|a rest IH]; intros t; simpl; [now left|].
  destruct (IH (Z.min t a)) as [H|H]; [|right; now right].
  rewrite <- H. destruct (Z.min_spec t a) as [[_ E]|[_ E]]; rewrite E; auto.
Qed.

Lemma oldestRequest_spec (reqs : list Z) (oldest : Z) :
  oldestRequest reqs = Some oldest ->
  In oldest reqs /\ forall x, In x reqs -> oldest <= x.
Proof.
  destruct reqs as [|t rest]; simpl; [discriminate|].
  intros [= <-]. split; [apply fold_min_in|].
  destruct (fold_min_le rest t) as [H1 H2].
  intros x [<-|Hx]; [exact H1|now apply H2].
Qed.

Lemma oldestRequest_nonempty (reqs : list Z) :
  (0 < length reqs)%nat -> exists oldest, oldestRequest reqs = Some oldest.
Proof. destruct reqs; simpl; [lia|eauto]. Qed.

Lemma cleanup_in (now x : Z) (reqs : list Z) :
  In x (cleanupOldRequests opts now reqs) <-> In x reqs /\ now - x < W.
Proof.
  unfold cleanupOldRequests. rewrite filter_In. unfold RateLimiter.recent.
  rewrite Z.ltb_lt. tauto.
Qed.

(** A full window: the call goes to sleep with its counter unchanged, the
    timer runs until the oldest timestamp has left the window, and the call
    then returns to the head of the loop. *)
Lemma full_window_step (w : World) (r : Z) (d : N) :
  r <= maxRetries opts ->
  0 < maxRequests opts ->
  maxRequests opts <= Z.of_nat (length (cleanupOldRequests opts (clock w) (requests w))) ->
  exists oldest,
    let reqs := cleanupOldRequests opts (clock w) (requests w) in
    let now2 := clock w + Z.of_N d in
    let ms := W - (now2 - oldest) + 100 in
    oldestRequest reqs = Some oldest /\
    In oldest reqs /\
    iteration (T := T) opts d w r =
      ({| clock := now2; requests := reqs; granted := granted w |},
       if 0 <? ms then Sleeping r now2 (Finite ms) else AtLoop r) /\
    (forall t, now2 + ms <= t -> ~ In oldest (cleanupOldRequests opts t reqs)) /\
    (forall w2 : World, now2 + ms <= clock w2 ->
       stepCall (T := T) opts w2 (Sleeping r now2 (Finite ms)) TimerFired = (w2, AtLoop r)).
Proof.
  intros Hr Hmax Hfull.
  destruct (oldestRequest_nonempty (cleanupOldRequests opts (clock w) (requests w)))
    as [oldest Hold]; [lia|].
  exists oldest. cbv zeta.
  destruct (oldestRequest_spec _ _ Hold) as [Hin Hmin].
  repeat split; try assumption.
  - unfold iteration.
    apply Z.leb_le in Hr. rewrite Hr.
    assert (Hroom : (Z.of_nat (length (cleanupOldRequests opts (clock w) (requests w)))
                     <? maxRequests opts) = false) by (apply Z.ltb_ge; lia).
    rewrite Hroom. unfold waitTime. rewrite Hold. unfold positiveDelay.
    now destruct (0 <? _).
  - intros t Ht Hin'. apply cleanup_in in Hin' as [_ Hrec]. lia.
  - intros w2 Hw2. simpl.
    assert (Hdue : (clock w + Z.of_N d + (W - (clock w + Z.of_N d - oldest) + 100) <=? clock w2) = true)
      by (apply Z.leb_le; lia).
    rewrite Hdue. reflexivity.
Qed.

(** *** A call on its own *)

Lemma drive_finished (f : nat) (rs : list (Reply T)) (w : World) (e : Js.Error) :
  drive opts f rs w (Thrown e) = (w, Thrown e).
Proof. destruct f; reflexivity. Qed.

Lemma wakeAt_due (now since : Z) (ms : Delay) :
  due (wakeAt now since ms) since ms = true.
Proof. destruct ms as [d|]; simpl; [apply Z.leb_le; lia|reflexivity]. Qed.

Lemma drive_sleeping (f : nat) (rs : list (Reply T)) (w : World) (r since : Z) (ms : Delay) :
  drive opts (S f) rs w (Sleeping r since ms) =
  drive opts f rs
        {| clock := wakeAt (clock w) since ms; requests := requests w; granted := granted w |}
        (AtLoop r).
Proof. simpl. now rewrite wakeAt_due. Qed.

Lemma cleanup_length (now : Z) (reqs : list Z) :
  (length (cleanupOldRequests opts now reqs) <= length reqs)%nat.
Proof. apply filter_length_le_all. Qed.

(** A call at the head of the loop is let through after at most one sleep,
    provided the list never held more than [maxRequests] timestamps. *)
Lemma drive_reaches_operation (w : World) (r : Z) :
  r <= maxRetries opts ->
  0 < maxRequests opts ->
  Z.of_nat (length (requests w)) <= maxRequests opts ->
  exists k w1,
    (forall f (rs : list (Reply T)),
       drive opts (k + f) rs w (AtLoop r) = drive opts f rs w1 (Awaiting r)) /\
    Z.of_nat (length (requests w1)) <= maxRequests opts.
Proof.
  intros Hr Hmax Hlen.
  set (reqs := cleanupOldRequests opts (clock w) (requests w)).
  pose proof (cleanup_length (clock w) (requests w)) as Hcl. fold reqs in Hcl.
  destruct (Z.ltb_spec (Z.of_nat (length reqs)) (maxRequests opts)) as [Hroom|Hfull].
  - exists 1%nat. eexists. split.
    + intros f rs. simpl. unfold iteration.
      apply Z.leb_le in Hr. rewrite Hr. fold reqs.
      apply Z.ltb_lt in Hroom. rewrite Hroom. reflexivity.
    + simpl. rewrite length_app. simpl. lia.
  - destruct (full_window_step w r 0 Hr Hmax Hfull) as (oldest & Hold & Hin & Hit & Hgone & _).
    cbv zeta in *. fold reqs in Hold, Hin, Hit, Hgone.
    replace (clock w + Z.of_N 0) with (clock w) in * by (simpl; lia).
    set (ms := W - (clock w - oldest) + 100) in *.
    assert (Hrec : clock w - oldest < W) by (apply (cleanup_in (clock w) oldest (requests w)), Hin).
    assert (Hms : (0 <? ms) = true) by (apply Z.ltb_lt; unfold ms; lia).
    rewrite Hms in Hit.
    set (reqs2 := cleanupOldRequests opts (clock w + ms) reqs).
    assert (Hless : (length reqs2 < length reqs)%nat).
    { apply filter_drops_one with (x := oldest); [exact Hin|].
      unfold RateLimiter.recent. apply Z.ltb_ge. unfold ms. lia. }
    exists 3%nat. eexists. split.
    + intros f rs.
      change (3 + f)%nat with (S (S (S f))).
      replace (drive opts (S (S (S f))) rs w (AtLoop r))
        with (drive opts (S (S f)) rs
                {| clock := clock w; requests := reqs; granted := granted w |}
                (Sleeping r (clock w) (Finite ms))).
      2:{ symmetry. cbn [drive stepCall]. rewrite Hit. reflexivity. }
      rewrite drive_sleeping. cbn [clock requests granted wakeAt].
      replace (Z.max (clock w) (clock w + ms)) with (clock w + ms)
        by (apply Z.ltb_lt in Hms; lia).
      cbn [drive stepCall]. unfold iteration.
      apply Z.leb_le in Hr. rewrite Hr. cbn [clock requests granted].
      fold reqs2.
      assert (Hroom : (Z.of_nat (length reqs2) <? maxRequests opts) = true)
        by (apply Z.ltb_lt; lia).
      rewrite Hroom. reflexivity.
    + cbn [requests]. rewrite length_app. simpl. lia.
Qed.

(** A rate-limit failure below the retry budget: back off, then return to
    the head of the loop with the counter incremented. *)
Lemma drive_retry (w : World) (r : Z) (rp : Reply T) :
  rateLimited rp ->
  r + 1 <= maxRetries opts ->
  exists w2,
    (forall f (rs : list (Reply T)),
       drive opts (2 + f) (rp :: rs) w (Awaiting r) = drive opts f rs w2 (AtLoop (r + 1))) /\
    requests w2 = requests w.
Proof.
  intros (e & He & Hrl) Hr. eexists. split.
  - intros f rs. change (2 + f)%nat with (S (S f)).
    cbn [drive stepCall]. rewrite He. unfold settle. rewrite Hrl.
    assert (Hgt : (r + 1 >? maxRetries opts) = false).
    { rewrite Z.gtb_ltb. apply Z.ltb_ge. lia. }
    rewrite Hgt. cbn [stepCall clock]. rewrite wakeAt_due. reflexivity.
  - reflexivity.
Qed.

(** The failure that exceeds the budget is thrown as it is. *)
Lemma drive_give_up (w : World) (r : Z) (rp : Reply T) (e : Js.Error) :
  outcome rp = RejectedWith e ->
  isRateLimit e = true ->
  maxRetries opts < r + 1 ->
  forall f rs,
    drive opts (1 + f) (rp :: rs) w (Awaiting r) = (advance (latency rp) w, Thrown e).
Proof.
  intros He Hrl Hr f rs. change (1 + f)%nat with (S f).
  cbn [drive stepCall]. rewrite He. unfold settle. rewrite Hrl.
  assert (Hgt : (r + 1 >? maxRetries opts) = true).
  { rewrite Z.gtb_ltb. apply Z.ltb_lt. lia. }
  rewrite Hgt. apply drive_finished.
Qed.

Lemma drive_exhausts (failures : list (Reply T)) :
  forall (w : World) (r : Z) (final : Reply T) (more : list (Reply T)) (e : Js.Error),
    0 <= r ->
    r + Z.of_nat (length failures) = maxRetries opts ->
    0 < maxRequests opts ->
    Z.of_nat (length (requests w)) <= maxRequests opts ->
    Forall rateLimited failures ->
    outcome final = RejectedWith e ->
    isRateLimit e = true ->
    exists k w',
      forall f, drive opts (k + f) (failures ++ final :: more) w (AtLoop r) = (w', Thrown e).
Proof.
  induction failures as [|rp failures IH];
    intros w r final more e Hr0 Hsum Hmax Hlen Hall Hfinal Hrl.
  - simpl in Hsum.
    destruct (drive_reaches_operation w r) as (k & w1 & Hk & _); [lia|lia|lia|].
    exists (k + 1)%nat, (advance (latency final) w1). intros f.
    rewrite <- Nat.add_assoc, Hk. simpl app.
    apply drive_give_up; [assumption|assumption|lia].
  - inversion Hall as [|? ? Hrp Hrest]; subst.
    simpl length in Hsum.
    destruct (drive_reaches_operation w r) as (k & w1 & Hk & Hlen1); [lia|lia|lia|].
    destruct (drive_retry w1 r rp Hrp) as (w2 & Hk2 & Hreq2); [lia|].
    destruct (IH w2 (r + 1) final more e) as (k3 & w' & Hk3);
      try assumption; [lia|lia|rewrite Hreq2; lia|].
    exists (k + (2 + k3))%nat, w'. intros f.
    rewrite <- Nat.add_assoc, Hk. simpl app.
    rewrite <- Nat.add_assoc, Hk2. apply Hk3.
Qed.

(** *** A sleeping call *)

Lemma asleep_before_due (w : World) (r since ms : Z) (inp : Input T) :
  clock w < since + ms ->
  stepCall opts w (Sleeping r since (Finite ms)) inp = (w, Sleeping r since (Finite ms)).
Proof.
  intros Hearly. destruct inp; try reflexivity. simpl.
  assert (Hdue : (since + ms <=? clock w) = false) by (apply Z.leb_gt; lia).
  now rewrite Hdue.
Qed.

Lemma stepCall_clock (w : World) (ph : Phase T) (inp : Input T) :
  clock w <= clock (fst (stepCall opts w ph inp)).
Proof.
  destruct ph as [r|r|r since ms|v|e], inp as [d| |o]; simpl; try lia.
  - unfold iteration. destruct (r <=? maxRetries opts); [|simpl; lia].
    destruct (_ <? maxRequests opts); [simpl; lia|].
    destruct (positiveDelay _); simpl; lia.
  - unfold settle. destruct o as [v|e]; [simpl; lia|].
    destruct (isRateLimit e); [|simpl; lia].
    destruct (_ >? _); simpl; lia.
  - destruct (due (clock w) since ms); simpl; lia.
Qed.

Lemma sysStep_clock (s : System T) (ev : Event T) :
  clock (world s) <= clock (world (sysStep opts s ev)).
Proof.
  destruct ev as [d| |i inp]; simpl; try lia.
  destruct (calls s !! i) as [ph|]; [|lia].
  pose proof (stepCall_clock (world s) ph inp) as H.
  destruct (stepCall opts (world s) ph inp) as [w' ph']. exact H.
Qed.

Lemma run_clock (evs : list (Event T)) :
  forall s : System T, clock (world s) <= clock (world (run opts evs s)).
Proof.
  induction evs as [|ev evs IH]; intros s; [simpl; lia|].
  simpl. etransitivity; [apply (sysStep_clock s ev)|apply IH].
Qed.

(** Whatever the event loop does, a call that sleeps on a timer is still
    asleep, with its counter, as long as the clock has not reached the end
    of the timer. *)
Lemma asleep_through_run (evs : list (Event T)) :
  forall (s : System T) (i : nat) (r since ms : Z),
    calls s !! i = Some (Sleeping r since (Finite ms)) ->
    clock (world (run opts evs s)) < since + ms ->
    calls (run opts evs s) !! i = Some (Sleeping r since (Finite ms)).
Proof.
  induction evs as [|ev evs IH]; intros s i r since ms Hcall Hearly; [exact Hcall|].
  change (run opts (ev :: evs) s) with (run opts evs (sysStep opts s ev)) in *.
  assert (Hnow : clock (world s) < since + ms).
  { pose proof (run_clock evs (sysStep opts s ev)) as Hlater.
    pose proof (sysStep_clock s ev) as Hstep. lia. }
  apply IH; [|exact Hearly]. clear Hearly IH.
  destruct ev as [d| |j inp]; simpl.
  - exact Hcall.
  - rewrite lookup_app_l; [exact Hcall|]. now apply lookup_lt_Some in Hcall.
  - destruct (calls s !! j) as [ph|] eqn:Hj; [|exact Hcall].
    destruct (Nat.eq_dec j i) as [->|Hne].
    + rewrite Hcall in Hj. injection Hj as <-.
      rewrite (asleep_before_due _ _ _ _ _ Hnow).
      simpl. rewrite list_lookup_insert_eq; [reflexivity|].
      now apply lookup_lt_Some in Hcall.
    + destruct (stepCall opts (world s) ph inp) as [w' ph']. simpl.
      now rewrite list_lookup_insert_ne.
Qed.

(** A call that runs on its own and finds the window exactly full: it
    sleeps once, is let through [windowMs + 100] after the oldest
    timestamp, and its counter is what it was. *)
Lemma drive_after_full_window (w : World) (r oldest : Z) :
  r <= maxRetries opts ->
  0 < maxRequests opts ->
  Z.of_nat (length (cleanupOldRequests opts (clock w) (requests w))) = maxRequests opts ->
  oldestRequest (cleanupOldRequests opts (clock w) (requests w)) = Some oldest ->
  exists w1,
    (forall f (rs : list (Reply T)),
        drive opts (3 + f) rs w (AtLoop r) = drive opts f rs w1 (Awaiting r))
    /\ clock w1 = oldest + W + 100
    /\ granted w1 = (granted w ++ [clock w1])%list.
Proof.
  intros Hr Hmax Hfull Hold.
  set (reqs := cleanupOldRequests opts (clock w) (requests w)) in *.
  destruct (oldestRequest_spec _ _ Hold) as [Hin Hmin].
  set (ms := W - (clock w - oldest) + 100).
  assert (Hrec : clock w - oldest < W)
    by (apply (cleanup_in (clock w) oldest (requests w)), Hin).
  assert (Hms : 0 < ms) by (unfold ms; lia).
  assert (Hit : iteration (T := T) opts 0 w r
                = ({| clock := clock w; requests := reqs; granted := granted w |},
                   Sleeping r (clock w) (Finite ms))).
  { unfold iteration. apply Z.leb_le in Hr. rewrite Hr. fold reqs.
    assert (Hroom : (Z.of_nat (length reqs) <? maxRequests opts) = false)
      by (apply Z.ltb_ge; lia).
    rewrite Hroom. unfold waitTime. rewrite Hold. unfold positiveDelay.
    replace (clock w + Z.of_N 0) with (clock w) by (simpl; lia). fold ms.
    apply Z.ltb_lt in Hms. now rewrite Hms. }
  set (reqs2 := cleanupOldRequests opts (clock w + ms) reqs).
  assert (Hless : (length reqs2 < length reqs)%nat).
  { apply filter_drops_one with (x := oldest); [exact Hin|].
    unfold RateLimiter.recent. apply Z.ltb_ge. unfold ms. lia. }
  eexists. split; [|split].
  - intros f rs. change (3 + f)%nat with (S (S (S f))).
    replace (drive opts (S (S (S f))) rs w (AtLoop r))
      with (drive opts (S (S f)) rs
              {| clock := clock w; requests := reqs; granted := granted w |}
              (Sleeping r (clock w) (Finite ms))).
    2:{ symmetry. cbn [drive stepCall]. rewrite Hit. reflexivity. }
    rewrite drive_sleeping. cbn [clock requests granted wakeAt].
    replace (Z.max (clock w) (clock w + ms)) with (clock w + ms) by lia.
    cbn [drive stepCall]. unfold iteration.
    apply Z.leb_le in Hr. rewrite Hr. cbn [clock requests granted].
    fold reqs2.
    assert (Hroom : (Z.of_nat (length reqs2) <? maxRequests opts) = true)
      by (apply Z.ltb_lt; lia).
    rewrite Hroom. reflexivity.
  - cbn [clock]. change (Z.of_N 0) with 0. unfold ms. lia.
  - reflexivity.
Qed.

(** C1 -- Sliding-window invariant of the rate limiter.  Whatever calls of
    [execute] are started and however the event loop interleaves their
    resumptions, the passing of time and the settling of their operations,
    every window [lo, lo + windowMs) of [windowMs] consecutive milliseconds
    holds at most [maxRequests] admissions (timestamps pushed onto the
    request list).  A call that finds the window full is not let through:
    it leaves the history of admissions alone and goes to sleep with its
    retry counter unchanged, for [windowMs + 100] less the age of the
    oldest timestamp, the minimum of the list.  While the clock has not
    reached the end of that timer the call stays asleep, whatever it is
    handed and whatever the other calls do (for a delay within the range
    of the timer, at most 2^31 - 1 ms); when the timer fires the oldest
    timestamp has dropped out of the window and the call is back at the
    head of the loop with the same counter; a call on its own that found
    the window exactly full is then let through, [windowMs + 100] after
    the oldest timestamp, still with the same counter (again for a delay
    within the range of the timer). *)
Theorem sliding_window_invariant
        (evs : list (Event T)) (t0 lo : Z) (w : World) (r : Z) (d : N) :
  (admissionsIn lo W (granted (world (run opts evs (fresh t0))))
   <= Z.to_nat (maxRequests opts))%nat
  /\ (r <= maxRetries opts ->
      0 < maxRequests opts ->
      maxRequests opts
        <= Z.of_nat (length (cleanupOldRequests opts (clock w) (requests w))) ->
      exists oldest,
        let reqs := cleanupOldRequests opts (clock w) (requests w) in
        let now2 := clock w + Z.of_N d in
        let ms := W - (now2 - oldest) + 100 in
        oldestRequest reqs = Some oldest /\
        In oldest reqs /\
        (forall ts, In ts reqs -> oldest <= ts) /\
        iteration (T := T) opts d w r =
          ({| clock := now2; requests := reqs; granted := granted w |},
           if 0 <? ms then Sleeping r now2 (Finite ms) else AtLoop r) /\
        (ms <= 2147483647 ->
         forall (w2 : World) (inp : Input T), clock w2 < now2 + ms ->
           stepCall (T := T) opts w2 (Sleeping r now2 (Finite ms)) inp
           = (w2, Sleeping r now2 (Finite ms))) /\
        (ms <= 2147483647 ->
         forall (s : System T) (i : nat) (later : list (Event T)),
           calls s !! i = Some (Sleeping r now2 (Finite ms)) ->
           clock (world (run opts later s)) < now2 + ms ->
           calls (run opts later s) !! i = Some (Sleeping r now2 (Finite ms))) /\
        (forall t, now2 + ms <= t -> ~ In oldest (cleanupOldRequests opts t reqs)) /\
        (forall w2 : World, now2 + ms <= clock w2 ->
           stepCall (T := T) opts w2 (Sleeping r now2 (Finite ms)) TimerFired
           = (w2, AtLoop r)) /\
        (Z.of_nat (length reqs) = maxRequests opts ->
         W - (clock w - oldest) + 100 <= 2147483647 ->
         exists w1,
           (forall f (rs : list (Reply T)),
               drive opts (3 + f) rs w (AtLoop r) = drive opts f rs w1 (Awaiting r))
           /\ clock w1 = oldest + W + 100
           /\ granted w1 = (granted w ++ [clock w1])%list)).
Proof.
  split.
  - destruct (run_invariant evs (fresh t0) (fresh_invariant t0)) as [Hb _].
    apply Hb.
  - intros Hr Hmax Hfull.
    destruct (full_window_step w r d Hr Hmax Hfull)
      as (oldest & Hold & Hin & Hit & Hgone & Hfire).
    exists oldest. cbv zeta in *.
    destruct (oldestRequest_spec _ _ Hold) as [_ Hmin].
    split; [exact Hold|]. split; [exact Hin|]. split; [exact Hmin|].
    split; [exact Hit|].
    split; [intros _ w2 inp Hearly; now apply asleep_before_due|].
    split; [intros _ s i later Hcall Hearly; now apply asleep_through_run|].
    split; [exact Hgone|]. split; [exact Hfire|].
    intros Hexact _. now apply drive_after_full_window.
Qed.

(** C5 (amended) -- When the operation fails with the rate-limit signal
    [maxRetries + 1] times in a row, [execute] terminates and throws the
    error of the last failure itself.  The error "Failed after N retries" of
    the statement behind the loop is what a call throws when the loop is
    never entered, that is when [maxRetries] is negative. *)
Theorem exhausted_retries_rethrow
        (w : World) (failures : list (Reply T)) (final : Reply T)
        (more : list (Reply T)) (e : Js.Error) :
  (0 < maxRequests opts ->
   Z.of_nat (length (requests w)) <= maxRequests opts ->
   Z.of_nat (length failures) = maxRetries opts ->
   Forall rateLimited failures ->
   outcome final = RejectedWith e ->
   isRateLimit e = true ->
   exists fuel0, forall fuel, (fuel0 <= fuel)%nat ->
     snd (execute opts fuel (failures ++ final :: more) w) = Thrown e)
  /\ (maxRetries opts < 0 ->
      forall fuel, snd (execute opts (S fuel) more w) = Thrown (exhausted opts)).
Proof.
  split.
  - intros Hmax Hlen Hn Hall Hfinal Hrl.
    assert (H0 : 0 <= 0) by lia.
    assert (Hsum : 0 + Z.of_nat (length failures) = maxRetries opts) by lia.
    destruct (drive_exhausts failures w 0 final more e H0 Hsum Hmax Hlen Hall Hfinal Hrl)
      as (k & w' & Hk).
    exists k. intros fuel Hfuel. unfold execute.
    replace fuel with (k + (fuel - k))%nat by lia. now rewrite Hk.
  - intros Hneg fuel. unfold execute. cbn [drive stepCall]. unfold iteration.
    assert (Hguard : (0 <=? maxRetries opts) = false) by (apply Z.leb_gt; lia).
    rewrite Hguard. now rewrite drive_finished.
Qed.


End Facts.
End RateLimiterFacts.


Lemma sliding_window_invariant_witness :
  (RateLimiter.admissionsIn 0 1000
     (RateLimiter.granted
        (RateLimiter.world
           (RateLimiter.run RateLimiter.jupiterRateLimiter RateLimiterExamples.burst
                            (RateLimiter.fresh 0)))) <= 10)%nat
  /\ exists oldest,
       RateLimiter.oldestRequest
         (RateLimiter.cleanupOldRequests RateLimiter.jupiterRateLimiter 500
            (RateLimiter.requests RateLimiterExamples.fullWorld)) = Some oldest
       /\ RateLimiter.iteration (T := unit) RateLimiter.jupiterRateLimiter 0
            RateLimiterExamples.fullWorld 0
          = ({| RateLimiter.clock := 500;
                RateLimiter.requests := [0; 1; 2; 3; 4; 5; 6; 7; 8; 9];
                RateLimiter.granted := [0; 1; 2; 3; 4; 5; 6; 7; 8; 9] |},
             RateLimiter.Sleeping 0 500 (RateLimiter.Finite (1000 - (500 - oldest) + 100)))
       /\ RateLimiter.stepCall (T := unit) RateLimiter.jupiterRateLimiter
            {| RateLimiter.clock := 1099;
               RateLimiter.requests := [0; 1; 2; 3; 4; 5; 6; 7; 8; 9];
               RateLimiter.granted := [0; 1; 2; 3; 4; 5; 6; 7; 8; 9] |}
            (RateLimiter.Sleeping 0 500 (RateLimiter.Finite (1000 - (500 - oldest) + 100)))
            RateLimiter.TimerFired
          = ({| RateLimiter.clock := 1099;
                RateLimiter.requests := [0; 1; 2; 3; 4; 5; 6; 7; 8; 9];
                RateLimiter.granted := [0; 1; 2; 3; 4; 5; 6; 7; 8; 9] |},
             RateLimiter.Sleeping 0 500 (RateLimiter.Finite (1000 - (500 - oldest) + 100)))
       /\ exists w1,
            (forall f rs,
                RateLimiter.drive (T := unit) RateLimiter.jupiterRateLimiter (3 + f) rs
                                  RateLimiterExamples.fullWorld (RateLimiter.AtLoop 0)
                = RateLimiter.drive RateLimiter.jupiterRateLimiter f rs w1
                                    (RateLimiter.Awaiting 0))
            /\ RateLimiter.clock w1 = 1100.
Proof.
  destruct (RateLimiterFacts.sliding_window_invariant
              RateLimiter.jupiterRateLimiter (T := unit)
              RateLimiterExamples.burst 0 0 RateLimiterExamples.fullWorld 0 0)
    as [Hwin Hfull].
  split; [exact Hwin|].
  destruct Hfull as (oldest & Hold & _ & _ & Hit & Hasleep & _ & _ & _ & Hsolo);
    [vm_compute; discriminate | reflexivity | vm_compute; discriminate |].
  assert (Hzero : oldest = 0) by (vm_compute in Hold; now injection Hold as <-).
  subst oldest. exists 0. split; [exact Hold|]. split; [exact Hit|]. split.
  - apply Hasleep; [vm_compute; discriminate|reflexivity].
  - destruct Hsolo as (w1 & Hrun & Hclock & _); [reflexivity|vm_compute; discriminate|].
    exists w1. split; [exact Hrun|exact Hclock].
Defined.

(** The bound is tight, and the windows are half-open: the eleventh call is
    let through exactly [windowMs] after the first ten, so that 1001
    consecutive milliseconds hold eleven admissions while every window of
    1000 holds at most ten. *)
Example window_bound_is_tight :
  let log := RateLimiter.granted
               (RateLimiter.world
                  (RateLimiter.run RateLimiter.jupiterRateLimiter
                                   RateLimiterExamples.boundary (RateLimiter.fresh 0))) in
  log = [0; 0; 0; 0; 0; 0; 0; 0; 0; 0; 1000]
  /\ RateLimiter.admissionsIn 0 1000 log = 10%nat
  /\ RateLimiter.admissionsIn 1 1000 log = 1%nat
  /\ RateLimiter.admissionsIn 0 1001 log = 11%nat.
Proof. repeat split; vm_compute; reflexivity. Qed.

Lemma exhausted_retries_rethrow_witness :
  exists fuel0, forall fuel, (fuel0 <= fuel)%nat ->
    snd (RateLimiter.execute RateLimiter.jupiterRateLimiter fuel
           (List.repeat RateLimiterExamples.failing 3 ++ [RateLimiterExamples.failing])
           RateLimiterExamples.idle)
    = RateLimiter.Thrown RateLimiterExamples.http429.
Proof.
  apply (proj1 (RateLimiterFacts.exhausted_retries_rethrow
                  RateLimiter.jupiterRateLimiter RateLimiterExamples.idle
                  (List.repeat RateLimiterExamples.failing 3)
                  RateLimiterExamples.failing [] RateLimiterExamples.http429)).
  - reflexivity.
  - vm_compute. discriminate.
  - reflexivity.
  - repeat constructor; exists RateLimiterExamples.http429; split; reflexivity.
  - reflexivity.
  - reflexivity.
Defined.

(** C5 -- the claim fails: four HTTP 429 failures in a row exhaust the
    budget of [jupiterRateLimiter] (three retries), and the call throws the
    error of the operation, not "Failed after 3 retries". *)
Lemma exhausted_retries_counterexample :
  let result :=
    snd (RateLimiter.execute RateLimiter.jupiterRateLimiter 40
           (List.repeat RateLimiterExamples.failing 4) RateLimiterExamples.idle) in
  result = RateLimiter.Thrown RateLimiterExamples.http429
  /\ result <> RateLimiter.Thrown (RateLimiter.exhausted RateLimiter.jupiterRateLimiter)
  /\ RateLimiter.exhausted RateLimiter.jupiterRateLimiter
     = Js.newError "Failed after 3 retries".
Proof.
  cbv zeta. split; [vm_compute; reflexivity|]. split; [|vm_compute; reflexivity].
  vm_compute. discriminate.
Qed.

(** ** Aggregation *)

Module PortfolioFacts.
Import Portfolio.
Open Scope Qc_scope.

Lemma gtb_true (a b : Qc) : gtb a b = true <-> b < a.
Proof.
  unfold gtb. destruct (Qclt_le_dec b a) as [H|H]; split; intros H'; try easy.
  exfalso. apply (Qcle_not_lt _ _ H H').
Qed.

Lemma gtb_false (a b : Qc) : gtb a b = false <-> a <= b.
Proof.
  unfold gtb. destruct (Qclt_le_dec b a) as [H|H]; split; intros H'; try easy.
  exfalso. apply (Qcle_not_lt _ _ H' H).
Qed.

(** *** The JS map *)

Section JsMapFacts.
Context {V : Type}.
Implicit Types (m : JsMap V) (k : string) (v : V).

Lemma mapGet_set_eq k v m : mapGet k (mapSet k v m) = Some v.
Proof.
  induction m as [|[k' v'] m IH]; simpl.
  - now rewrite String.eqb_refl.
  - destruct (String.eqb k' k) eqn:E; simpl; rewrite E; [reflexivity|exact IH].
Qed.

Lemma mapGet_set_ne k k' v m : k <> k' -> mapGet k' (mapSet k v m) = mapGet k' m.
Proof.
  intros Hne. induction m as [|[k0 v0] m IH]; simpl.
  - apply String.eqb_neq in Hne. now rewrite Hne.
  - destruct (String.eqb k0 k) eqn:E; simpl.
    + apply String.eqb_eq in E. subst k0.
      apply String.eqb_neq in Hne. now rewrite Hne.
    + now rewrite IH.
Qed.

Lemma mapGet_in k v m : mapGet k m = Some v -> In (k, v) m.
Proof.
  induction m as [|[k0 v0] m IH]; simpl; [discriminate|].
  destruct (String.eqb k0 k) eqn:E.
  - apply String.eqb_eq in E. intros [= ->]. left. now subst.
  - intros H. right. now apply IH.
Qed.

Lemma mapGet_none_keys k m : mapGet k m = None -> ~ In k (mapKeys m).
Proof.
  induction m as [|[k0 v0] m IH]; simpl; [intros _ []|].
  destruct (String.eqb k0 k) eqn:E; [discriminate|].
  apply String.eqb_neq in E. intros H [H'|H']; [contradiction|now apply IH].
Qed.

Lemma mapSet_keys_in k v m k' :
  In k' (mapKeys (mapSet k v m)) <-> k' = k \/ In k' (mapKeys m).
Proof.
  induction m as [|[k0 v0] m IH]; simpl.
  - intuition congruence.
  - destruct (String.eqb k0 k) eqn:E; simpl.
    + apply String.eqb_eq in E. subst k0. intuition congruence.
    + rewrite IH. intuition congruence.
Qed.

Lemma mapSet_keys_nodup k v m : NoDup (mapKeys m) -> NoDup (mapKeys (mapSet k v m)).
Proof.
  induction m as [|[k0 v0] m IH]; simpl; intros Hnd.
  - apply NoDup_singleton.
  - apply NoDup_cons in Hnd as [Hnotin Hnd'].
    destruct (String.eqb k0 k) eqn:E; simpl.
    + now apply NoDup_cons.
    + apply NoDup_cons. split; [|now apply IH].
      rewrite list_elem_of_In, mapSet_keys_in. apply String.eqb_neq in E.
      rewrite list_elem_of_In in Hnotin.
      intros [->|H]; [congruence|contradiction].
Qed.

(** An entry after [set] is the one written or one that was there. *)
Lemma mapSet_entries k v m k' v' :
  In (k', v') (mapSet k v m) -> (k' = k /\ v' = v) \/ In (k', v') m.
Proof.
  induction m as [|[k0 v0] m IH]; simpl.
  - intros [[= <- <-]|[]]. now left.
  - destruct (String.eqb k0 k) eqn:E; simpl.
    + apply String.eqb_eq in E. subst k0.
      intros [[= <- <-]|H]; [now left|right; now right].
    + intros [H|H]; [right; now left|].
      destruct (IH H) as [H'|H']; [now left|right; now right].
Qed.

End JsMapFacts.

(** *** Keys *)

Lemma canonical_values (key canonicalSymbol : string) :
  SYMBOL_AGGREGATION_MAP key = Some canonicalSymbol ->
  canonicalSymbol = "ETH" \/ canonicalSymbol = "USDC".
Proof.
  unfold SYMBOL_AGGREGATION_MAP.
  destruct (String.eqb key "WETH"); [intros [= <-]; now left|].
  destruct (String.eqb key "ETH"); [intros [= <-]; now left|].
  destruct (String.eqb key "USDC"); [intros [= <-]; now right|discriminate].
Qed.

Lemma includes_dash (s c : string) : Js.includes "-" (s +:+ "-" +:+ c) = true.
Proof.
  induction s as [|a s IH].
  - reflexivity.
  - change (Js.includes "-" (String a (s +:+ "-" +:+ c)) = true).
    cbn [Js.includes]. rewrite IH. apply orb_true_r.
Qed.

Lemma plainKey_not_canonical (item item' : PortfolioItem) (c : string) :
  canonicalOf item' = Some c -> plainKey item <> c.
Proof.
  intros Hc Heq. pose proof (includes_dash (symbol item) (chain item)) as Hd.
  fold (plainKey item) in Hd. rewrite Heq in Hd.
  destruct (canonical_values _ _ Hc) as [-> | ->]; vm_compute in Hd; discriminate.
Qed.

(** *** Invariants of the fold *)

Section FoldInvariant.
Variable Q : string -> AggregatedPortfolioItem -> Prop.
Hypothesis Q_wrap : forall item, canonicalOf item = None -> Q (plainKey item) (wrap item).
Hypothesis Q_seed : forall item c, canonicalOf item = Some c -> Q c (seed c item).
Hypothesis Q_merge : forall item c existing,
    canonicalOf item = Some c -> Q c existing -> Q c (merge existing item).

Lemma addItem_entries (m : JsMap AggregatedPortfolioItem) (item : PortfolioItem) :
  entriesSatisfy Q m -> entriesSatisfy Q (addItem m item).
Proof.
  intros Hm k a Hin. unfold addItem in Hin. fold (canonicalOf item) in Hin.
  destruct (canonicalOf item) as [c|] eqn:Hc.
  - destruct (mapGet c m) as [existing|] eqn:Hget.
    + apply mapSet_entries in Hin as [[-> ->]|Hin]; [|now apply Hm].
      apply Q_merge; [exact Hc|]. apply Hm. now apply mapGet_in.
    + apply mapSet_entries in Hin as [[-> ->]|Hin]; [|now apply Hm].
      now apply Q_seed.
  - apply mapSet_entries in Hin as [[-> ->]|Hin]; [|now apply Hm].
    now apply Q_wrap.
Qed.

Lemma fold_entries (items : list PortfolioItem) (m : JsMap AggregatedPortfolioItem) :
  entriesSatisfy Q m -> entriesSatisfy Q (fold_left addItem items m).
Proof.
  revert m. induction items as [|item items IH]; intros m Hm; simpl; [exact Hm|].
  apply IH. now apply addItem_entries.
Qed.

Lemma aggregate_entries (items : list PortfolioItem) (a : AggregatedPortfolioItem) :
  In a (aggregatePortfolioItems items) -> exists k, Q k a.
Proof.
  unfold aggregatePortfolioItems, mapValues. rewrite in_map_iff.
  intros [[k a'] [Ha Hin]]. simpl in Ha. subst a'.
  exists k. apply (fold_entries items []); [|exact Hin].
  intros ? ? [].
Qed.

End FoldInvariant.

Lemma addItem_keys_nodup (m : JsMap AggregatedPortfolioItem) (item : PortfolioItem) :
  NoDup (mapKeys m) -> NoDup (mapKeys (addItem m item)).
Proof.
  intros Hnd. unfold addItem.
  destruct (SYMBOL_AGGREGATION_MAP _) as [c|].
  - destruct (mapGet c m); now apply mapSet_keys_nodup.
  - now apply mapSet_keys_nodup.
Qed.

Lemma fold_keys_nodup (items : list PortfolioItem) (m : JsMap AggregatedPortfolioItem) :
  NoDup (mapKeys m) -> NoDup (mapKeys (fold_left addItem items m)).
Proof.
  revert m. induction items as [|item items IH]; intros m Hm; simpl; [exact Hm|].
  apply IH. now apply addItem_keys_nodup.
Qed.

(** *** Sums *)

Lemma fold_sum {A} (f : A -> Qc) (items : list A) (acc : Qc) :
  fold_left (fun sum i => sum + f i) items acc = acc + sumQc (List.map f items).
Proof.
  revert acc. induction items as [|i items IH]; intros acc; simpl.
  - ring.
  - rewrite IH. ring.
Qed.

Lemma totalAmountOf_sum (items : list PortfolioItem) :
  totalAmountOf items = sumAmounts items.
Proof. unfold totalAmountOf, sumAmounts. rewrite fold_sum. ring. Qed.

Lemma totalValueOf_sum (items : list PortfolioItem) :
  totalValueOf items = sumQc (List.map (fun i => price i * amount i) items).
Proof. unfold totalValueOf. rewrite (fold_sum (fun i => price i * amount i)). ring. Qed.

Lemma totalChangeOf_sum (items : list PortfolioItem) :
  totalChangeOf items = sumQc (List.map (fun i => priceChange24h i * amount i) items).
Proof.
  unfold totalChangeOf. rewrite (fold_sum (fun i => priceChange24h i * amount i)). ring.
Qed.

Lemma sumAmounts_snoc (items : list PortfolioItem) (item : PortfolioItem) :
  sumAmounts (items ++ [item]) = sumAmounts items + amount item.
Proof.
  rewrite <- !totalAmountOf_sum. unfold totalAmountOf.
  now rewrite fold_left_app.
Qed.

(** *** The weighted average *)

Lemma averaged_single (a : AggregatedPortfolioItem) (item : PortfolioItem) :
  originalItems a = [item] ->
  agg_amount a = amount item ->
  agg_price a = price item ->
  agg_priceChange24h a = priceChange24h item ->
  averaged a.
Proof.
  intros Ho Ha Hp Hc. split.
  - rewrite Ho, Ha. unfold sumAmounts. simpl. ring.
  - left. exists item. auto.
Qed.

Lemma averaged_merge (existing : AggregatedPortfolioItem) (item : PortfolioItem) :
  averaged existing -> averaged (merge existing item).
Proof.
  intros [Hamount Hshape]. split.
  - cbn [merge agg_amount originalItems]. rewrite sumAmounts_snoc. now rewrite Hamount.
  - right. cbn [merge agg_price agg_priceChange24h originalItems].
    rewrite totalAmountOf_sum, totalValueOf_sum, totalChangeOf_sum.
    split; [|split; reflexivity].
    rewrite length_app. simpl.
    destruct Hshape as [(it & Ho & _)|(Hlen & _)]; [rewrite Ho; simpl|]; lia.
Qed.

Lemma aggregate_averaged (items : list PortfolioItem) (a : AggregatedPortfolioItem) :
  In a (aggregatePortfolioItems items) -> averaged a.
Proof.
  intros Hin.
  destruct (aggregate_entries (fun _ => averaged)) with (items := items) (a := a)
    as [_ H]; try assumption.
  - intros item _. now apply averaged_single with (item := item).
  - intros item c _. now apply averaged_single with (item := item).
  - intros item c existing _. apply averaged_merge.
Qed.

Lemma single_item_average (f : PortfolioItem -> Qc) (it : PortfolioItem) :
  0 < sumAmounts [it] -> weightedAverage f [it] = f it.
Proof.
  unfold weightedAverage, sumAmounts. simpl. intros Hpos.
  assert (Hne : amount it + 0 <> 0).
  { intros E. symmetry in E. revert E. now apply Qclt_not_eq. }
  field. intros E. apply Hne. rewrite E. ring.
Qed.

(** C3 (amended) -- For every input list and every item [a] of the output:
    the amount of [a] is the arithmetic sum of the amounts of its original
    items; when that sum is positive, the price and the 24h change of [a]
    are the amount-weighted averages over the original items (for a group
    of one item as well); a group that went through a merge (two or more
    original items) has price and change 0 when the sum is not positive; a
    group of a single item shows the price and change of that item, also
    when its amount is 0. *)
Theorem weighted_average_invariant
        (items : list PortfolioItem) (a : AggregatedPortfolioItem) :
  In a (aggregatePortfolioItems items) ->
  agg_amount a = sumAmounts (originalItems a)
  /\ (0 < sumAmounts (originalItems a) ->
      agg_price a = weightedAverage price (originalItems a)
      /\ agg_priceChange24h a = weightedAverage priceChange24h (originalItems a))
  /\ ((2 <= length (originalItems a))%nat ->
      sumAmounts (originalItems a) <= 0 ->
      agg_price a = 0 /\ agg_priceChange24h a = 0)
  /\ (forall it, originalItems a = [it] ->
      agg_price a = price it /\ agg_priceChange24h a = priceChange24h it).
Proof.
  intros Hin. destruct (aggregate_averaged items a Hin) as [Hamount Hshape].
  split; [exact Hamount|]. split; [|split].
  - intros Hpos. destruct Hshape as [(it & Ho & Hp & Hc)|(_ & Hp & Hc)].
    + rewrite Ho in *. rewrite !single_item_average by exact Hpos. now split.
    + apply gtb_true in Hpos. rewrite Hpos in Hp, Hc. now split.
  - intros Hlen Hneg. destruct Hshape as [(it & Ho & _)|(_ & Hp & Hc)].
    + rewrite Ho in Hlen. simpl in Hlen. lia.
    + apply gtb_false in Hneg. rewrite Hneg in Hp, Hc. now split.
  - intros it Ho. destruct Hshape as [(it' & Ho' & Hp & Hc)|(Hlen & _)].
    + rewrite Ho in Ho'. injection Ho' as <-. now split.
    + rewrite Ho in Hlen. simpl in Hlen. lia.
Qed.


(** *** Which entries are flagged *)

Lemma classified_wrap (item : PortfolioItem) :
  canonicalOf item = None -> classified (plainKey item) (wrap item).
Proof. intros Hc. right. split; [reflexivity|]. now exists item. Qed.

Lemma classified_seed (item : PortfolioItem) (c : string) :
  canonicalOf item = Some c -> classified c (seed c item).
Proof.
  intros Hc. left. cbn [seed isAggregated agg_symbol originalItems].
  repeat split; [discriminate|]. now constructor.
Qed.

Lemma classified_merge (item : PortfolioItem) (c : string) (existing : AggregatedPortfolioItem) :
  canonicalOf item = Some c -> classified c existing -> classified c (merge existing item).
Proof.
  intros Hc [(Hflag & Hk & Hne & Hall)|(_ & it & _ & _ & Hk)].
  - left. cbn [merge isAggregated agg_symbol originalItems].
    repeat split; try assumption.
    + intros E. now apply app_eq_nil in E as [_ E].
    + apply Forall_app. split; [exact Hall|]. constructor; [|constructor].
      now rewrite <- Hk.
  - exfalso. symmetry in Hk. now apply (plainKey_not_canonical it item c).
Qed.

Lemma fold_classified (items : list PortfolioItem) (m : JsMap AggregatedPortfolioItem) :
  entriesSatisfy classified m -> entriesSatisfy classified (fold_left addItem items m).
Proof.
  apply fold_entries.
  - apply classified_wrap.
  - apply classified_seed.
  - apply classified_merge.
Qed.

Lemma aggregate_classified (items : list PortfolioItem) (a : AggregatedPortfolioItem) :
  In a (aggregatePortfolioItems items) -> exists k, classified k a.
Proof.
  apply aggregate_entries.
  - apply classified_wrap.
  - apply classified_seed.
  - apply classified_merge.
Qed.

Lemma addItem_covers_new (m : JsMap AggregatedPortfolioItem) (item : PortfolioItem) (c : string) :
  entriesSatisfy classified m ->
  canonicalOf item = Some c ->
  covers (addItem m item) item c.
Proof.
  intros Hm Hc. unfold addItem. fold (canonicalOf item). rewrite Hc.
  destruct (mapGet c m) as [existing|] eqn:Hget.
  - exists (merge existing item). rewrite mapGet_set_eq.
    destruct (Hm c existing (mapGet_in _ _ _ Hget))
      as [(Hflag & Hk & _ & _)|(_ & it & _ & _ & Hk)].
    + cbn [merge isAggregated agg_symbol originalItems].
      repeat split; auto. apply in_or_app. right. now left.
    + exfalso. symmetry in Hk. now apply (plainKey_not_canonical it item c).
  - exists (seed c item). rewrite mapGet_set_eq.
    cbn [seed isAggregated agg_symbol originalItems]. repeat split. now left.
Qed.

Lemma addItem_covers_old (m : JsMap AggregatedPortfolioItem)
      (item it : PortfolioItem) (c : string) :
  canonicalOf it = Some c ->
  covers m it c -> covers (addItem m item) it c.
Proof.
  intros Hit (a & Hget & Hflag & Hsym & Hin). unfold addItem. fold (canonicalOf item).
  destruct (canonicalOf item) as [c'|] eqn:Hc.
  - destruct (string_dec c' c) as [->|Hne].
    + rewrite Hget. exists (merge a item). rewrite mapGet_set_eq.
      cbn [merge isAggregated agg_symbol originalItems].
      repeat split; auto. apply in_or_app. now left.
    + exists a. destruct (mapGet c' m); rewrite mapGet_set_ne by exact Hne; auto.
  - exists a. rewrite mapGet_set_ne; [auto|].
    now apply (plainKey_not_canonical item it c).
Qed.

Lemma fold_covers (items : list PortfolioItem) :
  forall (m : JsMap AggregatedPortfolioItem) (it : PortfolioItem) (c : string),
    entriesSatisfy classified m ->
    canonicalOf it = Some c ->
    covers m it c \/ In it items ->
    covers (fold_left addItem items m) it c.
Proof.
  induction items as [|item items IH]; intros m it c Hm Hc Hcase; simpl.
  - destruct Hcase as [H|[]]. exact H.
  - apply IH; [now apply addItem_entries; auto using classified_wrap, classified_seed, classified_merge
              | exact Hc |].
    destruct Hcase as [H|[<-|H]].
    + left. now apply addItem_covers_old.
    + left. now apply addItem_covers_new.
    + now right.
Qed.

(** C8 (amended) -- For every input list: an output item has
    [isAggregated = true] exactly when it is the group of a canonical symbol
    of the alias table.  Every original item of a flagged group maps to the
    group's symbol through the table; an unflagged output item is a single
    wrapped item whose symbol is not in the table; and every input item
    whose symbol is in the table ends up in a flagged group under its
    canonical symbol, whether or not anything was merged with it or its
    symbol was rewritten.  A group of two or more items is always flagged. *)
Theorem isAggregated_characterisation
        (items : list PortfolioItem) (a : AggregatedPortfolioItem)
        (it : PortfolioItem) (c : string) :
  (In a (aggregatePortfolioItems items) ->
     (isAggregated a = true ->
        originalItems a <> []
        /\ Forall (fun i => canonicalOf i = Some (agg_symbol a)) (originalItems a))
     /\ (isAggregated a = false ->
           exists single, canonicalOf single = None /\ a = wrap single)
     /\ ((2 <= length (originalItems a))%nat -> isAggregated a = true))
  /\ (In it items -> canonicalOf it = Some c ->
        exists g, In g (aggregatePortfolioItems items)
                  /\ isAggregated g = true /\ agg_symbol g = c /\ In it (originalItems g)).
Proof.
  split.
  - intros Hin. destruct (aggregate_classified items a Hin) as [k Hk].
    destruct Hk as [(Hflag & _ & Hne & Hall)|(Hflag & single & Hc & Ha & _)];
      repeat split; try congruence; auto.
    + intros _. now exists single.
    + intros Hlen. rewrite Ha in Hlen. simpl in Hlen. lia.
  - intros Hin Hc.
    destruct (fold_covers items [] it c) as (g & Hget & Hflag & Hsym & Hmem).
    + intros ? ? [].
    + exact Hc.
    + now right.
    + exists g. repeat split; try assumption.
      unfold aggregatePortfolioItems, mapValues. apply in_map_iff.
      exists (c, g). split; [reflexivity|]. now apply mapGet_in.
Qed.


(** *** The three branches of the loop body *)

Lemma addItem_seed (m : JsMap AggregatedPortfolioItem) (item : PortfolioItem) (c : string) :
  canonicalOf item = Some c -> mapGet c m = None ->
  addItem m item = mapSet c (seed c item) m.
Proof. intros Hc Hget. unfold addItem. fold (canonicalOf item). now rewrite Hc, Hget. Qed.

Lemma addItem_merge (m : JsMap AggregatedPortfolioItem) (item : PortfolioItem)
      (c : string) (existing : AggregatedPortfolioItem) :
  canonicalOf item = Some c -> mapGet c m = Some existing ->
  addItem m item = mapSet c (merge existing item) m.
Proof. intros Hc Hget. unfold addItem. fold (canonicalOf item). now rewrite Hc, Hget. Qed.

Lemma addItem_plain (m : JsMap AggregatedPortfolioItem) (item : PortfolioItem) :
  canonicalOf item = None ->
  addItem m item = mapSet (plainKey item) (wrap item) m.
Proof. intros Hc. unfold addItem. fold (canonicalOf item). now rewrite Hc. Qed.

(** C2 -- The example of the specification: a WETH item on ethereum and an
    ETH item on arbitrum, one unit each at 2000 with changes 5 and -5, are
    aggregated into exactly one item with symbol ETH, amount 2, price 2000,
    change 0 and chains ethereum and arbitrum.  The fields that the example
    leaves open are arbitrary. *)
Theorem aggregation_example (a1 n1 l1 a2 n2 l2 : string) (d1 d2 : Z) :
  let weth := {| address := a1; name := n1; symbol := "WETH"; decimals := d1;
                 logoURI := l1; price := num 2000; amount := num 1;
                 chain := "ethereum"; priceChange24h := num 5 |} in
  let eth := {| address := a2; name := n2; symbol := "ETH"; decimals := d2;
                logoURI := l2; price := num 2000; amount := num 1;
                chain := "arbitrum"; priceChange24h := num (-5) |} in
  aggregatePortfolioItems [weth; eth] =
  [ {| agg_address := a1; agg_name := "Ethereum"; agg_symbol := "ETH";
       agg_decimals := d1; agg_logoURI := ETH_LOGO;
       agg_price := num 2000; agg_amount := num 2; agg_priceChange24h := num 0;
       chains := ["ethereum"; "arbitrum"];
       originalItems := [weth; eth];
       isAggregated := true |} ].
Proof.
  cbv zeta. unfold aggregatePortfolioItems, aggregationMapOf, mapValues.
  cbn [fold_left].
  rewrite (addItem_seed [] _ "ETH") by reflexivity.
  cbn [mapSet].
  erewrite (addItem_merge _ _ "ETH") by reflexivity.
  cbn [mapSet String.eqb Ascii.eqb Bool.eqb List.map snd].
  unfold merge, seed.
  cbn [agg_amount amount chains originalItems chain app agg_address agg_name
       agg_symbol agg_decimals agg_logoURI isAggregated String.eqb Ascii.eqb Bool.eqb].
  f_equal. f_equal; apply Qc_is_canon; vm_compute; reflexivity.
Qed.

(** *** Items outside the table *)

Lemma mapGet_unique {V} (k : string) (v : V) (m : JsMap V) :
  NoDup (mapKeys m) -> In (k, v) m -> mapGet k m = Some v.
Proof.
  induction m as [|[k0 v0] m IH]; simpl; [intros _ []|].
  intros Hnd. apply NoDup_cons in Hnd as [Hnotin Hnd].
  intros [[= -> ->]|Hin].
  - now rewrite String.eqb_refl.
  - destruct (String.eqb k0 k) eqn:E; [|now apply IH].
    apply String.eqb_eq in E. subst k0. exfalso. apply Hnotin.
    apply list_elem_of_In. unfold mapKeys. apply in_map_iff. now exists (k, v).
Qed.

Lemma wrap_inj (x y : PortfolioItem) : wrap x = wrap y -> x = y.
Proof. destruct x, y. unfold wrap. simpl. intros [=]. now subst. Qed.

(** An item that writes another key leaves the entry alone. *)
Lemma addItem_other_key (m : JsMap AggregatedPortfolioItem) (j x : PortfolioItem) :
  canonicalOf x = None ->
  (canonicalOf j = None -> plainKey j <> plainKey x) ->
  mapGet (plainKey x) (addItem m j) = mapGet (plainKey x) m.
Proof.
  intros Hx Hj. unfold addItem. fold (canonicalOf j).
  destruct (canonicalOf j) as [c|] eqn:Hc.
  - assert (Hne : c <> plainKey x).
    { intros E. symmetry in E. now apply (plainKey_not_canonical x j c). }
    destruct (mapGet c m); now apply mapGet_set_ne.
  - apply mapGet_set_ne. now apply Hj.
Qed.

Lemma fold_other_keys (post : list PortfolioItem) :
  forall (m : JsMap AggregatedPortfolioItem) (x : PortfolioItem),
    canonicalOf x = None ->
    (forall j, In j post -> canonicalOf j = None -> plainKey j <> plainKey x) ->
    mapGet (plainKey x) (fold_left addItem post m) = mapGet (plainKey x) m.
Proof.
  induction post as [|j post IH]; intros m x Hx Hpost; simpl; [reflexivity|].
  rewrite IH; [|exact Hx|intros j' Hj'; apply Hpost; now right].
  apply addItem_other_key; [exact Hx|]. apply Hpost. now left.
Qed.

(** C9 -- Items outside the alias table with the same symbol and the same
    chain: let [y] be such an item and [x] a later one with the same symbol
    and chain, [x] being the last input item whose key [symbol-chain] is
    that of [x].  Then the map holds exactly one entry under that key, the
    entry is [x] alone in wrapped form (its amount is the amount of [x], its
    original items are [[x]]), and nothing of the earlier item [y] reaches
    the output. *)
Theorem duplicate_plain_items_replaced
        (pre mid post : list PortfolioItem) (y x : PortfolioItem) :
  canonicalOf x = None ->
  symbol y = symbol x ->
  chain y = chain x ->
  (forall j, In j post -> canonicalOf j = None -> plainKey j <> plainKey x) ->
  let items := (pre ++ y :: mid ++ x :: post)%list in
  mapGet (plainKey x) (aggregationMapOf items) = Some (wrap x)
  /\ NoDup (mapKeys (aggregationMapOf items))
  /\ (forall a, In (plainKey x, a) (aggregationMapOf items) -> a = wrap x)
  /\ In (wrap x) (aggregatePortfolioItems items)
  /\ agg_amount (wrap x) = amount x
  /\ originalItems (wrap x) = [x]
  /\ (y <> x -> ~ In (wrap y) (aggregatePortfolioItems items)).
Proof.
  intros Hx Hsym Hchain Hpost items.
  assert (Hget : mapGet (plainKey x) (aggregationMapOf items) = Some (wrap x)).
  { unfold items, aggregationMapOf.
    replace (pre ++ y :: mid ++ x :: post)%list
      with ((pre ++ y :: mid) ++ x :: post)%list
      by (rewrite <- app_assoc; reflexivity).
    rewrite fold_left_app. cbn [fold_left].
    rewrite fold_other_keys by assumption.
    rewrite addItem_plain by exact Hx. apply mapGet_set_eq. }
  assert (Hnd : NoDup (mapKeys (aggregationMapOf items))).
  { apply fold_keys_nodup. apply NoDup_nil_2. }
  assert (Hone : forall a, In (plainKey x, a) (aggregationMapOf items) -> a = wrap x).
  { intros a Hin. apply (mapGet_unique _ _ _ Hnd) in Hin. congruence. }
  repeat split; try assumption.
  - unfold aggregatePortfolioItems, mapValues. apply in_map_iff.
    exists (plainKey x, wrap x). split; [reflexivity|]. now apply mapGet_in.
  - intros Hyx Hin.
    unfold aggregatePortfolioItems, mapValues in Hin. apply in_map_iff in Hin.
    destruct Hin as [[k a] [Ha Hin]]. simpl in Ha. subst a.
    assert (Hcl : classified k (wrap y)).
    { apply (fold_classified items []); [intros ? ? []|exact Hin]. }
    destruct Hcl as [(Hflag & _)|(_ & it & _ & Hw & Hk)]; [discriminate|].
    apply wrap_inj in Hw. subst it.
    assert (Hkey : plainKey y = plainKey x) by (unfold plainKey; now rewrite Hsym, Hchain).
    rewrite Hk, Hkey in Hin. apply Hone in Hin. now apply wrap_inj in Hin.
Qed.

(** *** Dust filter and total (components/Portfolio.tsx) *)

Lemma assets_in (aggregated : list AggregatedPortfolioItem) (a : AggregatedPortfolioItem) :
  In a (assets aggregated) <-> In a aggregated /\ DUST < usdValue a.
Proof.
  unfold assets. rewrite filter_In. fold (usdValue a). now rewrite gtb_true.
Qed.

Lemma assets_app (l1 l2 : list AggregatedPortfolioItem) :
  assets (l1 ++ l2) = (assets l1 ++ assets l2)%list.
Proof. apply List.filter_app. Qed.

Lemma assets_dust (a : AggregatedPortfolioItem) (l : list AggregatedPortfolioItem) :
  usdValue a <= DUST -> assets (a :: l) = assets l.
Proof.
  intros Hd. unfold assets. cbn [List.filter]. fold (usdValue a).
  apply gtb_false in Hd. now rewrite Hd.
Qed.

(** C4 -- The dust filter comes before the total: an aggregated item whose
    USD value [price * amount] is at most 0.02 is not among the displayed
    assets; the displayed assets are exactly the aggregated items worth more
    than 0.02; the total balance is the sum of [price * amount] over the
    displayed assets; and a dust item adds nothing to the total. *)
Theorem dust_filter_before_totals
        (aggregated before after : list AggregatedPortfolioItem)
        (a : AggregatedPortfolioItem) :
  (usdValue a <= DUST -> ~ In a (assets aggregated))
  /\ (In a (assets aggregated) <-> In a aggregated /\ DUST < usdValue a)
  /\ totalBalance aggregated = sumQc (List.map usdValue (assets aggregated))
  /\ (usdValue a <= DUST ->
      totalBalance (before ++ a :: after) = totalBalance (before ++ after)).
Proof.
  split; [|split; [|split]].
  - intros Hd Hin. apply assets_in in Hin as [_ Hgt].
    exact (Qcle_not_lt _ _ Hd Hgt).
  - apply assets_in.
  - unfold totalBalance. rewrite (fold_sum usdValue). ring.
  - intros Hd. unfold totalBalance.
    now rewrite !assets_app, assets_dust.
Qed.

End PortfolioFacts.


Lemma weighted_average_invariant_witness :
  let a := Portfolio.seed "USDC" PortfolioExamples.usdc in
  In a (Portfolio.aggregatePortfolioItems [PortfolioExamples.usdc])
  /\ Portfolio.agg_amount a = Portfolio.sumAmounts (Portfolio.originalItems a)
  /\ (forall it, Portfolio.originalItems a = [it] ->
        Portfolio.agg_price a = Portfolio.price it).
Proof.
  cbv zeta.
  assert (Hin : In (Portfolio.seed "USDC" PortfolioExamples.usdc)
                   (Portfolio.aggregatePortfolioItems [PortfolioExamples.usdc]))
    by (left; reflexivity).
  split; [exact Hin|].
  destruct (PortfolioFacts.weighted_average_invariant _ _ Hin) as (Hamount & _ & _ & Hsingle).
  split; [exact Hamount|].
  intros it Hit. now destruct (Hsingle it Hit).
Defined.

(** C3 -- the claim fails on a group of one item with amount 0: the sum of
    the amounts is 0, yet the price shown is the item's 2000 and the change
    its 5, not 0. *)
Lemma weighted_average_counterexample :
  exists a,
    Portfolio.aggregatePortfolioItems [PortfolioExamples.emptyEth] = [a]
    /\ Portfolio.originalItems a = [PortfolioExamples.emptyEth]
    /\ Portfolio.sumAmounts (Portfolio.originalItems a) = Portfolio.num 0
    /\ Portfolio.agg_price a = Portfolio.num 2000
    /\ Portfolio.agg_price a <> Portfolio.num 0
    /\ Portfolio.agg_priceChange24h a <> Portfolio.num 0.
Proof.
  eexists. split; [reflexivity|]. cbn.
  split; [reflexivity|]. split; [apply Qc_is_canon; reflexivity|].
  split; [reflexivity|]. split; intros E; apply (f_equal Qcanon.this) in E;
    vm_compute in E; discriminate.
Qed.

Lemma isAggregated_characterisation_witness :
  let g := Portfolio.seed "USDC" PortfolioExamples.usdc in
  In g (Portfolio.aggregatePortfolioItems [PortfolioExamples.usdc])
  /\ (Portfolio.isAggregated g = true ->
      Forall (fun i => Portfolio.canonicalOf i = Some (Portfolio.agg_symbol g))
             (Portfolio.originalItems g))
  /\ exists g', In g' (Portfolio.aggregatePortfolioItems [PortfolioExamples.usdc])
                /\ Portfolio.isAggregated g' = true
                /\ Portfolio.agg_symbol g' = "USDC"
                /\ In PortfolioExamples.usdc (Portfolio.originalItems g').
Proof.
  cbv zeta.
  assert (Hin : In (Portfolio.seed "USDC" PortfolioExamples.usdc)
                   (Portfolio.aggregatePortfolioItems [PortfolioExamples.usdc]))
    by (left; reflexivity).
  destruct (PortfolioFacts.isAggregated_characterisation
              [PortfolioExamples.usdc] (Portfolio.seed "USDC" PortfolioExamples.usdc)
              PortfolioExamples.usdc "USDC") as [Hout Hcover].
  split; [exact Hin|]. split.
  - intros Hflag. destruct (Hout Hin) as (Htrue & _ & _). now destruct (Htrue Hflag).
  - apply Hcover; [now left|reflexivity].
Defined.

(** C8 -- the claim fails on a single USDC item: its group is flagged
    although it holds one item and the symbol of that item was not
    rewritten. *)
Lemma isAggregated_counterexample :
  exists a,
    Portfolio.aggregatePortfolioItems [PortfolioExamples.usdc] = [a]
    /\ Portfolio.isAggregated a = true
    /\ Portfolio.originalItems a = [PortfolioExamples.usdc]
    /\ Portfolio.agg_symbol a = Portfolio.symbol PortfolioExamples.usdc.
Proof. eexists. repeat split; reflexivity. Qed.

Lemma duplicate_plain_items_replaced_witness :
  let y := PortfolioExamples.bonk 5 in
  let x := PortfolioExamples.bonk 7 in
  Portfolio.mapGet "BONK-solana" (Portfolio.aggregationMapOf [y; x]) = Some (Portfolio.wrap x)
  /\ In (Portfolio.wrap x) (Portfolio.aggregatePortfolioItems [y; x])
  /\ ~ In (Portfolio.wrap y) (Portfolio.aggregatePortfolioItems [y; x]).
Proof.
  cbv zeta.
  destruct (PortfolioFacts.duplicate_plain_items_replaced
              [] [] [] (PortfolioExamples.bonk 5) (PortfolioExamples.bonk 7))
    as (Hget & _ & _ & Hin & _ & _ & Hgone).
  - reflexivity.
  - reflexivity.
  - reflexivity.
  - intros j [].
  - split; [exact Hget|]. split; [exact Hin|]. apply Hgone.
    intros E. apply (f_equal Portfolio.amount) in E.
    apply (f_equal Qcanon.this) in E. vm_compute in E. discriminate.
Defined.

Lemma dust_filter_before_totals_witness :
  let dust := Portfolio.wrap PortfolioExamples.speck in
  let stable := Portfolio.seed "USDC" PortfolioExamples.usdc in
  (Portfolio.usdValue dust <= Portfolio.DUST)%Qc
  /\ ~ In dust (Portfolio.assets [dust; stable])
  /\ Portfolio.totalBalance ([] ++ dust :: [stable]) = Portfolio.totalBalance ([] ++ [stable]).
Proof.
  cbv zeta.
  assert (Hd : (Portfolio.usdValue (Portfolio.wrap PortfolioExamples.speck)
                <= Portfolio.DUST)%Qc) by (vm_compute; discriminate).
  destruct (PortfolioFacts.dust_filter_before_totals
              [Portfolio.wrap PortfolioExamples.speck;
               Portfolio.seed "USDC" PortfolioExamples.usdc]
              [] [Portfolio.seed "USDC" PortfolioExamples.usdc]
              (Portfolio.wrap PortfolioExamples.speck))
    as (Hout & _ & _ & Hsum).
  split; [exact Hd|]. split; [exact (Hout Hd)|exact (Hsum Hd)].
Defined.

(** ** Denylist *)

Module DenylistFacts.
Import Denylist.

(** *** Strings *)

Lemma append_cons (x : ascii) (a b : string) : String x a +:+ b = String x (a +:+ b).
Proof. reflexivity. Qed.

Lemma append_nil (b : string) : "" +:+ b = b.
Proof. reflexivity. Qed.

Lemma append_assoc (a b c : string) : (a +:+ b) +:+ c = a +:+ (b +:+ c).
Proof.
  induction a as [|x a IH]; [reflexivity|].
  rewrite !append_cons. now rewrite IH.
Qed.

Lemma toLowerCase_append (a b : string) :
  Js.toLowerCase (a +:+ b) = Js.toLowerCase a +:+ Js.toLowerCase b.
Proof.
  unfold Js.toLowerCase. induction a as [|x a IH]; [reflexivity|].
  rewrite append_cons. cbn [Js.mapString]. rewrite append_cons. now rewrite IH.
Qed.

Lemma includes_append_r (needle a b : string) :
  Js.includes needle b = true -> Js.includes needle (a +:+ b) = true.
Proof.
  intros Hb. induction a as [|x a IH]; [exact Hb|].
  rewrite append_cons. cbn [Js.includes]. rewrite IH. apply orb_true_r.
Qed.

(** *** The pattern *)

Lemma span_every (p : ascii -> bool) (s : string) (c : ascii) (rest : string) :
  Js.every p s = true -> p c = false ->
  span p (s +:+ String c rest) = (s, String c rest).
Proof.
  intros Hs Hc. induction s as [|x s IH].
  - rewrite append_nil. cbn [span]. now rewrite Hc.
  - cbn [Js.every] in Hs. apply andb_prop in Hs as [Hx Hs].
    rewrite append_cons. cbn [span]. rewrite Hx, (IH Hs). reflexivity.
Qed.

(** A run that is followed by a character outside the class ends where it
    ended before the text was extended. *)
Lemma span_append (p : ascii -> bool) (s : string) (c : ascii) (rest : string) :
  p c = false ->
  span p (s +:+ String c rest) = ((span p s).1, (span p s).2 +:+ String c rest).
Proof.
  intros Hc. induction s as [|x s IH].
  - rewrite append_nil. cbn [span fst snd]. now rewrite Hc.
  - rewrite append_cons. cbn [span]. destruct (p x); [|reflexivity].
    rewrite IH. now destruct (span p s).
Qed.

Lemma literalCI_append (lit s m : string) (r : string) :
  literalCI lit s = Some r -> literalCI lit (s +:+ m) = Some (r +:+ m).
Proof.
  revert s. induction lit as [|a lit IH]; intros s.
  - destruct s; cbn [literalCI]; now intros [= ->].
  - destruct s as [|b s]; [discriminate|].
    rewrite append_cons. cbn [literalCI].
    destruct (Ascii.eqb a (Js.lowerChar b)); [apply IH|discriminate].
Qed.

(** A text that does not begin with [token] does not do so either once a
    [T] is put behind it, unless it is empty. *)
Lemma literalCI_token_straddle (s rest : string) :
  s <> "" ->
  literalCI "token" s = None ->
  literalCI "token" (s +:+ String "T" rest) = None.
Proof.
  intros Hne.
  destruct s as [|c1 s]; [congruence|]. rewrite append_cons. cbn [literalCI].
  destruct (Ascii.eqb "t" (Js.lowerChar c1)); [|reflexivity].
  destruct s as [|c2 s]; [reflexivity|]. rewrite append_cons. cbn [literalCI].
  destruct (Ascii.eqb "o" (Js.lowerChar c2)); [|reflexivity].
  destruct s as [|c3 s]; [reflexivity|]. rewrite append_cons. cbn [literalCI].
  destruct (Ascii.eqb "k" (Js.lowerChar c3)); [|reflexivity].
  destruct s as [|c4 s]; [reflexivity|]. rewrite append_cons. cbn [literalCI].
  destruct (Ascii.eqb "e" (Js.lowerChar c4)); [|reflexivity].
  destruct s as [|c5 s]; [reflexivity|]. rewrite append_cons. cbn [literalCI].
  destruct (Ascii.eqb "n" (Js.lowerChar c5)); [discriminate|reflexivity].
Qed.

Lemma matchHere_append (s rest : string) :
  s <> "" -> matchHere (s +:+ String "T" rest) = matchHere s.
Proof.
  intros Hne. unfold matchHere.
  destruct (literalCI "token" s) as [s1|] eqn:Hlit.
  - rewrite (literalCI_append _ _ _ _ Hlit).
    rewrite (span_append isSpace) by reflexivity.
    destruct (span isSpace s1) as [spaces s2]. cbn [fst snd].
    destruct (Js.truthy spaces); [|reflexivity].
    rewrite (span_append isDigit) by reflexivity.
    destruct (span isDigit s2) as [digits s3]. cbn [fst snd].
    destruct (Js.truthy digits); [|reflexivity].
    destruct s3 as [|c s4]; [reflexivity|].
    rewrite append_cons.
    destruct c as [[] [] [] [] [] [] [] []]; try reflexivity.
    rewrite (span_append isHexClass) by reflexivity.
    now destruct (span isHexClass s4).
  - now rewrite literalCI_token_straddle.
Qed.

(** The leftmost match: a text without a match, put in front of a text
    that begins with [T], does not change what is found. *)
Lemma parse_append (pre rest : string) :
  parseTokenFromError pre = None ->
  parseTokenFromError (pre +:+ String "T" rest) = parseTokenFromError (String "T" rest).
Proof.
  induction pre as [|c pre IH]; [reflexivity|].
  intros Hnone. cbn [parseTokenFromError] in Hnone.
  destruct (matchHere (String c pre)) eqn:Hm; [discriminate|].
  pose proof (matchHere_append (String c pre) rest) as Hsame.
  rewrite Hm in Hsame. rewrite append_cons in *.
  cbn [parseTokenFromError]. rewrite Hsame by discriminate.
  now apply IH.
Qed.

Lemma nonempty_truthy (s : string) : s <> "" -> Js.truthy s = true.
Proof. destruct s; [congruence|reflexivity]. Qed.

(** The message of the upstream API, with the address spelled out. *)
Lemma matchHere_message (addr tail : string) :
  Js.every isHexClass addr = true ->
  addr <> "" ->
  matchHere ("Token 42161-" +:+ addr +:+ " is invalid or in deny list." +:+ tail)
  = Some ("42161", addr).
Proof.
  intros Hhex Hne.
  set (rest := " is invalid or in deny list." +:+ tail).
  assert (Hrest : rest = String " " ("is invalid or in deny list." +:+ tail)) by reflexivity.
  set (X := addr +:+ rest).
  assert (H1 : literalCI "token" ("Token 42161-" +:+ X) = Some (" 42161-" +:+ X))
    by reflexivity.
  assert (H2 : span isSpace (" 42161-" +:+ X) = (" ", "42161-" +:+ X)) by reflexivity.
  assert (H3 : span isDigit ("42161-" +:+ X) = ("42161", String "-" X)) by reflexivity.
  unfold matchHere. rewrite H1, H2. cbn [Js.truthy]. rewrite H3. cbn [Js.truthy].
  unfold X. rewrite Hrest.
  rewrite (span_every isHexClass addr " ") by (exact Hhex || reflexivity).
  now rewrite nonempty_truthy.
Qed.

Lemma isDenylistError_message (pre addr tail : string) :
  isDenylistError
    (pre +:+ "Token 42161-" +:+ addr +:+ " is invalid or in deny list." +:+ tail) = true.
Proof.
  unfold isDenylistError, DENYLIST_MESSAGES. cbn [existsb].
  rewrite !toLowerCase_append.
  rewrite (includes_append_r "deny list"); [reflexivity|].
  apply includes_append_r. apply includes_append_r. reflexivity.
Qed.

(** *** Keys *)

Lemma createKey_case (token token' : string) (chainId chainId' : ChainId) :
  Js.toLowerCase token = Js.toLowerCase token' ->
  showChainId chainId = showChainId chainId' ->
  createKey token chainId = createKey token' chainId'.
Proof. intros Ht Hc. unfold createKey. now rewrite Ht, Hc. Qed.

Lemma length_append (a b : string) :
  String.length (a +:+ b) = (String.length a + String.length b)%nat.
Proof.
  induction a as [|x a IH]; [reflexivity|].
  rewrite append_cons. cbn [String.length]. now rewrite IH.
Qed.

Lemma append_inj_r (a a' s : string) : a +:+ s = a' +:+ s -> a = a'.
Proof.
  revert a'. induction a as [|x a IH]; intros [|x' a'] H.
  - reflexivity.
  - apply (f_equal String.length) in H. rewrite append_nil, append_cons in H.
    cbn [String.length] in H. rewrite length_append in H. lia.
  - apply (f_equal String.length) in H. rewrite append_nil, append_cons in H.
    cbn [String.length] in H. rewrite length_append in H. lia.
  - rewrite !append_cons in H. injection H as -> H. f_equal. now apply IH.
Qed.

(** *** The store *)

(** After [addToDenylist] the entry of the token carries the time of the
    write, unless the sweep that the write may start has removed it. *)
Lemma addToDenylist_store (store : gmap string Z) (now : Z) (random : Qc) (lag : N)
      (token : string) (chainId : ChainId) :
  exists store',
    addToDenylist now random lag token chainId {| db := Some store |} = {| db := Some store' |}
    /\ (forall timestamp, store' !! createKey token chainId = Some timestamp -> timestamp = now)
    /\ (Z.of_N lag < TTL_MS -> store' !! createKey token chainId = Some now).
Proof.
  unfold addToDenylist. cbn [db].
  destruct (Portfolio.gtb _ random).
  - eexists. split; [reflexivity|]. unfold cleanupExpired. split.
    + intros timestamp H. apply map_lookup_filter_Some in H as [H _].
      rewrite lookup_insert_eq in H. congruence.
    + intros Hlag. apply map_lookup_filter_Some. split; [apply lookup_insert_eq|].
      cbn. lia.
  - eexists. split; [reflexivity|]. split.
    + intros timestamp H. rewrite lookup_insert_eq in H. congruence.
    + intros _. apply lookup_insert_eq.
Qed.

Lemma isDenylisted_fresh (store : gmap string Z) (now timestamp : Z)
      (token : string) (chainId : ChainId) :
  store !! createKey token chainId = Some timestamp ->
  now - timestamp <= TTL_MS ->
  isDenylisted now token chainId {| db := Some store |} = (true, {| db := Some store |}).
Proof.
  intros Hget Hage. unfold isDenylisted. cbn [db]. rewrite Hget.
  unfold isExpired.
  assert (H : (TTL_MS <? now - timestamp) = false) by (apply Z.ltb_ge; lia).
  now rewrite H.
Qed.

Lemma isDenylisted_expired (store : gmap string Z) (now : Z)
      (token : string) (chainId : ChainId) :
  (forall timestamp, store !! createKey token chainId = Some timestamp ->
                     TTL_MS < now - timestamp) ->
  fst (isDenylisted now token chainId {| db := Some store |}) = false.
Proof.
  intros Hold. unfold isDenylisted. cbn [db].
  destruct (store !! createKey token chainId) as [timestamp|] eqn:Hget; [|reflexivity].
  unfold isExpired.
  assert (H : (TTL_MS <? now - timestamp) = true) by (apply Z.ltb_lt; now apply Hold).
  now rewrite H.
Qed.

(** C6 -- Denylist round trip.  An error text that contains
    "Token 42161-<address> is invalid or in deny list." (the address spelled
    out in hexadecimal, nothing before it that itself reads as a token
    reference) is recognised by [handlePotentialDenylistError], which writes
    the entry; from then on [isDenylisted] answers [true] for that address
    in any letter case on chain "42161" as long as the entry is at most 24
    hours old, and [false] once strictly more than 24 hours have passed
    since the write. *)
Theorem denylist_round_trip
        (store : gmap string Z) (pre addr post lookup : string)
        (token : option string) (chainId : option ChainId)
        (t0 t1 : Z) (random : Qc) (lag : N) :
  Js.every isHexClass addr = true ->
  addr <> "" ->
  parseTokenFromError pre = None ->
  Js.toLowerCase lookup = Js.toLowerCase addr ->
  let errorMessage :=
    pre +:+ "Token 42161-" +:+ addr +:+ " is invalid or in deny list." +:+ post in
  let handled :=
    handlePotentialDenylistError t0 random lag errorMessage token chainId
                                 {| db := Some store |} in
  fst handled = true
  /\ (Z.of_N lag < TTL_MS -> t1 - t0 <= TTL_MS ->
      fst (isDenylisted t1 lookup (ChainStr "42161") (snd handled)) = true)
  /\ (TTL_MS < t1 - t0 ->
      fst (isDenylisted t1 lookup (ChainStr "42161") (snd handled)) = false).
Proof.
  intros Hhex Hne Hpre Hcase errorMessage handled.
  assert (Hparse : parseTokenFromError errorMessage = Some ("42161", addr)).
  { unfold errorMessage.
    change ("Token 42161-" +:+ addr +:+ " is invalid or in deny list." +:+ post)
      with (String "T" ("oken 42161-" +:+ addr +:+ " is invalid or in deny list." +:+ post)).
    rewrite parse_append by exact Hpre.
    cbn [parseTokenFromError].
    change (String "T" ("oken 42161-" +:+ addr +:+ " is invalid or in deny list." +:+ post))
      with ("Token 42161-" +:+ addr +:+ " is invalid or in deny list." +:+ post).
    now rewrite matchHere_message. }
  assert (Hhandled : handled =
                     (true, addToDenylist t0 random lag addr (ChainStr "42161")
                                          {| db := Some store |})).
  { unfold handled, handlePotentialDenylistError, errorMessage.
    rewrite isDenylistError_message. cbn [negb].
    fold errorMessage. now rewrite Hparse. }
  rewrite Hhandled. cbn [fst snd].
  destruct (addToDenylist_store store t0 random lag addr (ChainStr "42161"))
    as (store' & -> & Honly & Hkept).
  assert (Hkey : createKey lookup (ChainStr "42161") = createKey addr (ChainStr "42161"))
    by now apply createKey_case.
  split; [reflexivity|]. split.
  - intros Hlag Hage. rewrite (isDenylisted_fresh store' t1 t0); [reflexivity| |exact Hage].
    rewrite Hkey. now apply Hkept.
  - intros Hage. apply isDenylisted_expired. intros timestamp Hget.
    rewrite Hkey in Hget. now rewrite (Honly _ Hget).
Qed.






End DenylistFacts.


Lemma denylist_round_trip_witness :
  let handled :=
    Denylist.handlePotentialDenylistError
      1000 (Q2Qc (1 # 2)) 0
      ("LiFi API error: " +:+ "Token 42161-" +:+ DenylistExamples.shouted
         +:+ " is invalid or in deny list." +:+ "")
      None None {| Denylist.db := Some ∅ |} in
  fst handled = true
  /\ fst (Denylist.isDenylisted 2000 DenylistExamples.quiet (Denylist.ChainStr "42161")
            (snd handled)) = true
  /\ fst (Denylist.isDenylisted (1000 + Denylist.TTL_MS + 1) DenylistExamples.quiet
            (Denylist.ChainStr "42161") (snd handled)) = false.
Proof.
  cbv zeta.
  assert (Hhex : Js.every Denylist.isHexClass DenylistExamples.shouted = true) by reflexivity.
  assert (Hne : DenylistExamples.shouted <> "") by discriminate.
  assert (Hpre : Denylist.parseTokenFromError "LiFi API error: " = None) by reflexivity.
  assert (Hcase : Js.toLowerCase DenylistExamples.quiet
                  = Js.toLowerCase DenylistExamples.shouted) by reflexivity.
  destruct (DenylistFacts.denylist_round_trip
              ∅ "LiFi API error: " DenylistExamples.shouted "" DenylistExamples.quiet
              None None 1000 2000 (Q2Qc (1 # 2)) 0 Hhex Hne Hpre Hcase)
    as (Hok & Hfresh & _).
  destruct (DenylistFacts.denylist_round_trip
              ∅ "LiFi API error: " DenylistExamples.shouted "" DenylistExamples.quiet
              None None 1000 (1000 + Denylist.TTL_MS + 1) (Q2Qc (1 # 2)) 0
              Hhex Hne Hpre Hcase)
    as (_ & _ & Hstale).
  split; [exact Hok|]. split.
  - apply Hfresh; [reflexivity|vm_compute; discriminate].
  - apply Hstale. unfold Denylist.TTL_MS. lia.
Defined.


(** ** EVM metadata *)

Module EvmFacts.
Import Evm.

Lemma truthyNumber_some (x : option Z) (d : Z) :
  truthyNumber x = Some d -> x = Some d /\ d <> 0.
Proof.
  destruct x as [v|]; simpl; [|discriminate].
  destruct (Z.eqb_spec v 0); [discriminate|]. intros [= ->]. now split.
Qed.

Lemma completeInline_decimals (m : option InlineMetadata) (n s l : string) (d : Z) :
  completeInline m = Some (n, s, d, l) -> d <> 0.
Proof.
  destruct m as [i|]; simpl; [|discriminate].
  destruct (truthyString (in_name i)); [|discriminate].
  destruct (truthyString (in_symbol i)); [|discriminate].
  destruct (truthyNumber (in_decimals i)) as [d'|] eqn:Hd; [|discriminate].
  destruct (truthyString (in_logo i)); [|discriminate].
  intros [= _ _ <- _]. now apply truthyNumber_some in Hd.
Qed.

Lemma completeInline_zero (i : InlineMetadata) :
  in_decimals i = Some 0 -> completeInline (Some i) = None.
Proof.
  intros Hz. simpl. rewrite Hz. simpl.
  destruct (truthyString (in_name i)); [|reflexivity].
  destruct (truthyString (in_symbol i)); reflexivity.
Qed.

Lemma noZeroDecimals_set (key : string) (metadata : TokenMetadata)
      (cache : gmap string TokenMetadata) :
  md_decimals metadata <> 0 -> noZeroDecimals cache ->
  noZeroDecimals (cacheSet key metadata cache).
Proof.
  intros Hd Hc k md. unfold cacheSet. rewrite lookup_insert.
  case_decide; [intros [= <-]; exact Hd|apply Hc].
Qed.

Section Facts.
Variable getAddress : string -> option string.
Variable getAnyToken : string -> string -> option LifiToken.

Local Abbreviation fallbackLookup := (Evm.fallbackLookup getAddress getAnyToken) (only parsing).
Local Abbreviation enrichTokenMetadata := (Evm.enrichTokenMetadata getAddress getAnyToken) (only parsing).
Local Abbreviation holdingOf := (Evm.holdingOf getAddress getAnyToken) (only parsing).
Local Abbreviation holdingsOf := (Evm.holdingsOf getAddress getAnyToken) (only parsing).

Lemma fallback_accepts (address : string) (net : Network)
      (cache cache' : gmap string TokenMetadata) (metadata : TokenMetadata) :
  fallbackLookup address net cache = (Some metadata, cache') ->
  md_decimals metadata <> 0
  /\ cache' = cacheSet (cacheKey address (chainId net)) metadata cache.
Proof.
  unfold Evm.fallbackLookup.
  destruct (getAddress address) as [checksummed|]; [|discriminate].
  destruct (getAnyToken checksummed (chainId net)) as [lifi|]; [|discriminate].
  destruct (truthyNumber (lifi_decimals lifi)) as [d|] eqn:Hd; [|discriminate].
  intros [= <- <-]. split; [|reflexivity].
  cbn [md_decimals]. now apply truthyNumber_some in Hd.
Qed.

Lemma fallback_rejects_zero (address : string) (net : Network)
      (cache : gmap string TokenMetadata) :
  (forall checksummed lifi,
      getAddress address = Some checksummed ->
      getAnyToken checksummed (chainId net) = Some lifi ->
      lifi_decimals lifi = Some 0) ->
  fallbackLookup address net cache = (None, cache).
Proof.
  intros Hzero. unfold Evm.fallbackLookup.
  destruct (getAddress address) as [checksummed|] eqn:Ha; [|reflexivity].
  destruct (getAnyToken checksummed (chainId net)) as [lifi|] eqn:Hl; [|reflexivity].
  now rewrite (Hzero _ _ eq_refl Hl).
Qed.

Lemma enrich_accepts (token : Token) (net : Network)
      (cache cache' : gmap string TokenMetadata) (metadata : TokenMetadata) :
  noZeroDecimals cache ->
  enrichTokenMetadata token net cache = (Some metadata, cache') ->
  md_decimals metadata <> 0 /\ noZeroDecimals cache'.
Proof.
  intros Hc. unfold Evm.enrichTokenMetadata.
  set (address := Js.orString (tokenAddress token) ZERO_ADDRESS).
  destruct (cacheGet (cacheKey address (chainId net)) cache) as [cached|] eqn:Hget.
  - intros [= <- <-]. split; [now apply (Hc _ _ Hget)|exact Hc].
  - destruct (completeInline (tokenMetadata token)) as [[[[n s] d] l]|] eqn:Hin.
    + intros [= <- <-]. apply completeInline_decimals in Hin.
      split; [exact Hin|]. now apply noZeroDecimals_set.
    + intros H. apply fallback_accepts in H as [Hd ->].
      split; [exact Hd|]. now apply noZeroDecimals_set.
Qed.

Lemma holdingOf_accepts (token : Token) (cache cache' : gmap string TokenMetadata)
      (h : option Holding) :
  noZeroDecimals cache ->
  holdingOf token cache = (h, cache') ->
  noZeroDecimals cache'
  /\ forall x, h = Some x -> md_decimals (h_metadata x) <> 0.
Proof.
  intros Hc. unfold Evm.holdingOf.
  destruct (List.find _ SUPPORTED_NETWORKS) as [net|].
  - destruct (Evm.enrichTokenMetadata getAddress getAnyToken token net cache) as [[md|] c] eqn:He.
    + apply enrich_accepts in He as [Hd Hc']; [|exact Hc].
      intros [= <- <-]. split; [exact Hc'|]. now intros x [= <-].
    + intros [= <- <-]. split; [|discriminate].
      unfold Evm.enrichTokenMetadata in He.
      destruct (cacheGet _ cache); [discriminate|].
      destruct (completeInline _) as [[[[? ?] ?] ?]|]; [discriminate|].
      unfold Evm.fallbackLookup in He.
      destruct (getAddress _); [|now injection He as <-].
      destruct (getAnyToken _ _); [|now injection He as <-].
      destruct (truthyNumber _); [discriminate|now injection He as <-].
  - intros [= <- <-]. split; [exact Hc|discriminate].
Qed.

Lemma holdingsOf_accepts (tokens : list Token) :
  forall (cache cache' : gmap string TokenMetadata) (hs : list Holding),
    noZeroDecimals cache ->
    holdingsOf tokens cache = (hs, cache') ->
    noZeroDecimals cache'
    /\ Forall (fun h => md_decimals (h_metadata h) <> 0) hs.
Proof.
  induction tokens as [|token tokens IH]; intros cache cache' hs Hc; simpl.
  - intros [= <- <-]. split; [exact Hc|constructor].
  - destruct (Evm.holdingOf getAddress getAnyToken token cache) as [h c1] eqn:H1.
    destruct (Evm.holdingsOf getAddress getAnyToken tokens c1) as [hs' c2] eqn:H2.
    apply holdingOf_accepts in H1 as [Hc1 Hh]; [|exact Hc].
    apply IH in H2 as [Hc2 Hall]; [|exact Hc1].
    intros [= <- <-]. split; [exact Hc2|].
    destruct h as [x|]; [constructor; [now apply Hh|exact Hall]|exact Hall].
Qed.

(** C10 -- A token with zero decimals is never accepted by the EVM fetcher.
    With no cached entry for the token, inline metadata whose [decimals] is
    0 counts as incomplete and the individual lookup is made; a lookup
    result whose [decimals] is 0 is rejected; when both say 0 the token
    yields no metadata and no holding.  In general, starting from a cache
    without zero-decimals entries, every holding produced carries metadata
    with non-zero decimals, and the cache stays free of zero-decimals
    entries. *)
Theorem zero_decimals_rejected
        (token : Token) (net : Network) (inline : InlineMetadata)
        (tokens : list Token) (cache : gmap string TokenMetadata) :
  let address := Js.orString (tokenAddress token) ZERO_ADDRESS in
  (cacheGet (cacheKey address (chainId net)) cache = None ->
   tokenMetadata token = Some inline ->
   in_decimals inline = Some 0 ->
   enrichTokenMetadata token net cache = fallbackLookup address net cache)
  /\ ((forall checksummed lifi,
          getAddress address = Some checksummed ->
          getAnyToken checksummed (chainId net) = Some lifi ->
          lifi_decimals lifi = Some 0) ->
      fallbackLookup address net cache = (None, cache))
  /\ (cacheGet (cacheKey address (chainId net)) cache = None ->
      tokenMetadata token = Some inline ->
      in_decimals inline = Some 0 ->
      (forall checksummed lifi,
          getAddress address = Some checksummed ->
          getAnyToken checksummed (chainId net) = Some lifi ->
          lifi_decimals lifi = Some 0) ->
      List.find (fun n => String.eqb (networkId n) (network token)) SUPPORTED_NETWORKS
        = Some net ->
      enrichTokenMetadata token net cache = (None, cache)
      /\ holdingsOf [token] cache = ([], cache))
  /\ (noZeroDecimals cache ->
      noZeroDecimals (snd (holdingsOf tokens cache))
      /\ Forall (fun h => md_decimals (h_metadata h) <> 0) (fst (holdingsOf tokens cache))).
Proof.
  intros address.
  assert (Htrigger :
            cacheGet (cacheKey address (chainId net)) cache = None ->
            tokenMetadata token = Some inline ->
            in_decimals inline = Some 0 ->
            enrichTokenMetadata token net cache = fallbackLookup address net cache).
  { intros Hmiss Hin Hz. unfold Evm.enrichTokenMetadata. fold address.
    rewrite Hmiss, Hin. now rewrite completeInline_zero. }
  split; [exact Htrigger|]. split; [apply fallback_rejects_zero|]. split.
  - intros Hmiss Hin Hz Hlifi Hnet.
    assert (He : enrichTokenMetadata token net cache = (None, cache)).
    { rewrite Htrigger by assumption. now apply fallback_rejects_zero. }
    split; [exact He|].
    cbn [Evm.holdingsOf]. unfold Evm.holdingOf. rewrite Hnet, He. reflexivity.
  - intros Hc.
    destruct (Evm.holdingsOf getAddress getAnyToken tokens cache) as [hs cache'] eqn:H.
    now apply holdingsOf_accepts in H.
Qed.

End Facts.
End EvmFacts.


Lemma zero_decimals_rejected_witness :
  Evm.enrichTokenMetadata EvmExamples.checksum EvmExamples.lookupZero
                          EvmExamples.collectible EvmExamples.mainnet ∅ = (None, ∅)
  /\ Evm.holdingsOf EvmExamples.checksum EvmExamples.lookupZero
                    [EvmExamples.collectible] ∅ = ([], ∅).
Proof.
  destruct (EvmFacts.zero_decimals_rejected
              EvmExamples.checksum EvmExamples.lookupZero
              EvmExamples.collectible EvmExamples.mainnet
              {| Evm.in_symbol := Some "CK"; Evm.in_decimals := Some 0;
                 Evm.in_name := Some "CryptoKitties";
                 Evm.in_logo := Some "https://example.org/ck.png" |}
              [] ∅) as (_ & _ & Hdrop & _).
  apply Hdrop.
  - apply lookup_empty.
  - reflexivity.
  - reflexivity.
  - intros checksummed lifi _ [= <-]. reflexivity.
  - reflexivity.
Defined.

(** ** RateLimiter: retries, backoff and the size of the list *)

Module RateLimiterRunFacts.
Import RateLimiter RateLimiterRuns.

Section Runs.
Variable opts : RateLimiterOptions.
Context {T : Type}.

(** The head of the loop lets the call through, at once or after one sleep,
    and records exactly one timestamp. *)
Lemma reaches_operation (w : World) (r : Z) :
  r <= maxRetries opts ->
  0 < maxRequests opts ->
  Z.of_nat (length (requests w)) <= maxRequests opts ->
  exists k w1,
    (forall f (rs : list (Reply T)),
        drive opts (k + f) rs w (AtLoop r) = drive opts f rs w1 (Awaiting r))
    /\ Z.of_nat (length (requests w1)) <= maxRequests opts
    /\ clock w <= clock w1
    /\ granted w1 = (granted w ++ [clock w1])%list.
Proof.
  intros Hr Hmax Hlen.
  set (reqs := cleanupOldRequests opts (clock w) (requests w)).
  pose proof (RateLimiterFacts.cleanup_length opts (clock w) (requests w)) as Hcl.
  fold reqs in Hcl.
  destruct (Z.ltb_spec (Z.of_nat (length reqs)) (maxRequests opts)) as [Hroom|Hfull].
  - exists 1%nat. eexists. split; [|split; [|split]].
    + intros f rs. simpl. unfold iteration.
      apply Z.leb_le in Hr. rewrite Hr. fold reqs.
      apply Z.ltb_lt in Hroom. rewrite Hroom. reflexivity.
    + simpl. rewrite length_app. simpl. lia.
    + simpl. lia.
    + simpl. reflexivity.
  - destruct (RateLimiterFacts.full_window_step opts (T := T) w r 0 Hr Hmax Hfull)
      as (oldest & Hold & Hin & Hit & Hgone & _).
    cbv zeta in *. fold reqs in Hold, Hin, Hit, Hgone.
    replace (clock w + Z.of_N 0) with (clock w) in * by (simpl; lia).
    set (ms := windowMs opts - (clock w - oldest) + 100) in *.
    assert (Hrec : clock w - oldest < windowMs opts)
      by (apply (RateLimiterFacts.cleanup_in opts (clock w) oldest (requests w)), Hin).
    assert (Hms : (0 <? ms) = true) by (apply Z.ltb_lt; unfold ms; lia).
    rewrite Hms in Hit.
    set (reqs2 := cleanupOldRequests opts (clock w + ms) reqs).
    assert (Hless : (length reqs2 < length reqs)%nat).
    { apply filter_drops_one with (x := oldest); [exact Hin|].
      unfold RateLimiter.recent. apply Z.ltb_ge. unfold ms. lia. }
    exists 3%nat. eexists. split; [|split; [|split]].
    + intros f rs.
      change (3 + f)%nat with (S (S (S f))).
      replace (drive opts (S (S (S f))) rs w (AtLoop r))
        with (drive opts (S (S f)) rs
                {| clock := clock w; requests := reqs; granted := granted w |}
                (Sleeping r (clock w) (Finite ms))).
      2:{ symmetry. cbn [drive stepCall]. rewrite Hit. reflexivity. }
      rewrite RateLimiterFacts.drive_sleeping. cbn [clock requests granted wakeAt].
      replace (Z.max (clock w) (clock w + ms)) with (clock w + ms)
        by (apply Z.ltb_lt in Hms; lia).
      cbn [drive stepCall]. unfold iteration.
      apply Z.leb_le in Hr. rewrite Hr. cbn [clock requests granted].
      fold reqs2.
      assert (Hroom : (Z.of_nat (length reqs2) <? maxRequests opts) = true)
        by (apply Z.ltb_lt; lia).
      rewrite Hroom. reflexivity.
    + cbn [requests]. rewrite length_app. simpl. lia.
    + cbn [clock]. apply Z.ltb_lt in Hms. lia.
    + cbn [clock granted]. reflexivity.
Qed.

(** A rate-limit failure below the budget: the call sleeps for the backoff
    and is back at the head of the loop, one retry further. *)
Lemma retries_after_backoff (w : World) (r : Z) (rp : Reply T) :
  rateLimited rp ->
  r + 1 <= maxRetries opts ->
  exists w2,
    (forall f (rs : list (Reply T)),
        drive opts (2 + f) (rp :: rs) w (Awaiting r) = drive opts f rs w2 (AtLoop (r + 1)))
    /\ requests w2 = requests w
    /\ granted w2 = granted w
    /\ clock w2 = Z.max (clock w + Z.of_N (latency rp))
                        (clock w + Z.of_N (latency rp) + backoffTime opts (r + 1)).
Proof.
  intros (e & He & Hrl) Hr. eexists. split; [|split; [|split]].
  - intros f rs. change (2 + f)%nat with (S (S f)).
    cbn [drive stepCall]. rewrite He. unfold settle. rewrite Hrl.
    assert (Hgt : (r + 1 >? maxRetries opts) = false).
    { rewrite Z.gtb_ltb. apply Z.ltb_ge. lia. }
    rewrite Hgt. cbn [stepCall clock]. rewrite RateLimiterFacts.wakeAt_due. reflexivity.
  - reflexivity.
  - reflexivity.
  - reflexivity.
Qed.

Lemma backoff_nonneg (r : Z) :
  0 <= retryAfterMs opts -> 0 <= backoffTime opts r.
Proof.
  intros H. unfold backoffTime. apply Z.mul_nonneg_nonneg; [exact H|].
  apply Z.pow_nonneg. lia.
Qed.

Lemma backoff_sum (r : Z) (n : nat) :
  0 <= r ->
  retryAfterMs opts * (2 ^ (r + 1 + Z.of_nat n) - 2 ^ (r + 1)) + backoffTime opts (r + 1)
  = retryAfterMs opts * (2 ^ (r + Z.of_nat (S n)) - 2 ^ r).
Proof.
  intros Hr. unfold backoffTime.
  replace (r + 1 - 1) with r by lia.
  replace (r + Z.of_nat (S n)) with (r + 1 + Z.of_nat n) by lia.
  replace (2 ^ (r + 1)) with (2 * 2 ^ r) by (rewrite Z.pow_add_r by lia; lia).
  ring.
Qed.

(** [n] rate-limit failures within the budget: the call is back at the head
    of the loop with [n] retries counted, one timestamp pushed per attempt,
    and the clock advanced by the latencies and the backoffs at least. *)
Lemma through_failures (failures : list (Reply T)) :
  forall (w : World) (r : Z),
    0 <= r ->
    r + Z.of_nat (length failures) <= maxRetries opts ->
    0 < maxRequests opts ->
    Z.of_nat (length (requests w)) <= maxRequests opts ->
    Forall rateLimited failures ->
    exists k w' stamps,
      (forall f (rs : list (Reply T)),
          drive opts (k + f) (failures ++ rs)%list w (AtLoop r)
          = drive opts f rs w' (AtLoop (r + Z.of_nat (length failures))))
      /\ Z.of_nat (length (requests w')) <= maxRequests opts
      /\ granted w' = (granted w ++ stamps)%list
      /\ length stamps = length failures
      /\ clock w + totalLatency failures <= clock w'
      /\ (0 <= retryAfterMs opts ->
          clock w + totalLatency failures
          + retryAfterMs opts * (2 ^ (r + Z.of_nat (length failures)) - 2 ^ r)
          <= clock w').
Proof.
  induction failures as [|rp failures IH]; intros w r Hr Hsum Hmax Hlen Hall.
  - exists 0%nat, w, []. simpl. rewrite Z.add_0_r.
    split; [reflexivity|]. split; [exact Hlen|]. split; [now rewrite app_nil_r|].
    split; [reflexivity|]. split; [lia|]. rewrite Z.sub_diag. lia.
  - inversion Hall as [|? ? Hrp Hrest]; subst.
    simpl length in Hsum.
    destruct (reaches_operation w r) as (k1 & w1 & Hk1 & Hlen1 & Hc1 & Hg1); [lia|lia|lia|].
    destruct (retries_after_backoff w1 r rp Hrp) as (w2 & Hk2 & Hreq2 & Hg2 & Hc2);
      [lia|].
    destruct (IH w2 (r + 1)) as (k3 & w' & stamps & Hk3 & Hlen3 & Hg3 & Hn3 & Hc3 & Hb3);
      try assumption; [lia|lia|rewrite Hreq2; lia|].
    exists (k1 + (2 + k3))%nat, w', (clock w1 :: stamps).
    split; [|split; [|split; [|split; [|split]]]].
    + intros f rs. rewrite <- Nat.add_assoc, Hk1. simpl app.
      rewrite <- Nat.add_assoc, Hk2. rewrite Hk3.
      f_equal. f_equal. simpl length. lia.
    + exact Hlen3.
    + rewrite Hg3, Hg2, Hg1. now rewrite <- app_assoc.
    + simpl. now rewrite Hn3.
    + cbn [totalLatency fold_right]. fold (totalLatency failures). lia.
    + intros Hafter. specialize (Hb3 Hafter).
      pose proof (backoff_sum r (length failures) Hr) as Hb.
      pose proof (backoff_nonneg (r + 1) Hafter) as Hpos.
      cbn [totalLatency fold_right]. fold (totalLatency failures).
      simpl length. lia.
Qed.

(** The attempt that is not a rate-limit failure ends the call. *)
Lemma decisive_reply (w : World) (r : Z) (rp : Reply T) :
  decisive rp ->
  forall f (rs : list (Reply T)),
    drive opts (1 + f) (rp :: rs) w (Awaiting r)
    = (advance (latency rp) w, decided (outcome rp)).
Proof.
  intros Hd f rs. change (1 + f)%nat with (S f). cbn [drive stepCall].
  unfold decisive in Hd. unfold settle.
  destruct (outcome rp) as [v|e]; cbn [decided].
  - now destruct f.
  - rewrite Hd. now destruct f.
Qed.

Lemma decided_run (w : World) (failures : list (Reply T)) (final : Reply T)
      (more : list (Reply T)) :
  0 < maxRequests opts ->
  Z.of_nat (length (requests w)) <= maxRequests opts ->
  Z.of_nat (length failures) <= maxRetries opts ->
  Forall rateLimited failures ->
  decisive final ->
  exists k w',
    (forall f, drive opts (k + f) (failures ++ final :: more)%list w (AtLoop 0)
               = (w', decided (outcome final)))
    /\ length (granted w') = (length (granted w) + length failures + 1)%nat
    /\ (0 <= retryAfterMs opts ->
        clock w + totalLatency (failures ++ [final])
        + retryAfterMs opts * (2 ^ Z.of_nat (length failures) - 1)
        <= clock w').
Proof.
  intros Hmax Hlen Hn Hall Hfinal.
  assert (H0 : 0 <= 0) by lia.
  assert (Hsum : 0 + Z.of_nat (length failures) <= maxRetries opts) by lia.
  destruct (through_failures failures w 0 H0 Hsum Hmax Hlen Hall)
    as (k1 & w1 & stamps & Hk1 & Hlen1 & Hg1 & Hn1 & Hc1 & Hb1).
  destruct (reaches_operation w1 (0 + Z.of_nat (length failures)) Hsum Hmax Hlen1)
    as (k2 & w2 & Hk2 & Hlen2 & Hc2 & Hg2).
  exists (k1 + (k2 + 1))%nat, (advance (latency final) w2). split; [|split].
  - intros f. rewrite <- Nat.add_assoc, Hk1. rewrite <- Nat.add_assoc, Hk2.
    now apply decisive_reply.
  - cbn [advance granted]. rewrite Hg2, Hg1, !length_app, Hn1. simpl. lia.
  - intros Hafter. specialize (Hb1 Hafter).
    assert (Htl : totalLatency (failures ++ [final])
                  = totalLatency failures + Z.of_N (latency final)).
    { clear. induction failures as [|x l IH]; cbn [app totalLatency fold_right];
        [lia|]. fold (totalLatency (l ++ [final])). fold (totalLatency l). lia. }
    rewrite Htl. cbn [advance clock].
    replace (2 ^ (0 + Z.of_nat (length failures)) - 2 ^ 0)
      with (2 ^ Z.of_nat (length failures) - 1) in Hb1
      by (rewrite Z.add_0_l; reflexivity).
    lia.
Qed.

(** X1 -- The first reply that is not a rate-limit failure ends the call:
    after at most [maxRetries] rate-limit failures, a fulfilled operation
    makes [execute] return its value and any other error is thrown at once,
    without a retry.  The call has then pushed exactly one timestamp per
    attempt. *)
Theorem first_decisive_reply_ends_call
        (w : World) (failures : list (Reply T)) (final : Reply T)
        (more : list (Reply T)) :
  0 < maxRequests opts ->
  Z.of_nat (length (requests w)) <= maxRequests opts ->
  Z.of_nat (length failures) <= maxRetries opts ->
  Forall rateLimited failures ->
  decisive final ->
  exists fuel0 w',
    (forall fuel, (fuel0 <= fuel)%nat ->
       execute opts fuel (failures ++ final :: more)%list w = (w', decided (outcome final)))
    /\ length (granted w') = (length (granted w) + length failures + 1)%nat.
Proof.
  intros Hmax Hlen Hn Hall Hfinal.
  destruct (decided_run w failures final more) as (k & w' & Hk & Hg & _); try assumption.
  exists k, w'. split; [|exact Hg].
  intros fuel Hfuel. unfold execute.
  replace fuel with (k + (fuel - k))%nat by lia. apply Hk.
Qed.

(** X2 -- Exponential backoff: a call that went through [n] rate-limit
    failures ends no earlier than [retryAfterMs * (2^n - 1)] milliseconds,
    plus the time its attempts took, after it started, provided the
    backoff delays, of which [retryAfterMs * 2^(n-1)] is the longest, are
    within the range of the timer (at most 2^31 - 1 ms; a longer delay
    makes [setTimeout] fire at once). *)
Theorem backoff_delays_result
        (w : World) (failures : list (Reply T)) (final : Reply T)
        (more : list (Reply T)) :
  0 < maxRequests opts ->
  0 <= retryAfterMs opts ->
  retryAfterMs opts * 2 ^ (Z.of_nat (length failures) - 1) <= 2147483647 ->
  Z.of_nat (length (requests w)) <= maxRequests opts ->
  Z.of_nat (length failures) <= maxRetries opts ->
  Forall rateLimited failures ->
  decisive final ->
  exists fuel0, forall fuel, (fuel0 <= fuel)%nat ->
    clock w + totalLatency (failures ++ [final])
    + retryAfterMs opts * (2 ^ Z.of_nat (length failures) - 1)
    <= clock (fst (execute opts fuel (failures ++ final :: more)%list w)).
Proof.
  intros Hmax Hafter Hrange Hlen Hn Hall Hfinal.
  destruct (decided_run w failures final more) as (k & w' & Hk & _ & Hb); try assumption.
  exists k. intros fuel Hfuel. unfold execute.
  replace fuel with (k + (fuel - k))%nat by lia. rewrite Hk. cbn [fst]. now apply Hb.
Qed.

(** *** The list of timestamps *)

Lemma iteration_tidy (d : N) (w : World) (retries : Z) :
  tidy opts w -> tidy opts (fst (iteration (T := T) opts d w retries)).
Proof.
  intros [Hlen Hin]. unfold iteration.
  destruct (retries <=? maxRetries opts); [|split; assumption].
  set (reqs := cleanupOldRequests opts (clock w) (requests w)).
  assert (Hsub : forall ts, In ts reqs -> In ts (requests w)).
  { intros ts H. unfold reqs, cleanupOldRequests in H. now apply filter_In in H as [H _]. }
  destruct (Z.of_nat (length reqs) <? maxRequests opts) eqn:Hroom.
  - apply Z.ltb_lt in Hroom. split; cbn [fst clock requests granted].
    + rewrite length_app. simpl. lia.
    + intros ts H. apply in_app_or in H as [H|[<-|[]]].
      * destruct (Hin ts (Hsub ts H)) as [Hle Hg]. split; [lia|].
        apply in_or_app. now left.
      * split; [lia|]. apply in_or_app. right. now left.
  - assert (Hfull : tidy opts {| clock := clock w + Z.of_N d; requests := reqs;
                                 granted := granted w |}).
    { split; cbn [clock requests granted].
      - pose proof (RateLimiterFacts.cleanup_length opts (clock w) (requests w)).
        fold reqs in H. lia.
      - intros ts H. destruct (Hin ts (Hsub ts H)) as [Hle Hg]. split; [lia|exact Hg]. }
    destruct (positiveDelay _); exact Hfull.
Qed.

Lemma stepCall_tidy (w : World) (ph : Phase T) (inp : Input T) :
  tidy opts w -> tidy opts (fst (stepCall opts w ph inp)).
Proof.
  intros Ht. destruct ph, inp; simpl; try exact Ht.
  - now apply iteration_tidy.
  - now rewrite RateLimiterFacts.settle_world.
  - destruct (due _ _ _); exact Ht.
Qed.

Lemma run_tidy (evs : list (Event T)) (s : System T) :
  tidy opts (world s) -> tidy opts (world (run opts evs s)).
Proof.
  revert s. induction evs as [|ev evs IH]; intros s Ht; simpl; [exact Ht|].
  apply IH. destruct ev as [d| |i inp]; simpl.
  - destruct Ht as [Hlen Hin]. split; [exact Hlen|].
    intros ts H. destruct (Hin ts H). cbn [advance clock granted]. split; [lia|assumption].
  - exact Ht.
  - destruct (calls s !! i) as [ph|]; [|exact Ht].
    pose proof (stepCall_tidy (world s) ph inp Ht) as H.
    destruct (stepCall opts (world s) ph inp) as [w' ph']. exact H.
Qed.

(** X3 -- Whatever calls run and however they interleave, the list of the
    limiter never holds more than [maxRequests] timestamps, never a
    timestamp later than the clock, and only timestamps of admissions. *)
Theorem requests_list_stays_bounded (evs : list (Event T)) (t0 : Z) :
  let w := world (run opts evs (fresh t0)) in
  (length (requests w) <= Z.to_nat (maxRequests opts))%nat
  /\ (forall ts, In ts (requests w) -> ts <= clock w /\ In ts (granted w)).
Proof.
  apply (run_tidy evs (fresh t0)). split; cbn; [lia|intros ts []].
Qed.

End Runs.
End RateLimiterRunFacts.

Lemma first_decisive_reply_ends_call_witness :
  exists fuel0 w',
    (forall fuel, (fuel0 <= fuel)%nat ->
       RateLimiter.execute RateLimiter.jupiterRateLimiter fuel
         (List.repeat RateLimiterExamples.failing 2
            ++ RateLimiterRunExamples.succeeding :: [RateLimiterExamples.failing])%list
         RateLimiterExamples.idle
       = (w', RateLimiter.Returned "[]"))
    /\ length (RateLimiter.granted w') = 3%nat.
Proof.
  apply (RateLimiterRunFacts.first_decisive_reply_ends_call
           RateLimiter.jupiterRateLimiter RateLimiterExamples.idle
           (List.repeat RateLimiterExamples.failing 2)
           RateLimiterRunExamples.succeeding [RateLimiterExamples.failing]).
  - reflexivity.
  - vm_compute. discriminate.
  - vm_compute. discriminate.
  - repeat constructor; exists RateLimiterExamples.http429; split; reflexivity.
  - exact I.
Defined.

Lemma backoff_delays_result_witness :
  exists fuel0, forall fuel, (fuel0 <= fuel)%nat ->
    6120 <= RateLimiter.clock
              (fst (RateLimiter.execute RateLimiter.jupiterRateLimiter fuel
                      (List.repeat RateLimiterExamples.failing 2
                         ++ [RateLimiterRunExamples.succeeding])%list
                      RateLimiterExamples.idle)).
Proof.
  destruct (RateLimiterRunFacts.backoff_delays_result
              RateLimiter.jupiterRateLimiter RateLimiterExamples.idle
              (List.repeat RateLimiterExamples.failing 2)
              RateLimiterRunExamples.succeeding []) as [fuel0 H].
  - reflexivity.
  - vm_compute. discriminate.
  - vm_compute. discriminate.
  - vm_compute. discriminate.
  - vm_compute. discriminate.
  - repeat constructor; exists RateLimiterExamples.http429; split; reflexivity.
  - exact I.
  - exists fuel0. intros fuel Hfuel. specialize (H fuel Hfuel).
    vm_compute in H |- *. exact H.
Defined.

Lemma requests_list_stays_bounded_witness :
  let w := RateLimiter.world
             (RateLimiter.run RateLimiter.jupiterRateLimiter RateLimiterExamples.boundary
                              (RateLimiter.fresh 0)) in
  (length (RateLimiter.requests w) <= 10)%nat
  /\ (In 1000 (RateLimiter.requests w) ->
      1000 <= RateLimiter.clock w /\ In 1000 (RateLimiter.granted w)).
Proof.
  destruct (RateLimiterRunFacts.requests_list_stays_bounded
              RateLimiter.jupiterRateLimiter RateLimiterExamples.boundary 0)
    as [Hlen Hin].
  split; [exact Hlen|]. apply Hin.
Defined.

(** ** Aggregation: what the groups hold *)

Module PortfolioViewFacts.
Import Portfolio PortfolioView PortfolioFacts.
Open Scope Qc_scope.

(** *** Chains *)

Lemma chainsInclude_In (c : string) (cs : list string) :
  chainsInclude c cs = true <-> In c cs.
Proof.
  unfold chainsInclude. rewrite existsb_exists. split.
  - intros (x & Hx & E). apply String.eqb_eq in E. now subst.
  - intros H. exists c. split; [exact H|apply String.eqb_refl].
Qed.

Lemma chainsExact_single (a : AggregatedPortfolioItem) (item : PortfolioItem) :
  chains a = [chain item] -> originalItems a = [item] -> chainsExact a.
Proof.
  intros Hc Ho. split.
  - rewrite Hc. apply NoDup_singleton.
  - intros c. rewrite Hc, Ho. simpl. split.
    + intros [<-|[]]. exists item. auto.
    + intros (i & [<-|[]] & E). now left.
Qed.

Lemma chainsExact_merge (existing : AggregatedPortfolioItem) (item : PortfolioItem) :
  chainsExact existing -> chainsExact (merge existing item).
Proof.
  intros [Hnd Hiff]. unfold chainsExact. cbn [merge chains originalItems].
  destruct (chainsInclude (chain item) (chains existing)) eqn:Hinc.
  - apply chainsInclude_In in Hinc. split; [exact Hnd|].
    intros c. rewrite Hiff. split.
    + intros (i & Hi & E). exists i. split; [apply in_or_app; now left|exact E].
    + intros (i & Hi & E). apply in_app_or in Hi as [Hi|[<-|[]]].
      * now exists i.
      * subst c. now apply Hiff.
  - assert (Hnot : ~ In (chain item) (chains existing)).
    { intros H. apply chainsInclude_In in H. congruence. }
    split.
    + apply NoDup_app. split; [exact Hnd|]. split; [|apply NoDup_singleton].
      intros x Hx Hx'. apply list_elem_of_In in Hx, Hx'.
      destruct Hx' as [<-|[]]. contradiction.
    + intros c. rewrite in_app_iff, Hiff. split.
      * intros [(i & Hi & E)|[<-|[]]].
        -- exists i. split; [apply in_or_app; now left|exact E].
        -- exists item. split; [apply in_or_app; right; now left|reflexivity].
      * intros (i & Hi & E). apply in_app_or in Hi as [Hi|[<-|[]]].
        -- left. now exists i.
        -- right. now left.
Qed.

(** X4 -- The chains of every aggregated item are exactly the chains of its
    original items, each listed once. *)
Theorem chains_are_those_of_the_items
        (items : list PortfolioItem) (a : AggregatedPortfolioItem) :
  In a (aggregatePortfolioItems items) ->
  NoDup (chains a)
  /\ forall c, In c (chains a) <-> exists i, In i (originalItems a) /\ chain i = c.
Proof.
  intros Hin.
  destruct (aggregate_entries (fun _ => chainsExact)) with (items := items) (a := a)
    as [_ H]; try assumption.
  - intros item _. now apply chainsExact_single with (item := item).
  - intros item c _. now apply chainsExact_single with (item := item).
  - intros item c existing _. apply chainsExact_merge.
Qed.

(** *** Groups *)

Lemma plainKey_not_ETH_USDC (item : PortfolioItem) (c : string) :
  c = "ETH" \/ c = "USDC" -> plainKey item <> c.
Proof.
  intros Hc Heq. pose proof (includes_dash (symbol item) (chain item)) as Hd.
  fold (plainKey item) in Hd. rewrite Heq in Hd.
  destruct Hc as [-> | ->]; vm_compute in Hd; discriminate.
Qed.

Lemma inGroup_own (item : PortfolioItem) (c : string) :
  canonicalOf item = Some c -> inGroup c item = true.
Proof. intros H. unfold inGroup. rewrite H. apply String.eqb_refl. Qed.

Lemma inGroup_other (item : PortfolioItem) (c c' : string) :
  canonicalOf item = Some c -> c <> c' -> inGroup c' item = false.
Proof. intros H Hne. unfold inGroup. rewrite H. now apply String.eqb_neq. Qed.

Lemma inGroup_plain (item : PortfolioItem) (c : string) :
  canonicalOf item = None -> inGroup c item = false.
Proof. intros H. unfold inGroup. now rewrite H. Qed.

Lemma filter_snoc {A} (p : A -> bool) (l : list A) (x : A) :
  List.filter p (l ++ [x]) = (List.filter p l ++ (if p x then [x] else []))%list.
Proof. rewrite List.filter_app. simpl. now destruct (p x). Qed.

Lemma addItem_collects (processed : list PortfolioItem)
      (m : JsMap AggregatedPortfolioItem) (item : PortfolioItem) :
  collects processed m -> collects (processed ++ [item]) (addItem m item).
Proof.
  intros Hm c Hc. specialize (Hm c Hc). rewrite filter_snoc.
  destruct (canonicalOf item) as [c0|] eqn:Hcan.
  - destruct (string_dec c0 c) as [->|Hne].
    + rewrite (inGroup_own _ _ Hcan).
      destruct (mapGet c m) as [existing|] eqn:Hget.
      * rewrite (addItem_merge _ _ _ _ Hcan Hget), mapGet_set_eq.
        cbn [merge originalItems]. now rewrite Hm.
      * rewrite (addItem_seed _ _ _ Hcan Hget), mapGet_set_eq.
        cbn [seed originalItems]. now rewrite Hm.
    + rewrite (inGroup_other _ _ _ Hcan Hne), app_nil_r.
      destruct (mapGet c0 m) as [existing|] eqn:Hget.
      * rewrite (addItem_merge _ _ _ _ Hcan Hget), mapGet_set_ne by exact Hne. exact Hm.
      * rewrite (addItem_seed _ _ _ Hcan Hget), mapGet_set_ne by exact Hne. exact Hm.
  - rewrite (inGroup_plain _ _ Hcan), app_nil_r.
    rewrite (addItem_plain _ _ Hcan), mapGet_set_ne; [exact Hm|].
    now apply plainKey_not_ETH_USDC.
Qed.

Lemma fold_collects (items : list PortfolioItem) :
  forall (processed : list PortfolioItem) (m : JsMap AggregatedPortfolioItem),
    collects processed m ->
    collects (processed ++ items) (fold_left addItem items m).
Proof.
  induction items as [|item items IH]; intros processed m Hm; simpl.
  - now rewrite app_nil_r.
  - replace (processed ++ item :: items)%list with ((processed ++ [item]) ++ items)%list
      by (rewrite <- app_assoc; reflexivity).
    apply IH. now apply addItem_collects.
Qed.

(** An item of the output with its key in the map. *)
Lemma output_entry (items : list PortfolioItem) (a : AggregatedPortfolioItem) :
  In a (aggregatePortfolioItems items) ->
  exists k, mapGet k (aggregationMapOf items) = Some a /\ classified k a.
Proof.
  unfold aggregatePortfolioItems, mapValues. rewrite in_map_iff.
  intros [[k a'] [Ha Hin]]. simpl in Ha. subst a'. exists k. split.
  - apply mapGet_unique; [|exact Hin]. apply fold_keys_nodup. apply NoDup_nil_2.
  - apply (fold_classified items []); [intros ? ? []|exact Hin].
Qed.

Lemma flagged_symbol (k : string) (a : AggregatedPortfolioItem) :
  classified k a -> isAggregated a = true ->
  k = agg_symbol a /\ (agg_symbol a = "ETH" \/ agg_symbol a = "USDC").
Proof.
  intros [(_ & Hk & Hne & Hall)|(Hf & _)] Hflag; [|congruence].
  split; [exact Hk|].
  destruct (originalItems a) as [|i rest]; [congruence|].
  inversion Hall as [|? ? Hi _]; subst. now apply canonical_values in Hi.
Qed.

(** X5 -- A group of a canonical symbol holds exactly the input items whose
    symbol maps to it, in the order of the input, and its amount is the sum
    of their amounts: nothing is lost and nothing is counted twice. *)
Theorem group_collects_its_items
        (items : list PortfolioItem) (a : AggregatedPortfolioItem) :
  In a (aggregatePortfolioItems items) ->
  isAggregated a = true ->
  originalItems a = List.filter (inGroup (agg_symbol a)) items
  /\ agg_amount a = sumAmounts (List.filter (inGroup (agg_symbol a)) items).
Proof.
  intros Hin Hflag.
  destruct (output_entry items a Hin) as (k & Hget & Hcl).
  destruct (flagged_symbol k a Hcl Hflag) as [-> Hcan].
  assert (Ho : originalItems a = List.filter (inGroup (agg_symbol a)) items).
  { pose proof (fold_collects items [] []) as Hc. simpl in Hc.
    assert (H0 : collects [] []) by (intros c _; reflexivity).
    specialize (Hc H0 (agg_symbol a) Hcan).
    unfold aggregationMapOf in Hget. now rewrite Hget in Hc. }
  split; [exact Ho|].
  rewrite <- Ho. now destruct (aggregate_averaged items a Hin).
Qed.

(** *** Keys *)

Lemma addItem_key (m : JsMap AggregatedPortfolioItem) (item : PortfolioItem) :
  exists v, addItem m item = mapSet (keyOf item) v m.
Proof.
  unfold keyOf. destruct (canonicalOf item) as [c|] eqn:Hcan.
  - destruct (mapGet c m) as [existing|] eqn:Hget.
    + eexists. apply (addItem_merge _ _ _ _ Hcan Hget).
    + eexists. apply (addItem_seed _ _ _ Hcan Hget).
  - eexists. apply (addItem_plain _ _ Hcan).
Qed.

Lemma mapSet_keys_extend {V} (k : string) (v : V) (m : JsMap V) :
  exists extra, mapKeys (mapSet k v m) = (mapKeys m ++ extra)%list
                /\ (length extra <= 1)%nat.
Proof.
  induction m as [|[k0 v0] m (extra & IH & Hlen)]; simpl.
  - exists [k]. split; [reflexivity|simpl; lia].
  - destruct (String.eqb k0 k); simpl.
    + exists []. split; [now rewrite app_nil_r|simpl; lia].
    + exists extra. split; [now rewrite IH|exact Hlen].
Qed.

Lemma fold_keys_extend (more : list PortfolioItem) :
  forall m : JsMap AggregatedPortfolioItem,
    exists extra,
      mapKeys (fold_left addItem more m) = (mapKeys m ++ extra)%list
      /\ (length extra <= length more)%nat.
Proof.
  induction more as [|item more IH]; intros m; simpl.
  - exists []. split; [now rewrite app_nil_r|simpl; lia].
  - destruct (addItem_key m item) as [v Hv].
    destruct (mapSet_keys_extend (keyOf item) v m) as (e1 & He1 & Hl1).
    destruct (IH (addItem m item)) as (e2 & He2 & Hl2).
    exists (e1 ++ e2)%list. split.
    + rewrite He2, Hv, He1. now rewrite <- app_assoc.
    + rewrite length_app. lia.
Qed.



(** X8 -- The output has at most one group per canonical symbol and never
    more items than the input. *)
Theorem one_group_per_symbol
        (items : list PortfolioItem) (a b : AggregatedPortfolioItem) :
  (In a (aggregatePortfolioItems items) ->
   In b (aggregatePortfolioItems items) ->
   isAggregated a = true -> isAggregated b = true ->
   agg_symbol a = agg_symbol b -> a = b)
  /\ (length (aggregatePortfolioItems items) <= length items)%nat.
Proof.
  split.
  - intros Ha Hb Hfa Hfb Hsym.
    destruct (output_entry items a Ha) as (ka & Hga & Hca).
    destruct (output_entry items b Hb) as (kb & Hgb & Hcb).
    destruct (flagged_symbol ka a Hca Hfa) as [-> _].
    destruct (flagged_symbol kb b Hcb Hfb) as [-> _].
    rewrite Hsym in Hga. congruence.
  - unfold aggregatePortfolioItems, mapValues, aggregationMapOf.
    rewrite length_map.
    destruct (fold_keys_extend items []) as (extra & H & Hlen).
    apply (f_equal (@length string)) in H. unfold mapKeys in H.
    rewrite length_map in H. simpl in H. lia.
Qed.

(** *** Display fields *)

Lemma seeded_merge (existing : AggregatedPortfolioItem) (item : PortfolioItem) :
  seededByFirst existing -> seededByFirst (merge existing item).
Proof.
  intros (first & rest & Ho & Haddr & Hdec & Hflag & Hplain).
  exists first, (rest ++ [item])%list.
  cbn [merge originalItems agg_address agg_decimals isAggregated agg_name
             agg_logoURI agg_symbol].
  rewrite Ho. repeat split; auto; try (now apply Hflag); now apply Hplain.
Qed.

(** X9 -- The display fields of every output item: address and decimals
    are those of the first of its original items; an item flagged as a
    group is named after its own symbol ("Ethereum" when the symbol is
    ETH), not after any of its original items, and its logo is the fixed
    ETH logo when the symbol is ETH and the first item's logo otherwise;
    an item that is not flagged has the name, logo and symbol of its
    first original item. *)
Theorem display_fields_of_a_group
        (items : list PortfolioItem) (a : AggregatedPortfolioItem) :
  In a (aggregatePortfolioItems items) -> seededByFirst a.
Proof.
  intros Hin.
  destruct (aggregate_entries (fun _ => seededByFirst)) with (items := items) (a := a)
    as [_ H]; try assumption.
  - intros item _. exists item, []. cbn. repeat split; congruence.
  - intros item c _. exists item, []. cbn. repeat split; congruence.
  - intros item c existing _. apply seeded_merge.
Qed.

(** *** The summary line *)






End PortfolioViewFacts.

Lemma usdc_alone :
  In (Portfolio.seed "USDC" PortfolioExamples.usdc)
     (Portfolio.aggregatePortfolioItems [PortfolioExamples.usdc]).
Proof. left. reflexivity. Qed.

Lemma chains_are_those_of_the_items_witness :
  NoDup (Portfolio.chains (Portfolio.seed "USDC" PortfolioExamples.usdc))
  /\ (In "solana" (Portfolio.chains (Portfolio.seed "USDC" PortfolioExamples.usdc))
      <-> exists i, In i (Portfolio.originalItems (Portfolio.seed "USDC" PortfolioExamples.usdc))
                    /\ Portfolio.chain i = "solana").
Proof.
  destruct (PortfolioViewFacts.chains_are_those_of_the_items
              [PortfolioExamples.usdc] (Portfolio.seed "USDC" PortfolioExamples.usdc)
              usdc_alone) as [Hnd Hiff].
  split; [exact Hnd|apply Hiff].
Defined.

Lemma group_collects_its_items_witness :
  Portfolio.originalItems (Portfolio.seed "USDC" PortfolioExamples.usdc)
  = List.filter (PortfolioView.inGroup "USDC") [PortfolioExamples.usdc]
  /\ Portfolio.agg_amount (Portfolio.seed "USDC" PortfolioExamples.usdc)
     = Portfolio.sumAmounts (List.filter (PortfolioView.inGroup "USDC") [PortfolioExamples.usdc]).
Proof.
  apply (PortfolioViewFacts.group_collects_its_items
           [PortfolioExamples.usdc] (Portfolio.seed "USDC" PortfolioExamples.usdc)
           usdc_alone).
  reflexivity.
Defined.


Lemma one_group_per_symbol_witness :
  (Portfolio.agg_symbol (Portfolio.seed "USDC" PortfolioExamples.usdc)
   = Portfolio.agg_symbol (Portfolio.seed "USDC" PortfolioExamples.usdc) ->
   Portfolio.seed "USDC" PortfolioExamples.usdc = Portfolio.seed "USDC" PortfolioExamples.usdc)
  /\ (length (Portfolio.aggregatePortfolioItems
                [PortfolioExamples.bonk 5; PortfolioExamples.bonk 7]) <= 2)%nat.
Proof.
  split.
  - destruct (PortfolioViewFacts.one_group_per_symbol
                [PortfolioExamples.usdc]
                (Portfolio.seed "USDC" PortfolioExamples.usdc)
                (Portfolio.seed "USDC" PortfolioExamples.usdc)) as [H _].
    apply H; (exact usdc_alone || reflexivity).
  - apply (PortfolioViewFacts.one_group_per_symbol
             [PortfolioExamples.bonk 5; PortfolioExamples.bonk 7]
             (Portfolio.seed "USDC" PortfolioExamples.usdc)
             (Portfolio.seed "USDC" PortfolioExamples.usdc)).
Defined.

Lemma display_fields_of_a_group_witness :
  PortfolioView.seededByFirst (Portfolio.seed "USDC" PortfolioExamples.usdc)
  /\ Portfolio.agg_name (Portfolio.seed "USDC" PortfolioExamples.usdc) = "USDC".
Proof.
  split; [|reflexivity].
  apply (PortfolioViewFacts.display_fields_of_a_group [PortfolioExamples.usdc]).
  exact usdc_alone.
Defined.


(* ===================================================================== *)
(** ** DenylistCache: parsing, keys and the life of an entry              *)
(* ===================================================================== *)

Module DenylistOpsFacts.
Import Denylist DenylistOps DenylistFacts.

(** *** Character classes and letter case *)

Lemma lowerChar_idem (c : ascii) : Js.lowerChar (Js.lowerChar c) = Js.lowerChar c.
Proof. destruct c as [[] [] [] [] [] [] [] []]; reflexivity. Qed.

Lemma isSpace_lower (c : ascii) : isSpace c = isSpace (Js.lowerChar c).
Proof. destruct c as [[] [] [] [] [] [] [] []]; reflexivity. Qed.

Lemma isDigit_lower (c : ascii) : isDigit c = isDigit (Js.lowerChar c).
Proof. destruct c as [[] [] [] [] [] [] [] []]; reflexivity. Qed.

Lemma isHexClass_lower (c : ascii) : isHexClass c = isHexClass (Js.lowerChar c).
Proof. destruct c as [[] [] [] [] [] [] [] []]; reflexivity. Qed.

Lemma isDigit_fixed (c : ascii) : isDigit c = true -> Js.lowerChar c = c.
Proof. destruct c as [[] [] [] [] [] [] [] []]; (reflexivity || discriminate). Qed.

Lemma dash_not_digit : isDigit "-" = false.
Proof. reflexivity. Qed.

Lemma digits_fixed (s : string) : Js.every isDigit s = true -> Js.toLowerCase s = s.
Proof.
  induction s as [|c s IH]; intros H; [reflexivity|].
  simpl in H. apply andb_prop in H as [Hc Hs].
  change (String (Js.lowerChar c) (Js.toLowerCase s) = String c s).
  now rewrite (isDigit_fixed _ Hc), (IH Hs).
Qed.

Lemma lower_cons (a b : ascii) (s s' : string) :
  Js.toLowerCase (String a s) = Js.toLowerCase (String b s') ->
  Js.lowerChar a = Js.lowerChar b /\ Js.toLowerCase s = Js.toLowerCase s'.
Proof. intros H. now injection H. Qed.

Lemma lower_nil (s : string) : Js.toLowerCase s = "" -> s = "".
Proof. now destruct s. Qed.

Lemma lower_truthy (s s' : string) :
  Js.toLowerCase s = Js.toLowerCase s' -> Js.truthy s = Js.truthy s'.
Proof. destruct s, s'; simpl; intros H; (reflexivity || discriminate). Qed.

(** *** What a successful match looks like *)

Lemma span_spec (p : ascii -> bool) (s : string) :
  s = (span p s).1 +:+ (span p s).2
  /\ Js.every p (span p s).1 = true
  /\ match (span p s).2 with
     | EmptyString => True
     | String c _ => p c = false
     end.
Proof.
  induction s as [|c s IH]; [now repeat split|].
  simpl. destruct (p c) eqn:Hc.
  - destruct (span p s) as [taken rest]. simpl in *.
    destruct IH as (Hs & He & Hr). repeat split.
    + rewrite append_cons. now f_equal.
    + now rewrite Hc, He.
    + exact Hr.
  - simpl. now repeat split.
Qed.

Lemma literalCI_spec (lit s r : string) :
  literalCI lit s = Some r ->
  exists w, s = w +:+ r /\ Js.toLowerCase w = lit.
Proof.
  revert s. induction lit as [|a lit IH]; intros s H.
  - exists "". simpl in H. injection H as <-. now split.
  - destruct s as [|b s]; [discriminate|]. simpl in H.
    destruct (Ascii.eqb a (Js.lowerChar b)) eqn:Hab; [|discriminate].
    apply Ascii.eqb_eq in Hab. destruct (IH _ H) as (w & -> & Hw).
    exists (String b w). split; [now rewrite append_cons|].
    change (String (Js.lowerChar b) (Js.toLowerCase w) = String a lit).
    now rewrite Hw, Hab.
Qed.

Lemma truthy_nonempty (s : string) : Js.truthy s = true -> s <> "".
Proof. now destruct s. Qed.

Lemma matchHere_spec (s chainId token : string) :
  matchHere s = Some (chainId, token) -> matched s chainId token.
Proof.
  unfold matchHere. intros H.
  destruct (literalCI "token" s) as [s1|] eqn:Hlit; [|discriminate].
  destruct (literalCI_spec _ _ _ Hlit) as (word & -> & Hword).
  pose proof (span_spec isSpace s1) as (Hs1 & Hsp & _).
  destruct (span isSpace s1) as [spaces s2]. simpl in *.
  destruct (Js.truthy spaces) eqn:Htsp; [|discriminate].
  pose proof (span_spec isDigit s2) as (Hs2 & Hdg & _).
  destruct (span isDigit s2) as [digits s3]. simpl in *.
  destruct (Js.truthy digits) eqn:Htdg; [|discriminate].
  destruct s3 as [|dash s4]; [discriminate|].
  destruct (Ascii.eqb_spec dash "-") as [->|Hne].
  2:{ destruct dash as [[] [] [] [] [] [] [] []]; (discriminate || now elim Hne). }
  pose proof (span_spec isHexClass s4) as (Hs4 & Hhx & Hpost).
  destruct (span isHexClass s4) as [hex post]. simpl in *.
  destruct (Js.truthy hex) eqn:Hthx; [|discriminate].
  injection H as <- <-.
  exists word, spaces, post. repeat split; auto using truthy_nonempty.
  rewrite Hs1, Hs2, Hs4. now rewrite !append_cons, !append_nil.
Qed.

(** X11 -- parseTokenFromError is sound: the two groups it returns stand
    in the message, behind the word [token] in any letter case and at
    least one white-space character, as a non-empty run of decimal digits
    (the chain id), a dash and a non-empty, maximal run of characters of
    [[a-fA-F0-9x]] (the token); and no match starts further left. *)
Theorem parsed_token_is_in_the_message (errorMessage chainId token : string) :
  parseTokenFromError errorMessage = Some (chainId, token) ->
  exists pre s,
    errorMessage = pre +:+ s
    /\ matched s chainId token
    /\ (forall a b, errorMessage = a +:+ b ->
                    (String.length a < String.length pre)%nat ->
                    matchHere b = None).
Proof.
  induction errorMessage as [|x rest IH]; intros H.
  - simpl in H. discriminate.
  - simpl in H. destruct (matchHere (String x rest)) as [groups|] eqn:Hm.
    + injection H as ->. exists "", (String x rest).
      split; [reflexivity|]. split; [now apply matchHere_spec|].
      intros a b _ Hlt. simpl in Hlt. lia.
    + destruct (IH H) as (pre & s & -> & Hmatched & Hleft).
      exists (String x pre), s. split; [now rewrite append_cons|].
      split; [exact Hmatched|].
      intros a b Hab Hlt. destruct a as [|y a].
      * rewrite append_nil in Hab. now subst b.
      * rewrite append_cons in Hab. injection Hab as _ Hab.
        apply (Hleft a b Hab). simpl in Hlt. lia.
Qed.

(** *** Letter case of the message *)

Lemma literalCI_lower (lit s s' : string) :
  Js.toLowerCase s = Js.toLowerCase s' ->
  match literalCI lit s, literalCI lit s' with
  | Some r, Some r' => Js.toLowerCase r = Js.toLowerCase r'
  | None, None => True
  | _, _ => False
  end.
Proof.
  revert s s'. induction lit as [|a lit IH]; intros s s' H; [exact H|].
  destruct s as [|b s], s' as [|b' s']; try discriminate; [exact I|].
  apply lower_cons in H as [Hb Hs]. simpl. rewrite Hb.
  destruct (Ascii.eqb a (Js.lowerChar b')); [now apply IH|exact I].
Qed.

Lemma span_lower (p : ascii -> bool) (s s' : string) :
  (forall c, p c = p (Js.lowerChar c)) ->
  Js.toLowerCase s = Js.toLowerCase s' ->
  Js.toLowerCase (span p s).1 = Js.toLowerCase (span p s').1
  /\ Js.toLowerCase (span p s).2 = Js.toLowerCase (span p s').2.
Proof.
  intros Hp. revert s'. induction s as [|c s IH]; intros s' H.
  - symmetry in H. apply lower_nil in H. subst s'. now split.
  - destruct s' as [|c' s']; [discriminate|].
    pose proof H as H0. apply lower_cons in H as [Hc Hs].
    simpl. rewrite (Hp c), (Hp c'), Hc.
    destruct (p (Js.lowerChar c')).
    + specialize (IH _ Hs). destruct (span p s) as [a b], (span p s') as [a' b'].
      simpl in *. destruct IH as [Ha Hb]. split; [|exact Hb].
      change (String (Js.lowerChar c) (Js.toLowerCase a)
              = String (Js.lowerChar c') (Js.toLowerCase a')).
      now rewrite Hc, Ha.
    + simpl. split; [reflexivity|exact H0].
Qed.

Lemma dash_case {A : Type} (d : ascii) (x y : A) :
  match d with "-"%char => x | _ => y end = if Ascii.eqb d "-" then x else y.
Proof. destruct d as [[] [] [] [] [] [] [] []]; reflexivity. Qed.

Lemma dash_lower (d : ascii) : Ascii.eqb d "-" = Ascii.eqb (Js.lowerChar d) "-".
Proof. destruct d as [[] [] [] [] [] [] [] []]; reflexivity. Qed.

Lemma matchHere_lower (s s' : string) :
  Js.toLowerCase s = Js.toLowerCase s' ->
  sameGroups (matchHere s) (matchHere s').
Proof.
  intros H. unfold matchHere.
  pose proof (literalCI_lower "token" s s' H) as Hlit.
  destruct (literalCI "token" s) as [s1|], (literalCI "token" s') as [s1'|];
    try (exact I || now elim Hlit).
  pose proof (span_lower isSpace s1 s1' isSpace_lower Hlit) as [Hsp Hs2].
  destruct (span isSpace s1) as [spaces s2], (span isSpace s1') as [spaces' s2'].
  simpl in *. rewrite (lower_truthy _ _ Hsp).
  destruct (Js.truthy spaces'); [|exact I].
  pose proof (span_lower isDigit s2 s2' isDigit_lower Hs2) as [Hdg Hs3].
  destruct (span isDigit s2) as [digits s3], (span isDigit s2') as [digits' s3'].
  simpl in *. rewrite (lower_truthy _ _ Hdg).
  destruct (Js.truthy digits'); [|exact I].
  destruct s3 as [|d s4], s3' as [|d' s4']; try discriminate; [exact I|].
  apply lower_cons in Hs3 as [Hd Hs4].
  rewrite !dash_case, (dash_lower d), (dash_lower d'), Hd.
  destruct (Ascii.eqb (Js.lowerChar d') "-"); [|exact I].
  pose proof (span_lower isHexClass s4 s4' isHexClass_lower Hs4) as [Hhx _].
  destruct (span isHexClass s4) as [hex post], (span isHexClass s4') as [hex' post'].
  simpl in *. rewrite (lower_truthy _ _ Hhx).
  destruct (Js.truthy hex'); [now split|exact I].
Qed.

Lemma parse_lower (s s' : string) :
  Js.toLowerCase s = Js.toLowerCase s' ->
  sameGroups (parseTokenFromError s) (parseTokenFromError s').
Proof.
  revert s'. induction s as [|c s IH]; intros s' H.
  - symmetry in H. apply lower_nil in H. now subst s'.
  - destruct s' as [|c' s']; [discriminate|].
    pose proof (matchHere_lower _ _ H) as Hm. simpl.
    destruct (matchHere (String c s)) as [[a b]|],
             (matchHere (String c' s')) as [[a' b']|].
    + exact Hm.
    + now elim Hm.
    + now elim Hm.
    + apply lower_cons in H as [_ H]. now apply IH.
Qed.

Lemma parse_digits (s chainId token : string) :
  parseTokenFromError s = Some (chainId, token) -> Js.every isDigit chainId = true.
Proof.
  induction s as [|c s IH]; intros H; [discriminate|].
  simpl in H. destruct (matchHere (String c s)) as [groups|] eqn:Hm.
  - injection H as ->. now destruct (matchHere_spec _ _ _ Hm) as (? & ? & ? & ? & ? & ? & ? & ? & ? & ?).
  - now apply IH.
Qed.

Lemma addToDenylist_key (now : Z) (random : Qc) (lag : N)
      (token token' : string) (chainId chainId' : ChainId) (cache : DenylistCache) :
  createKey token chainId = createKey token' chainId' ->
  addToDenylist now random lag token chainId cache
  = addToDenylist now random lag token' chainId' cache.
Proof. intros H. unfold addToDenylist. now rewrite H. Qed.

Lemma isDenylisted_key (now : Z) (token token' : string) (chainId chainId' : ChainId)
      (cache : DenylistCache) :
  createKey token chainId = createKey token' chainId' ->
  isDenylisted now token chainId cache = isDenylisted now token' chainId' cache.
Proof. intros H. unfold isDenylisted, removeFromDenylist. now rewrite H. Qed.

(** X12 -- the handling of an error is blind to the case of the letters A
    to Z in the message: two messages that differ in nothing but the case
    of such letters are recognised alike and leave the cache in the
    same state, with the same return value, although the token taken from
    the message keeps the case it was written in. *)
Theorem handling_ignores_ascii_letter_case
        (now : Z) (random : Qc) (lag : N) (errorMessage errorMessage' : string)
        (token : option string) (chainId : option ChainId) (cache : DenylistCache) :
  sameUpToAsciiCase errorMessage errorMessage' ->
  isDenylistError errorMessage = isDenylistError errorMessage'
  /\ handlePotentialDenylistError now random lag errorMessage token chainId cache
     = handlePotentialDenylistError now random lag errorMessage' token chainId cache.
Proof.
  intros H. change (Js.toLowerCase errorMessage = Js.toLowerCase errorMessage') in H.
  assert (He : isDenylistError errorMessage = isDenylistError errorMessage')
    by (unfold isDenylistError; now rewrite H).
  split; [exact He|].
  unfold handlePotentialDenylistError. rewrite He.
  destruct (negb (isDenylistError errorMessage')); [reflexivity|].
  pose proof (parse_lower _ _ H) as Hp.
  destruct (parseTokenFromError errorMessage) as [[c t]|] eqn:Hl,
           (parseTokenFromError errorMessage') as [[c' t']|] eqn:Hr;
    try now elim Hp.
  destruct Hp as [Hc Ht].
  rewrite (digits_fixed _ (parse_digits _ _ _ Hl)),
          (digits_fixed _ (parse_digits _ _ _ Hr)) in Hc. subst c'.
  f_equal. apply addToDenylist_key. now apply createKey_case.
Qed.

(** *** Verdicts and entries *)

Lemma verdict_entry (now : Z) (token : string) (chainId : ChainId) (cache : DenylistCache) :
  fst (isDenylisted now token chainId cache)
  = match entryOf token chainId cache with
    | Some timestamp => negb (isExpired now timestamp)
    | None => false
    end.
Proof.
  unfold isDenylisted, entryOf. destruct (db cache) as [store|]; [|reflexivity].
  destruct (store !! createKey token chainId) as [timestamp|]; [|reflexivity].
  now destruct (isExpired now timestamp).
Qed.

Lemma entry_after_read (now : Z) (token token' : string) (chainId chainId' : ChainId)
      (cache : DenylistCache) (timestamp : Z) :
  entryOf token' chainId' (snd (isDenylisted now token chainId cache)) = Some timestamp ->
  entryOf token' chainId' cache = Some timestamp.
Proof.
  destruct cache as [[store|]]; unfold isDenylisted, entryOf, removeFromDenylist; simpl;
    [|easy].
  destruct (store !! createKey token chainId) as [ts|]; simpl; [|easy].
  destruct (isExpired now ts); simpl; [|easy].
  intros H. now apply lookup_delete_Some in H.
Qed.

Lemma entry_after_cleanup (now : Z) (token : string) (chainId : ChainId)
      (cache : DenylistCache) (timestamp : Z) :
  entryOf token chainId (cleanup now cache) = Some timestamp <->
  entryOf token chainId cache = Some timestamp /\ now - TTL_MS < timestamp.
Proof.
  destruct cache as [[store|]]; unfold cleanup, entryOf, cleanupExpired; simpl;
    [|now intuition].
  rewrite map_lookup_filter_Some. simpl. tauto.
Qed.

Lemma entry_after_clear (token : string) (chainId : ChainId) (cache : DenylistCache) :
  entryOf token chainId (clear cache) = None.
Proof.
  destruct cache as [[store|]]; unfold clear, entryOf; simpl; [|reflexivity].
  apply lookup_empty.
Qed.

Lemma read_false_absent (now : Z) (token : string) (chainId : ChainId) (cache : DenylistCache) :
  fst (isDenylisted now token chainId cache) = false ->
  entryOf token chainId (snd (isDenylisted now token chainId cache)) = None.
Proof.
  destruct cache as [[store|]]; unfold isDenylisted, entryOf, removeFromDenylist; simpl;
    [|reflexivity].
  destruct (store !! createKey token chainId) as [ts|] eqn:Hk; simpl.
  - destruct (isExpired now ts); simpl; [|discriminate].
    intros _. apply lookup_delete_eq.
  - intros _. exact Hk.
Qed.

Lemma quiet_keeps_absent (op : Op) (token : string) (chainId : ChainId) (cache : DenylistCache) :
  writes op = false ->
  entryOf token chainId cache = None ->
  entryOf token chainId (perform op cache) = None.
Proof.
  intros Hq Habs. destruct op; try discriminate; simpl.
  - destruct (entryOf token chainId (isDenylisted now token0 chainId0 cache).2) eqn:H;
      [|reflexivity].
    apply entry_after_read in H. congruence.
  - destruct (entryOf token chainId (cleanup now cache)) eqn:H; [|reflexivity].
    apply entry_after_cleanup in H as [H _]. congruence.
  - apply entry_after_clear.
Qed.

(** X13 -- a verdict of "not denylisted" is final until the next write:
    once isDenylisted has answered false for a token, every later
    isDenylisted for it answers false as well, at any clock value and
    through any number of reads of other tokens, sweeps and clears;
    only addToDenylist (also through handlePotentialDenylistError) can
    bring the token back. *)
Theorem false_until_next_write
        (now now' : Z) (token : string) (chainId : ChainId)
        (ops : list Op) (cache : DenylistCache) :
  Forall (fun op => writes op = false) ops ->
  fst (isDenylisted now token chainId cache) = false ->
  fst (isDenylisted now' token chainId
         (performAll ops (snd (isDenylisted now token chainId cache)))) = false.
Proof.
  intros Hq Hfalse. apply read_false_absent in Hfalse.
  revert Hfalse. generalize (snd (isDenylisted now token chainId cache)).
  induction Hq as [|op ops Hop _ IH]; intros c Habs.
  - simpl. now rewrite verdict_entry, Habs.
  - simpl. apply IH. now apply quiet_keeps_absent.
Qed.

Lemma sweep_verdict
        (sweepTime now : Z) (token : string) (chainId : ChainId) (cache : DenylistCache) :
  sweepTime <= now ->
  entryOf token chainId cache <> Some (now - TTL_MS) ->
  fst (isDenylisted now token chainId (cleanup sweepTime cache))
  = fst (isDenylisted now token chainId cache).
Proof.
  intros Hle Hne. rewrite !verdict_entry.
  destruct (entryOf token chainId cache) as [ts|] eqn:He.
  - destruct (Z_lt_dec (sweepTime - TTL_MS) ts) as [Hlive|Hdead].
    + assert (H : entryOf token chainId (cleanup sweepTime cache) = Some ts)
        by now apply entry_after_cleanup.
      now rewrite H.
    + destruct (entryOf token chainId (cleanup sweepTime cache)) as [ts'|] eqn:H.
      * apply entry_after_cleanup in H as [H Hlive].
        assert (ts' = ts) by congruence. subst ts'. contradiction.
      * unfold isExpired. symmetry. apply negb_false_iff, Z.ltb_lt.
        assert (ts <> now - TTL_MS) by congruence. lia.
  - destruct (entryOf token chainId (cleanup sweepTime cache)) as [ts'|] eqn:H; [|reflexivity].
    apply entry_after_cleanup in H as [H _]. congruence.
Qed.

(** X14 -- the sweep is invisible to later reads, except on the last
    millisecond of an entry: cleanupExpired deletes entries that are
    24h old or older while isDenylisted still accepts an entry that is
    exactly 24h old, so a read at or after the sweep gets the same answer
    with and without the sweep unless the entry is exactly 24h old at the
    time of the read. *)
Theorem sweep_is_transparent
        (sweepTime now : Z) (token : string) (chainId : ChainId) (cache : DenylistCache) :
  sweepTime <= now ->
  entryOf token chainId cache <> Some (now - TTL_MS) ->
  fst (isDenylisted now token chainId (cleanup sweepTime cache))
  = fst (isDenylisted now token chainId cache).
Proof. exact (sweep_verdict sweepTime now token chainId cache). Qed.

(** *** Keys of different tokens *)

Lemma digits_dash_inj (d d' x x' : string) :
  Js.every isDigit d = true -> Js.every isDigit d' = true ->
  d +:+ String "-" x = d' +:+ String "-" x' -> d = d' /\ x = x'.
Proof.
  revert d'. induction d as [|a d IH]; intros d' Hd Hd' H.
  - destruct d' as [|a' d'].
    + rewrite !append_nil in H. now injection H as ->.
    + rewrite append_nil, append_cons in H. injection H as <- _.
      simpl in Hd'. discriminate.
  - destruct d' as [|a' d'].
    + rewrite append_nil, append_cons in H. injection H as -> _.
      simpl in Hd. discriminate.
    + rewrite !append_cons in H. injection H as <- H.
      simpl in Hd, Hd'. apply andb_prop in Hd as [_ Hd], Hd' as [_ Hd'].
      destruct (IH d' Hd Hd' H) as [-> ->]. now split.
Qed.

Lemma keys_separate (token token' : string) (chainId chainId' : ChainId) :
  numericChain chainId -> numericChain chainId' ->
  createKey token chainId = createKey token' chainId' ->
  showChainId chainId = showChainId chainId'
  /\ Js.toLowerCase token = Js.toLowerCase token'.
Proof.
  unfold numericChain, createKey. intros Hc Hc' H.
  rewrite !append_cons, !append_nil in H.
  now apply digits_dash_inj.
Qed.

Lemma entry_after_add (now : Z) (random : Qc) (lag : N)
      (token token' : string) (chainId chainId' : ChainId) (store : gmap string Z) :
  createKey token' chainId' <> createKey token chainId ->
  exists store',
    addToDenylist now random lag token chainId {| db := Some store |}
    = (if Portfolio.gtb (Q2Qc (1 # 10)) random
       then cleanup (now + Z.of_N lag) {| db := Some store' |}
       else {| db := Some store' |})
    /\ store' !! createKey token' chainId' = store !! createKey token' chainId'.
Proof.
  intros Hne. exists (<[createKey token chainId := now]> store). split.
  - unfold addToDenylist, cleanup. simpl. now destruct (Portfolio.gtb _ random).
  - now apply lookup_insert_ne.
Qed.

Lemma add_keeps_other_verdicts
        (now now' : Z) (random : Qc) (lag : N)
        (token token' : string) (chainId chainId' : ChainId) (cache : DenylistCache) :
  numericChain chainId -> numericChain chainId' ->
  (showChainId chainId <> showChainId chainId'
   \/ Js.toLowerCase token <> Js.toLowerCase token') ->
  now + Z.of_N lag <= now' ->
  entryOf token' chainId' cache <> Some (now' - TTL_MS) ->
  fst (isDenylisted now' token' chainId'
         (addToDenylist now random lag token chainId cache))
  = fst (isDenylisted now' token' chainId' cache).
Proof.
  intros Hc Hc' Hdiff Hlate Hedge.
  assert (Hne : createKey token' chainId' <> createKey token chainId).
  { intros Heq. symmetry in Heq. apply keys_separate in Heq as [? ?]; tauto. }
  destruct cache as [[store|]]; [|reflexivity].
  destruct (entry_after_add now random lag token token' chainId chainId' store Hne)
    as (store' & -> & Hsame).
  assert (Hentry : entryOf token' chainId' {| db := Some store' |}
                   = entryOf token' chainId' {| db := Some store |}) by exact Hsame.
  assert (Hverdict : fst (isDenylisted now' token' chainId' {| db := Some store' |})
                     = fst (isDenylisted now' token' chainId' {| db := Some store |}))
    by now rewrite !verdict_entry, Hentry.
  destruct (Portfolio.gtb _ random); [|exact Hverdict].
  rewrite sweep_verdict; [exact Hverdict|exact Hlate|now rewrite Hentry].
Qed.

(** X15 -- denylisting one token never changes the verdict for another:
    for chain ids that are decimal numbers the key separates chains and
    (lower-cased) tokens, so after addToDenylist for a token on one chain,
    isDenylisted for a token that differs in chain or in address (beyond
    letter case) answers what it answered before; the sweep that the write
    may start shows only for an entry exactly 24h old. *)
Theorem other_tokens_unaffected
        (now now' : Z) (random : Qc) (lag : N)
        (token token' : string) (chainId chainId' : ChainId) (cache : DenylistCache) :
  numericChain chainId -> numericChain chainId' ->
  (showChainId chainId <> showChainId chainId'
   \/ Js.toLowerCase token <> Js.toLowerCase token') ->
  now + Z.of_N lag <= now' ->
  entryOf token' chainId' cache <> Some (now' - TTL_MS) ->
  fst (isDenylisted now' token' chainId'
         (addToDenylist now random lag token chainId cache))
  = fst (isDenylisted now' token' chainId' cache).
Proof. exact (add_keeps_other_verdicts now now' random lag token token' chainId chainId' cache). Qed.

(** *** What handling an error does to the store *)

Lemma handle_target (now : Z) (random : Qc) (lag : N) (errorMessage : string)
      (token : option string) (chainId : option ChainId) (cache : DenylistCache) :
  handlePotentialDenylistError now random lag errorMessage token chainId cache
  = if isDenylistError errorMessage
    then match target errorMessage token chainId with
         | Some (t, c) => (true, addToDenylist now random lag t c cache)
         | None => (false, cache)
         end
    else (false, cache).
Proof.
  unfold handlePotentialDenylistError, target.
  destruct (isDenylistError errorMessage); [|reflexivity]. simpl.
  destruct (parseTokenFromError errorMessage) as [[c t]|]; [reflexivity|].
  destruct token as [t|], chainId as [c|]; try reflexivity.
  now destruct (Js.truthy t && truthyChainId c).
Qed.

Lemma add_footprint (now : Z) (random : Qc) (lag : N) (token : string)
      (chainId : ChainId) (store : gmap string Z) :
  exists store',
    addToDenylist now random lag token chainId {| db := Some store |} = {| db := Some store' |}
    /\ forall k ts, store' !! k = Some ts ->
                    store !! k = Some ts \/ (ts = now /\ k = createKey token chainId).
Proof.
  unfold addToDenylist. simpl.
  assert (Hins : forall k ts, <[createKey token chainId := now]> store !! k = Some ts ->
                              store !! k = Some ts \/ (ts = now /\ k = createKey token chainId)).
  { intros k ts H. apply lookup_insert_Some in H as [[<- <-]|[_ H]]; auto. }
  destruct (Portfolio.gtb _ random); eexists; (split; [reflexivity|]); [|exact Hins].
  intros k ts H. unfold cleanupExpired in H.
  apply map_lookup_filter_Some in H as [H _]. now apply Hins.
Qed.

(** X16 -- handling an error changes the store by at most one fresh entry:
    when handlePotentialDenylistError returns false the store is
    untouched; when it returns true the message held one of the denylist
    phrases, and every entry of the store afterwards is an entry that was
    there before, unchanged, or the entry of the target stamped with the
    current time.  The target is the pair parsed from the message and
    only in its absence the token and chain passed by the caller. *)
Theorem handling_adds_one_fresh_entry
        (now : Z) (random : Qc) (lag : N) (errorMessage : string)
        (token : option string) (chainId : option ChainId) (store : gmap string Z) :
  let handled :=
    handlePotentialDenylistError now random lag errorMessage token chainId
                                 {| db := Some store |} in
  exists store',
    snd handled = {| db := Some store' |}
    /\ (fst handled = false -> store' = store)
    /\ (fst handled = true -> isDenylistError errorMessage = true)
    /\ forall k ts,
         store' !! k = Some ts ->
         store !! k = Some ts
         \/ (fst handled = true /\ ts = now
             /\ exists t c, target errorMessage token chainId = Some (t, c)
                            /\ k = createKey t c).
Proof.
  intros handled. subst handled. rewrite handle_target.
  destruct (isDenylistError errorMessage).
  2:{ exists store. simpl. repeat split; auto; discriminate. }
  destruct (target errorMessage token chainId) as [[t c]|].
  2:{ exists store. simpl. repeat split; auto. }
  destruct (add_footprint now random lag t c store) as (store' & Heq & Hfoot).
  exists store'. simpl. rewrite Heq. repeat split; auto; [discriminate|].
  intros k ts H. destruct (Hfoot k ts H) as [Hold|[-> ->]]; [now left|].
  right. repeat split; eauto.
Qed.

(** X17 -- without a database the denylist is inert: if IndexedDB could
    not be opened, no sequence of calls ever opens it or stores anything,
    size() stays 0 and isDenylisted answers false for every token, also
    right after handlePotentialDenylistError has returned true for it
    (which it does for every message with a denylist phrase and a
    target). *)
Theorem inert_without_database (ops : list Op) (cache : DenylistCache) :
  db cache = None ->
  db (performAll ops cache) = None
  /\ size (performAll ops cache) = 0%nat
  /\ (forall now token chainId,
        isDenylisted now token chainId (performAll ops cache)
        = (false, performAll ops cache))
  /\ (forall now random lag errorMessage token chainId,
        isDenylistError errorMessage = true ->
        target errorMessage token chainId <> None ->
        fst (handlePotentialDenylistError now random lag errorMessage token chainId
               (performAll ops cache)) = true).
Proof.
  intros Hnone.
  assert (Hdb : db (performAll ops cache) = None).
  { revert cache Hnone. induction ops as [|op ops IH]; intros cache Hnone; [exact Hnone|].
    simpl. apply IH. destruct op; simpl.
    - unfold isDenylisted. now rewrite Hnone.
    - unfold addToDenylist. now rewrite Hnone.
    - rewrite handle_target. destruct (isDenylistError errorMessage); [|exact Hnone].
      destruct (target errorMessage token chainId) as [[t c]|]; [|exact Hnone].
      simpl. unfold addToDenylist. now rewrite Hnone.
    - unfold cleanup. now rewrite Hnone.
    - unfold clear. now rewrite Hnone. }
  split; [exact Hdb|]. split; [unfold size; now rewrite Hdb|]. split.
  - intros now token chainId. unfold isDenylisted. now rewrite Hdb.
  - intros now random lag errorMessage token chainId Herr Htarget.
    rewrite handle_target, Herr.
    now destruct (target errorMessage token chainId) as [[t c]|].
Qed.

Lemma target_verdicts
        (store : gmap string Z) (t0 t1 : Z) (random : Qc) (lag : N)
        (errorMessage : string) (token : option string) (chainId : option ChainId)
        (t lookup : string) (c chainId' : ChainId) :
  isDenylistError errorMessage = true ->
  target errorMessage token chainId = Some (t, c) ->
  Js.toLowerCase lookup = Js.toLowerCase t ->
  showChainId chainId' = showChainId c ->
  Z.of_N lag < TTL_MS ->
  let handled :=
    handlePotentialDenylistError t0 random lag errorMessage token chainId
                                 {| db := Some store |} in
  fst handled = true
  /\ (t1 - t0 <= TTL_MS -> fst (isDenylisted t1 lookup chainId' (snd handled)) = true)
  /\ (TTL_MS < t1 - t0 -> fst (isDenylisted t1 lookup chainId' (snd handled)) = false).
Proof.
  intros Herr Htarget Hlookup Hchain Hlag handled. subst handled.
  rewrite handle_target, Herr, Htarget. simpl.
  assert (Hkey : createKey lookup chainId' = createKey t c) by now apply createKey_case.
  destruct (addToDenylist_store store t0 random lag t c) as (store' & -> & Honly & Hput).
  split; [reflexivity|]. split; intros Hage.
  - rewrite (isDenylisted_key _ _ _ _ _ _ Hkey).
    now rewrite (isDenylisted_fresh store' t1 t0 t c (Hput Hlag) Hage).
  - rewrite (isDenylisted_key _ _ _ _ _ _ Hkey).
    apply isDenylisted_expired. intros ts Hts. rewrite (Honly ts Hts). exact Hage.
Qed.

(** X18 -- whatever handlePotentialDenylistError accepts is denylisted for
    24 hours: for any message with a denylist phrase and a target (the
    pair named in the message, or the caller's token and chain when the
    message names none), with the database open, the call returns true,
    and isDenylisted for the target, in any letter case of the token and
    with the chain id given as a number or as a string, answers true until
    24h have passed and false afterwards. *)
Theorem handled_target_is_denylisted
        (store : gmap string Z) (t0 t1 : Z) (random : Qc) (lag : N)
        (errorMessage : string) (token : option string) (chainId : option ChainId)
        (t lookup : string) (c chainId' : ChainId) :
  isDenylistError errorMessage = true ->
  target errorMessage token chainId = Some (t, c) ->
  Js.toLowerCase lookup = Js.toLowerCase t ->
  showChainId chainId' = showChainId c ->
  Z.of_N lag < TTL_MS ->
  let handled :=
    handlePotentialDenylistError t0 random lag errorMessage token chainId
                                 {| db := Some store |} in
  fst handled = true
  /\ (t1 - t0 <= TTL_MS -> fst (isDenylisted t1 lookup chainId' (snd handled)) = true)
  /\ (TTL_MS < t1 - t0 -> fst (isDenylisted t1 lookup chainId' (snd handled)) = false).
Proof. exact (target_verdicts store t0 t1 random lag errorMessage token chainId t lookup c chainId'). Qed.

(** On the last millisecond of an entry the sweep and the read disagree. *)
Example sweep_differs_on_the_last_millisecond :
  fst (isDenylisted TTL_MS DenylistExamples.quiet (ChainNum 42161)
         DenylistOpsExamples.aged) = true
  /\ fst (isDenylisted TTL_MS DenylistExamples.quiet (ChainNum 42161)
            (cleanup TTL_MS DenylistOpsExamples.aged)) = false.
Proof.
  assert (He : entryOf DenylistExamples.quiet (ChainNum 42161) DenylistOpsExamples.aged
               = Some 0) by apply lookup_insert_eq.
  split.
  - now rewrite verdict_entry, He.
  - rewrite verdict_entry.
    destruct (entryOf _ _ (cleanup TTL_MS DenylistOpsExamples.aged)) as [ts|] eqn:H;
      [|reflexivity].
    apply entry_after_cleanup in H as [H Hlive]. rewrite He in H. injection H as <-.
    unfold TTL_MS in Hlive. lia.
Qed.

End DenylistOpsFacts.

Lemma parsed_token_is_in_the_message_witness :
  exists pre s,
    DenylistOpsExamples.lifiMessage = pre +:+ s
    /\ DenylistOps.matched s "42161" DenylistExamples.quiet
    /\ (forall a b, DenylistOpsExamples.lifiMessage = a +:+ b ->
                    (String.length a < String.length pre)%nat ->
                    Denylist.matchHere b = None).
Proof.
  apply (DenylistOpsFacts.parsed_token_is_in_the_message
           DenylistOpsExamples.lifiMessage "42161" DenylistExamples.quiet).
  reflexivity.
Defined.

Lemma handling_ignores_ascii_letter_case_witness :
  Denylist.isDenylistError DenylistOpsExamples.lifiMessage
  = Denylist.isDenylistError (Js.toUpperCase DenylistOpsExamples.lifiMessage)
  /\ Denylist.handlePotentialDenylistError
       1000 (Q2Qc (1 # 2)) 0 DenylistOpsExamples.lifiMessage None None
       {| Denylist.db := Some ∅ |}
     = Denylist.handlePotentialDenylistError
         1000 (Q2Qc (1 # 2)) 0 (Js.toUpperCase DenylistOpsExamples.lifiMessage) None None
         {| Denylist.db := Some ∅ |}.
Proof.
  apply (DenylistOpsFacts.handling_ignores_ascii_letter_case
           1000 (Q2Qc (1 # 2)) 0 DenylistOpsExamples.lifiMessage
           (Js.toUpperCase DenylistOpsExamples.lifiMessage) None None
           {| Denylist.db := Some ∅ |}).
  reflexivity.
Defined.

Lemma false_until_next_write_witness :
  fst (Denylist.isDenylisted
         (2 * Denylist.TTL_MS) DenylistExamples.quiet (Denylist.ChainNum 42161)
         (DenylistOps.performAll
            [DenylistOps.OpIsDenylisted 5 DenylistExamples.checksummed (Denylist.ChainNum 1);
             DenylistOps.OpCleanupExpired 10]
            (snd (Denylist.isDenylisted
                    (Denylist.TTL_MS + 1) DenylistExamples.quiet (Denylist.ChainNum 42161)
                    DenylistOpsExamples.aged)))) = false.
Proof.
  apply (DenylistOpsFacts.false_until_next_write
           (Denylist.TTL_MS + 1) (2 * Denylist.TTL_MS)
           DenylistExamples.quiet (Denylist.ChainNum 42161)).
  - repeat constructor.
  - vm_compute. reflexivity.
Defined.

Lemma sweep_is_transparent_witness :
  fst (Denylist.isDenylisted 5000 DenylistExamples.quiet (Denylist.ChainNum 42161)
         (DenylistOps.cleanup 4000 DenylistOpsExamples.aged))
  = fst (Denylist.isDenylisted 5000 DenylistExamples.quiet (Denylist.ChainNum 42161)
           DenylistOpsExamples.aged).
Proof.
  apply (DenylistOpsFacts.sweep_is_transparent
           4000 5000 DenylistExamples.quiet (Denylist.ChainNum 42161)
           DenylistOpsExamples.aged).
  - lia.
  - vm_compute. discriminate.
Defined.

Lemma other_tokens_unaffected_witness :
  fst (Denylist.isDenylisted 5000 DenylistExamples.quiet (Denylist.ChainNum 42161)
         (Denylist.addToDenylist 4000 (Q2Qc (1 # 20)) 7 DenylistExamples.checksummed
            (Denylist.ChainStr "1") DenylistOpsExamples.aged))
  = fst (Denylist.isDenylisted 5000 DenylistExamples.quiet (Denylist.ChainNum 42161)
           DenylistOpsExamples.aged).
Proof.
  apply (DenylistOpsFacts.other_tokens_unaffected
           4000 5000 (Q2Qc (1 # 20)) 7 DenylistExamples.checksummed DenylistExamples.quiet
           (Denylist.ChainStr "1") (Denylist.ChainNum 42161) DenylistOpsExamples.aged).
  - reflexivity.
  - vm_compute. reflexivity.
  - left. vm_compute. discriminate.
  - lia.
  - vm_compute. discriminate.
Defined.

Lemma inert_without_database_witness :
  fst (Denylist.handlePotentialDenylistError
         1000 (Q2Qc (1 # 2)) 0 DenylistOpsExamples.lifiMessage None None
         {| Denylist.db := None |}) = true
  /\ Denylist.isDenylisted 2000 DenylistExamples.quiet (Denylist.ChainNum 42161)
       (DenylistOps.performAll
          [DenylistOps.OpHandle 1000 (Q2Qc (1 # 2)) 0 DenylistOpsExamples.lifiMessage
             None None]
          {| Denylist.db := None |})
     = (false,
        DenylistOps.performAll
          [DenylistOps.OpHandle 1000 (Q2Qc (1 # 2)) 0 DenylistOpsExamples.lifiMessage
             None None]
          {| Denylist.db := None |}).
Proof.
  split.
  - destruct (DenylistOpsFacts.inert_without_database [] {| Denylist.db := None |} eq_refl)
      as (_ & _ & _ & H).
    apply (H 1000 (Q2Qc (1 # 2)) 0%N DenylistOpsExamples.lifiMessage None None).
    + reflexivity.
    + vm_compute. discriminate.
  - destruct (DenylistOpsFacts.inert_without_database
                [DenylistOps.OpHandle 1000 (Q2Qc (1 # 2)) 0 DenylistOpsExamples.lifiMessage
                   None None]
                {| Denylist.db := None |} eq_refl) as (_ & _ & H & _).
    apply H.
Defined.

Lemma handled_target_is_denylisted_witness :
  let handled :=
    Denylist.handlePotentialDenylistError
      1000 (Q2Qc (1 # 2)) 0 DenylistOpsExamples.bareMessage
      (Some DenylistExamples.shouted) (Some (Denylist.ChainNum 42161))
      {| Denylist.db := Some ∅ |} in
  fst handled = true
  /\ fst (Denylist.isDenylisted 2000 DenylistExamples.quiet (Denylist.ChainStr "42161")
            (snd handled)) = true.
Proof.
  cbv zeta.
  destruct (DenylistOpsFacts.handled_target_is_denylisted
              ∅ 1000 2000 (Q2Qc (1 # 2)) 0 DenylistOpsExamples.bareMessage
              (Some DenylistExamples.shouted) (Some (Denylist.ChainNum 42161))
              DenylistExamples.shouted DenylistExamples.quiet
              (Denylist.ChainNum 42161) (Denylist.ChainStr "42161"))
    as (Hok & Hfresh & _).
  - reflexivity.
  - reflexivity.
  - reflexivity.
  - reflexivity.
  - reflexivity.
  - split; [exact Hok|]. apply Hfresh. vm_compute. discriminate.
Defined.

(* ===================================================================== *)
(** ** getAnyToken behind the denylist                                    *)
(* ===================================================================== *)

Module TokenLookupFacts.
Import Denylist DenylistOps DenylistFacts DenylistOpsFacts TokenLookup.

Section Facts.
Variable caip2ToLifiChainId : string -> option ChainId.
Variable caip2Map : list (string * string).

Local Abbreviation resolveChain := (resolveChain caip2ToLifiChainId caip2Map) (only parsing).
Local Abbreviation getAnyToken := (getAnyToken caip2ToLifiChainId caip2Map) (only parsing).

Lemma read_keeps_open (t : Z) (token : string) (chainId : ChainId) (store : gmap string Z) :
  exists store',
    snd (isDenylisted t token chainId {| db := Some store |}) = {| db := Some store' |}.
Proof.
  unfold isDenylisted, removeFromDenylist. simpl.
  destruct (store !! createKey token chainId) as [ts|]; [|now eexists].
  destruct (isExpired t ts); now eexists.
Qed.

Lemma lookup_denied (env : Env) (api : string -> Answer) (token chain : string)
      (cache : DenylistCache) :
  fst (isDenylisted (now env) token (resolveChain chain) cache) = true ->
  getAnyToken env api token chain cache
  = {| result := None; requested := []; denylist := cache |}.
Proof.
  unfold TokenLookup.getAnyToken, isDenylisted.
  destruct (db cache) as [store|]; [|discriminate].
  destruct (store !! createKey token (resolveChain chain)) as [ts|]; [|discriminate].
  destruct (isExpired (now env) ts); [discriminate|reflexivity].
Qed.

Lemma lookup_asked (env : Env) (api : string -> Answer) (token chain : string)
      (cache : DenylistCache) :
  fst (isDenylisted (now env) token (resolveChain chain) cache) = false ->
  let cache1 := snd (isDenylisted (now env) token (resolveChain chain) cache) in
  requested (getAnyToken env api token chain cache) = [url token (resolveChain chain)]
  /\ match failure (api (url token (resolveChain chain))) with
     | None =>
         denylist (getAnyToken env api token chain cache) = cache1
         /\ exists data, result (getAnyToken env api token chain cache) = Some data
     | Some message =>
         result (getAnyToken env api token chain cache) = None
         /\ denylist (getAnyToken env api token chain cache)
            = snd (handlePotentialDenylistError
                     (now env + Z.of_N (elapsed env)) (random env) (lag env)
                     message (Some token) (Some (resolveChain chain)) cache1)
     end.
Proof.
  intros Hfalse cache1. subst cache1. unfold TokenLookup.getAnyToken.
  destruct (isDenylisted (now env) token (resolveChain chain) cache) as [denied cache1].
  simpl in Hfalse. subst denied.
  destruct (api (url token (resolveChain chain))); simpl; eauto.
Qed.

(** X19 -- a token that li.quest refused is not requested again for 24
    hours: when a request of getAnyToken fails with a message that holds a
    denylist phrase and whose target is the requested token (named in the
    message, or not named at all), the call resolves to null after one
    request, and every later getAnyToken for that token on that chain, in
    any letter case, resolves to null without any request while no more
    than 24h have passed since the failure, whatever the service would
    answer; once more than 24h have passed, the request is made again. *)
Theorem refused_token_is_not_requested_again
        (env0 env1 : Env) (api0 api1 : string -> Answer)
        (token token' chain message t : string) (c : ChainId) (store : gmap string Z) :
  fst (isDenylisted (now env0) token (resolveChain chain) {| db := Some store |}) = false ->
  failure (api0 (url token (resolveChain chain))) = Some message ->
  isDenylistError message = true ->
  target message (Some token) (Some (resolveChain chain)) = Some (t, c) ->
  Js.toLowerCase t = Js.toLowerCase token ->
  showChainId c = showChainId (resolveChain chain) ->
  Js.toLowerCase token' = Js.toLowerCase token ->
  Z.of_N (lag env0) < TTL_MS ->
  let first := getAnyToken env0 api0 token chain {| db := Some store |} in
  let second := getAnyToken env1 api1 token' chain (denylist first) in
  let failedAt := now env0 + Z.of_N (elapsed env0) in
  result first = None
  /\ requested first = [url token (resolveChain chain)]
  /\ (now env1 - failedAt <= TTL_MS -> result second = None /\ requested second = [])
  /\ (TTL_MS < now env1 - failedAt ->
      requested second = [url token' (resolveChain chain)]).
Proof.
  intros Hfalse Hfail Herr Htarget Ht Hc Hcase Hlag first second failedAt.
  destruct (lookup_asked env0 api0 token chain _ Hfalse) as [Hreq Hrest].
  rewrite Hfail in Hrest. destruct Hrest as [Hres Hdeny].
  destruct (read_keeps_open (now env0) token (resolveChain chain) store) as [store1 Hopen].
  rewrite Hopen in Hdeny.
  assert (Hlookup : Js.toLowerCase token' = Js.toLowerCase t) by congruence.
  destruct (target_verdicts store1 failedAt (now env1) (random env0) (lag env0)
              message (Some token) (Some (resolveChain chain)) t token' c
              (resolveChain chain) Herr Htarget Hlookup (eq_sym Hc) Hlag)
    as (_ & Hfresh & Hstale).
  fold failedAt in Hdeny. subst first. rewrite <- Hdeny in Hfresh, Hstale.
  split; [exact Hres|]. split; [exact Hreq|]. split; intros Hage.
  - subst second. rewrite (lookup_denied env1 api1 token' chain _ (Hfresh Hage)).
    now split.
  - subst second.
    now destruct (lookup_asked env1 api1 token' chain _ (Hstale Hage)) as [H _].
Qed.

Lemma verdict_after_read (t : Z) (token token' : string) (chainId chainId' : ChainId)
      (cache : DenylistCache) :
  entryOf token' chainId' cache = None ->
  entryOf token' chainId' (snd (isDenylisted t token chainId cache)) = None.
Proof.
  intros Habs.
  destruct (entryOf token' chainId' (snd (isDenylisted t token chainId cache))) eqn:H;
    [|reflexivity].
  apply entry_after_read in H. congruence.
Qed.

Lemma entry_absent_after_add (t : Z) (random : Qc) (lag : N)
      (token token' : string) (chainId chainId' : ChainId) (cache : DenylistCache) :
  createKey token' chainId' <> createKey token chainId ->
  entryOf token' chainId' cache = None ->
  entryOf token' chainId' (addToDenylist t random lag token chainId cache) = None.
Proof.
  intros Hne Habs. destruct cache as [[store|]]; [|reflexivity].
  destruct (entry_after_add t random lag token token' chainId chainId' store Hne)
    as (store' & -> & Hsame).
  assert (He : entryOf token' chainId' {| db := Some store' |} = None)
    by (unfold entryOf in *; simpl in *; congruence).
  destruct (Portfolio.gtb _ random); [|exact He].
  destruct (entryOf token' chainId' (cleanup (t + Z.of_N lag) {| db := Some store' |}))
    eqn:H; [|reflexivity].
  apply entry_after_cleanup in H as [H _]. congruence.
Qed.

(** X20 -- the entry is made for the token the message names, not for the
    token that was requested: when the failure message names a token that
    differs from the requested one in chain or in address, and the
    requested token had no entry, the requested token has no entry after
    the call either, so the next getAnyToken for it sends the request
    again, at any time. *)
Theorem named_token_wins_over_requested
        (env0 env1 : Env) (api0 api1 : string -> Answer)
        (token chain message named namedChain : string) (cache : DenylistCache) :
  numericChain (resolveChain chain) ->
  entryOf token (resolveChain chain) cache = None ->
  failure (api0 (url token (resolveChain chain))) = Some message ->
  parseTokenFromError message = Some (namedChain, named) ->
  (namedChain <> showChainId (resolveChain chain)
   \/ Js.toLowerCase named <> Js.toLowerCase token) ->
  let first := getAnyToken env0 api0 token chain cache in
  entryOf token (resolveChain chain) (denylist first) = None
  /\ requested (getAnyToken env1 api1 token chain (denylist first))
     = [url token (resolveChain chain)].
Proof.
  intros Hnum Habs Hfail Hparse Hdiff first.
  assert (Hfalse : forall t c, entryOf token (resolveChain chain) c = None ->
                               fst (isDenylisted t token (resolveChain chain) c) = false)
    by (intros t c H; now rewrite verdict_entry, H).
  assert (Hentry : entryOf token (resolveChain chain) (denylist first) = None).
  { subst first.
    destruct (lookup_asked env0 api0 token chain cache (Hfalse _ _ Habs)) as [_ Hrest].
    rewrite Hfail in Hrest. destruct Hrest as [_ ->].
    rewrite handle_target. destruct (isDenylistError message).
    2:{ simpl. now apply verdict_after_read. }
    unfold target. rewrite Hparse. simpl.
    apply entry_absent_after_add; [|now apply verdict_after_read].
    intros Hkey. apply keys_separate in Hkey as [Hc Ht]; [|exact Hnum|].
    - simpl in Hc. destruct Hdiff as [Hd|Hd]; [now elim Hd|now elim Hd].
    - exact (parse_digits _ _ _ Hparse). }
  split; [exact Hentry|].
  now destruct (lookup_asked env1 api1 token chain _ (Hfalse _ _ Hentry)) as [H _].
Qed.

End Facts.
End TokenLookupFacts.

Lemma refused_token_is_not_requested_again_witness :
  let first :=
    TokenLookup.getAnyToken TokenLookupExamples.eip155 TokenLookupExamples.names
      TokenLookupExamples.morning TokenLookupExamples.refusing
      DenylistExamples.shouted "arbitrum" {| Denylist.db := Some ∅ |} in
  let second :=
    TokenLookup.getAnyToken TokenLookupExamples.eip155 TokenLookupExamples.names
      TokenLookupExamples.noon TokenLookupExamples.serving
      DenylistExamples.quiet "arbitrum" (TokenLookup.denylist first) in
  TokenLookup.result first = None
  /\ TokenLookup.result second = None
  /\ TokenLookup.requested second = [].
Proof.
  cbv zeta.
  destruct (TokenLookupFacts.refused_token_is_not_requested_again
              TokenLookupExamples.eip155 TokenLookupExamples.names
              TokenLookupExamples.morning TokenLookupExamples.noon
              TokenLookupExamples.refusing TokenLookupExamples.serving
              DenylistExamples.shouted DenylistExamples.quiet "arbitrum"
              DenylistOpsExamples.lifiMessage DenylistExamples.quiet
              (Denylist.ChainStr "42161") ∅)
    as (Hfirst & _ & Hfresh & _).
  - reflexivity.
  - reflexivity.
  - reflexivity.
  - reflexivity.
  - reflexivity.
  - reflexivity.
  - reflexivity.
  - reflexivity.
  - split; [exact Hfirst|]. apply Hfresh. vm_compute. discriminate.
Defined.

Lemma named_token_wins_over_requested_witness :
  let first :=
    TokenLookup.getAnyToken TokenLookupExamples.eip155 TokenLookupExamples.names
      TokenLookupExamples.morning TokenLookupExamples.refusing
      DenylistExamples.checksummed "1" {| Denylist.db := Some ∅ |} in
  DenylistOps.entryOf DenylistExamples.checksummed (Denylist.ChainStr "1")
    (TokenLookup.denylist first) = None
  /\ TokenLookup.requested
       (TokenLookup.getAnyToken TokenLookupExamples.eip155 TokenLookupExamples.names
          TokenLookupExamples.noon TokenLookupExamples.refusing
          DenylistExamples.checksummed "1" (TokenLookup.denylist first))
     = [TokenLookup.url DenylistExamples.checksummed (Denylist.ChainStr "1")].
Proof.
  cbv zeta.
  apply (TokenLookupFacts.named_token_wins_over_requested
           TokenLookupExamples.eip155 TokenLookupExamples.names
           TokenLookupExamples.morning TokenLookupExamples.noon
           TokenLookupExamples.refusing TokenLookupExamples.refusing
           DenylistExamples.checksummed "1" DenylistOpsExamples.lifiMessage
           DenylistExamples.quiet "42161" {| Denylist.db := Some ∅ |}).
  - reflexivity.
  - reflexivity.
  - reflexivity.
  - reflexivity.
  - left. discriminate.
Defined.

(* ===================================================================== *)
(** ** getTokenHoldings: which tokens become items                        *)
(* ===================================================================== *)

Module HoldingsFacts.
Import Denylist DenylistOps DenylistOpsFacts Evm Holdings.

(** *** Positive numbers *)

Lemma Qcmult_pos (a b : Qc) : (0 < a -> 0 < b -> 0 < a * b)%Qc.
Proof.
  intros Ha Hb. rewrite <- (Qcmult_0_l b). now apply Qcmult_lt_compat_r.
Qed.

Lemma Qcinv_pos (a : Qc) : (0 < a -> 0 < / a)%Qc.
Proof.
  intros Ha. unfold Qclt in *. change (0 < Qred (/ a))%Q.
  rewrite Qred_correct. apply Qinv_lt_0_compat. exact Ha.
Qed.

Lemma Qcpower_pos_strict (a : Qc) (n : nat) : (0 < a -> 0 < a ^ n)%Qc.
Proof.
  intros Ha. induction n as [|n IH]; [reflexivity|].
  simpl. now apply Qcmult_pos.
Qed.

Lemma pow10_pos (d : Z) : (0 < pow10 d)%Qc.
Proof.
  assert (H10 : (0 < Q2Qc 10)%Qc) by reflexivity.
  unfold pow10. destruct (0 <=? d).
  - now apply Qcpower_pos_strict.
  - now apply Qcinv_pos, Qcpower_pos_strict.
Qed.

Lemma balance_pos (z : Z) : 0 < z -> (0 < Q2Qc (inject_Z z))%Qc.
Proof.
  intros Hz. unfold Qclt. change (0 < Qred (inject_Z z))%Q.
  rewrite Qred_correct. unfold Qlt. simpl. lia.
Qed.

(** *** The denylist stage *)

Lemma read_keeps_later_verdicts (t now : Z) (token token' : string)
      (chainId chainId' : ChainId) (cache : DenylistCache) :
  t <= now ->
  fst (isDenylisted now token' chainId' (snd (isDenylisted t token chainId cache)))
  = fst (isDenylisted now token' chainId' cache).
Proof.
  intros Hle. destruct cache as [[store|]]; [|reflexivity].
  unfold isDenylisted at 2. simpl.
  destruct (store !! createKey token chainId) as [ts|] eqn:Hk; [|reflexivity].
  destruct (isExpired t ts) eqn:Hexp; [|reflexivity].
  simpl. rewrite !verdict_entry. unfold entryOf, removeFromDenylist. simpl.
  destruct (decide (createKey token' chainId' = createKey token chainId)) as [->|Hne].
  - rewrite lookup_delete_eq, Hk. symmetry. apply negb_false_iff.
    unfold isExpired in *. apply Z.ltb_lt in Hexp. apply Z.ltb_lt. lia.
  - now rewrite lookup_delete_ne.
Qed.

Lemma check_keeps_later_verdicts (t now : Z) (token : Token) (name : string)
      (chainId : ChainId) (cache : DenylistCache) :
  t <= now ->
  fst (isDenylisted now name chainId (snd (denylistCheck t token cache)))
  = fst (isDenylisted now name chainId cache).
Proof.
  intros Hle. unfold denylistCheck.
  destruct (isNativeToken token); [reflexivity|].
  destruct (networkOf token) as [net|]; [|reflexivity].
  destruct (tokenAddress token) as [a|]; [|reflexivity].
  destruct (Js.truthy a); [|reflexivity].
  pose proof (read_keeps_later_verdicts t now a name (ChainStr (Evm.chainId net))
                chainId cache Hle) as H.
  destruct (isDenylisted t a (ChainStr (Evm.chainId net)) cache) as [denied cache'].
  now destruct denied.
Qed.

Lemma check_kept (t : Z) (token : Token) (cache : DenylistCache) :
  fst (denylistCheck t token cache)
  = if isNativeToken token || negb (listed t token cache) then Some token else None.
Proof.
  unfold denylistCheck, listed.
  destruct (isNativeToken token); [reflexivity|]. simpl.
  destruct (networkOf token) as [net|]; [|reflexivity].
  destruct (tokenAddress token) as [a|]; [|reflexivity].
  destruct (Js.truthy a); [|reflexivity]. simpl.
  destruct (isDenylisted t a (ChainStr (Evm.chainId net)) cache) as [denied cache'].
  now destruct denied.
Qed.

Lemma listed_later (now : Z) (token : Token) (cache cache' : DenylistCache) :
  (forall name chainId,
      fst (isDenylisted now name chainId cache')
      = fst (isDenylisted now name chainId cache)) ->
  listed now token cache' = listed now token cache.
Proof.
  intros H. unfold listed.
  destruct (networkOf token) as [net|]; [|reflexivity].
  destruct (tokenAddress token) as [a|]; [|reflexivity].
  now rewrite H.
Qed.

Section Facts.
Variable getAddress : string -> option string.
Variable getAnyToken : string -> string -> option LifiToken.
Variable clock : nat -> Z.
Variable prices : string -> option PriceData.

Hypothesis clock_monotone : forall i j, (i <= j)%nat -> clock i <= clock j.

Lemma filteredFrom_pure (tokens : list Token) :
  forall (i : nat) (cache cache' : DenylistCache),
    (forall now name chainId,
        clock i <= now ->
        fst (isDenylisted now name chainId cache')
        = fst (isDenylisted now name chainId cache)) ->
    fst (filteredFrom clock i tokens cache') = keptFrom clock i tokens cache.
Proof.
  induction tokens as [|token rest IH]; intros i cache cache' Hsame; [reflexivity|].
  simpl.
  pose proof (check_kept (clock i) token cache') as Hkept.
  destruct (denylistCheck (clock i) token cache') as [kept cache1] eqn:Hcheck.
  simpl in Hkept.
  assert (Hnext : fst (filteredFrom clock (S i) rest cache1)
                  = keptFrom clock (S i) rest cache).
  { apply IH. intros now name chainId Hnow.
    assert (Hi : clock i <= now)
      by (transitivity (clock (S i)); [apply clock_monotone; lia|exact Hnow]).
    replace cache1 with (snd (denylistCheck (clock i) token cache'))
      by now rewrite Hcheck.
    rewrite check_keeps_later_verdicts by exact Hi. now apply Hsame. }
  destruct (filteredFrom clock (S i) rest cache1) as [more cache2]. simpl in *.
  rewrite (listed_later (clock i) token cache cache') in Hkept
    by (intros name chainId; apply Hsame; lia).
  rewrite Hkept, Hnext.
  now destruct (isNativeToken token || negb (listed (clock i) token cache)).
Qed.

Lemma keptFrom_in (tokens : list Token) (cache : DenylistCache) :
  forall (i : nat) (token : Token),
    In token (keptFrom clock i tokens cache) ->
    In token tokens.
Proof.
  induction tokens as [|t rest IH]; intros i token H; [contradiction|].
  simpl in H.
  destruct (isNativeToken t || negb (listed (clock i) t cache)).
  - destruct H as [->|H]; [now left|right; now apply (IH (S i))].
  - right. now apply (IH (S i)).
Qed.

Lemma keptFrom_native (tokens : list Token) (cache : DenylistCache) :
  forall (i : nat) (token : Token),
    In token tokens -> isNativeToken token = true ->
    In token (keptFrom clock i tokens cache).
Proof.
  induction tokens as [|t rest IH]; intros i token H Hnative; [contradiction|].
  simpl. destruct H as [->|H].
  - rewrite Hnative. now left.
  - destruct (isNativeToken t || negb (listed (clock i) t cache));
      [right|]; now apply IH.
Qed.

Lemma filteredFrom_in (tokens : list Token) :
  forall (i : nat) (cache : DenylistCache) (token : Token),
    In token (fst (filteredFrom clock i tokens cache)) -> In token tokens.
Proof.
  induction tokens as [|t rest IH]; intros i cache token H; [contradiction|].
  simpl in H.
  pose proof (check_kept (clock i) t cache) as Hkept.
  destruct (denylistCheck (clock i) t cache) as [kept cache1].
  specialize (IH (S i) cache1 token).
  destruct (filteredFrom clock (S i) rest cache1) as [more cache2].
  simpl in *. destruct kept as [t'|].
  - destruct H as [<-|H]; [|right; now apply IH].
    left. destruct (isNativeToken t || negb (listed (clock i) t cache)); congruence.
  - right. now apply IH.
Qed.

Lemma holdingsOf_in (tokens : list Token) :
  forall (cache : gmap string TokenMetadata) (h : Holding),
    In h (fst (holdingsOf getAddress getAnyToken tokens cache)) ->
    exists token cache0,
      In token tokens
      /\ fst (holdingOf getAddress getAnyToken token cache0) = Some h.
Proof.
  induction tokens as [|t rest IH]; intros cache h H; [contradiction|].
  simpl in H.
  destruct (holdingOf getAddress getAnyToken t cache) as [x cache1] eqn:Hx.
  specialize (IH cache1 h).
  destruct (holdingsOf getAddress getAnyToken rest cache1) as [hs cache2].
  simpl in *.
  assert (Hrest : In h hs -> exists token cache0,
                      (t = token \/ In token rest)
                      /\ fst (holdingOf getAddress getAnyToken token cache0) = Some h).
  { intros Hin. destruct (IH Hin) as (token & cache0 & Hin' & Hh). eauto. }
  destruct x as [x|]; [|now apply Hrest].
  destruct H as [<-|H]; [|now apply Hrest].
  exists t, cache. split; [now left|]. now rewrite Hx.
Qed.

Lemma holdingOf_shape (token : Token) (cache : gmap string TokenMetadata) (h : Holding) :
  fst (holdingOf getAddress getAnyToken token cache) = Some h ->
  exists net,
    networkOf token = Some net
    /\ h_chain h = chain net
    /\ h_address h = Js.orString (tokenAddress token) ZERO_ADDRESS
    /\ h_amount h
       = (Q2Qc (inject_Z (tokenBalance token)) / pow10 (md_decimals (h_metadata h)))%Qc.
Proof.
  unfold holdingOf, networkOf.
  destruct (List.find _ SUPPORTED_NETWORKS) as [net|]; [|discriminate].
  destruct (enrichTokenMetadata getAddress getAnyToken token net cache) as [[metadata|] cache'];
    [|discriminate].
  simpl. intros H. injection H as <-. exists net. now repeat split.
Qed.

(** X22 -- what getTokenHoldings returns: every item stems from a token of
    the response with a positive balance on one of the five supported
    networks and carries that network's chain name; its amount is the
    balance scaled by ten to the decimals of its metadata and is positive;
    a price was found under its address, and price times amount does not
    print as 0.00 with two decimals. *)
Theorem returned_items_are_positive_holdings
        (tokens : list Token) (denylist : DenylistCache)
        (cache : gmap string TokenMetadata) (item : Portfolio.PortfolioItem) :
  In item (getTokenHoldings getAddress getAnyToken clock prices tokens denylist cache) ->
  exists token net priceData,
    In token tokens
    /\ 0 < tokenBalance token
    /\ networkOf token = Some net /\ In net SUPPORTED_NETWORKS
    /\ Portfolio.chain item = chain net
    /\ Portfolio.amount item
       = (Q2Qc (inject_Z (tokenBalance token)) / pow10 (Portfolio.decimals item))%Qc
    /\ (0 < Portfolio.amount item)%Qc
    /\ prices (Js.orString (tokenAddress token) ZERO_ADDRESS) = Some priceData
    /\ Portfolio.price item = pd_price priceData
    /\ Portfolio.priceChange24h item = pd_priceChange24h priceData
    /\ printsZero (Portfolio.price item * Portfolio.amount item)%Qc = false.
Proof.
  unfold getTokenHoldings. intros H.
  apply list_elem_of_In, list_elem_of_omap in H as (h & Hh & Hitem).
  apply list_elem_of_In, holdingsOf_in in Hh as (token & cache0 & Hin & Hh).
  apply filteredFrom_in in Hin. unfold preFilteredTokens in Hin.
  apply filter_In in Hin as [Hin Hbal]. apply Z.ltb_lt in Hbal.
  destruct (holdingOf_shape token cache0 h Hh) as (net & Hnet & Hchain & Haddr & Hamount).
  unfold itemOf in Hitem. rewrite Haddr in Hitem.
  destruct (prices (Js.orString (tokenAddress token) ZERO_ADDRESS)) as [priceData|]
    eqn:Hprice; [|discriminate].
  destruct (printsZero (pd_price priceData * h_amount h)) eqn:Hzero; [discriminate|].
  injection Hitem as <-. simpl.
  exists token, net, priceData.
  split; [exact Hin|]. split; [exact Hbal|]. split; [exact Hnet|].
  split; [unfold networkOf in Hnet; now apply find_some in Hnet as [Hnet _]|].
  split; [exact Hchain|]. split; [exact Hamount|].
  split.
  { rewrite Hamount. apply Qcmult_pos; [now apply balance_pos|apply Qcinv_pos, pow10_pos]. }
  split; [exact Hprice|]. split; [reflexivity|]. split; [reflexivity|exact Hzero].
Qed.

(** X21 -- the denylist stage of getTokenHoldings is a plain filter on the
    denylist as it stood before: although every read may delete the entry
    it finds expired, the tokens that survive are, in their order, exactly
    those that are native (no address or the zero address) or for which
    the denylist, read at the time of their callback, has no live entry
    under their address and the chain id of their network; in particular
    a native balance is never hidden, whatever the denylist holds, and a
    token on a network that is not supported is not looked up at all. *)
Theorem denylist_stage_is_a_plain_filter (tokens : list Token) (cache : DenylistCache) :
  fst (filteredTokens clock tokens cache) = keptFrom clock 0 tokens cache
  /\ (forall token, In token tokens -> isNativeToken token = true ->
                    In token (fst (filteredTokens clock tokens cache)))
  /\ (forall token, In token (fst (filteredTokens clock tokens cache)) ->
                    In token tokens).
Proof.
  assert (H : fst (filteredTokens clock tokens cache) = keptFrom clock 0 tokens cache)
    by (apply filteredFrom_pure; reflexivity).
  split; [exact H|]. rewrite H. split.
  - intros token. apply keptFrom_native.
  - intros token. apply keptFrom_in.
Qed.

End Facts.

End HoldingsFacts.

Lemma ticking_monotone (i j : nat) :
  (i <= j)%nat -> HoldingsExamples.ticking i <= HoldingsExamples.ticking j.
Proof. unfold HoldingsExamples.ticking. lia. Qed.

Lemma denylist_stage_is_a_plain_filter_witness :
  In HoldingsExamples.ether
     (fst (Holdings.filteredTokens HoldingsExamples.ticking HoldingsExamples.response
             HoldingsExamples.zeroListed)).
Proof.
  destruct (HoldingsFacts.denylist_stage_is_a_plain_filter
              HoldingsExamples.ticking ticking_monotone
              HoldingsExamples.response HoldingsExamples.zeroListed) as (_ & Hnative & _).
  apply Hnative; [now left|reflexivity].
Defined.

Lemma returned_items_are_positive_holdings_witness :
  match HoldingsExamples.items with
  | item :: _ => (0 < Portfolio.amount item)%Qc
  | [] => False
  end.
Proof.
  pose proof (HoldingsFacts.returned_items_are_positive_holdings
                EvmExamples.checksum EvmExamples.lookupNothing
                HoldingsExamples.ticking HoldingsExamples.quotes
                HoldingsExamples.response HoldingsExamples.zeroListed ∅) as H.
  fold HoldingsExamples.items in H.
  destruct HoldingsExamples.items as [|item rest] eqn:E.
  - vm_compute in E. discriminate.
  - destruct (H item (or_introl eq_refl))
      as (token & net & priceData & _ & _ & _ & _ & _ & _ & Hpos & _).
    exact Hpos.
Defined.

(* ===================================================================== *)
(** ** solanaPortfolio: every mint gets its metadata                      *)
(* ===================================================================== *)

Module SolanaFacts.
Import Solana.

Lemma In_firstn {A : Type} (n : nat) (l : list A) (x : A) : In x (firstn n l) -> In x l.
Proof. intros H. rewrite <- (firstn_skipn n l). apply in_or_app. now left. Qed.

Lemma In_skipn {A : Type} (n : nat) (l : list A) (x : A) : In x (skipn n l) -> In x l.
Proof. intros H. rewrite <- (firstn_skipn n l). apply in_or_app. now right. Qed.

Section Facts.
Context {Cache : Type}.
Variable cacheGet : string -> Cache -> option TokenMetadata.
Variable cacheSet : string -> TokenMetadata -> Cache -> Cache.
Variable search : nat -> string -> option Json.

Local Abbreviation fetchOne := (fetchTokenMetadataFromJupiter cacheGet cacheSet search) (only parsing).
Local Abbreviation fetchBatch := (fetchTokenMetadataBatch cacheGet cacheSet search) (only parsing).

(** *** The first loop *)

Lemma checkCache_spec (c : Cache) (mints : list string) :
  forall (i : nat) (results r : Results) (u : list (string * nat)),
    checkCache cacheGet i mints c results = (r, u) ->
    (forall j, (j < i \/ i + length mints <= j)%nat -> r !! j = results !! j)
    /\ (forall k m cached,
          mints !! k = Some m -> cacheGet m c = Some cached ->
          r !! (i + k)%nat = Some cached)
    /\ (forall k m,
          mints !! k = Some m -> cacheGet m c = None ->
          In (m, (i + k)%nat) u /\ r !! (i + k)%nat = results !! (i + k)%nat)
    /\ (forall m j,
          In (m, j) u ->
          exists k, j = (i + k)%nat /\ mints !! k = Some m /\ cacheGet m c = None).
Proof.
  induction mints as [|mint rest IH]; intros i results r u H.
  - simpl in H. injection H as <- <-. repeat split; try easy.
  - simpl in H. destruct (cacheGet mint c) as [cached0|] eqn:Hget.
    + destruct (IH _ _ _ _ H) as (Hout & Hhit & Hmiss & Hu).
      assert (Hi : r !! i = Some cached0).
      { rewrite Hout by lia. apply lookup_insert_eq. }
      repeat split.
      * intros j Hj. simpl in Hj. rewrite Hout by lia. apply lookup_insert_ne. lia.
      * intros [|k] m cached Hk Hc; simpl in Hk.
        -- injection Hk as <-. rewrite Nat.add_0_r. congruence.
        -- replace (i + S k)%nat with (S i + k)%nat by lia. now apply (Hhit k m).
      * destruct k as [|k]; simpl in H0; [congruence|].
        replace (i + S k)%nat with (S i + k)%nat by lia. now apply (Hmiss k m).
      * destruct k as [|k]; simpl in H0; [congruence|].
        replace (i + S k)%nat with (S i + k)%nat by lia.
        destruct (Hmiss k m H0 H1) as [_ ->]. apply lookup_insert_ne. lia.
      * intros m j Hin. destruct (Hu m j Hin) as (k & -> & Hk & Hc).
        exists (S k). split; [lia|]. now split.
    + destruct (checkCache cacheGet (S i) rest c results) as [r' u'] eqn:Hrest.
      injection H as <- <-.
      destruct (IH _ _ _ _ Hrest) as (Hout & Hhit & Hmiss & Hu).
      repeat split.
      * intros j Hj. simpl in Hj. apply Hout. lia.
      * intros [|k] m cached Hk Hc; simpl in Hk.
        -- injection Hk as <-. congruence.
        -- replace (i + S k)%nat with (S i + k)%nat by lia. now apply (Hhit k m).
      * destruct k as [|k]; simpl in H.
        -- injection H as <-. rewrite Nat.add_0_r. now left.
        -- replace (i + S k)%nat with (S i + k)%nat by lia.
           right. now apply (Hmiss k m).
      * destruct k as [|k]; simpl in H.
        -- rewrite Nat.add_0_r. apply Hout. lia.
        -- replace (i + S k)%nat with (S i + k)%nat by lia. now apply (Hmiss k m).
      * intros m j [Hin|Hin].
        -- injection Hin as <- <-. exists 0%nat. split; [lia|]. now split.
        -- destruct (Hu m j Hin) as (k & -> & Hk & Hc).
           exists (S k). split; [lia|]. now split.
Qed.

(** *** Filling a batch *)

Lemma classic_in (l : list (string * nat)) (j : nat) :
  (exists m, In (m, j) l) \/ (forall m, ~ In (m, j) l).
Proof.
  induction l as [|[m' j'] l IH]; [right; intros m []|].
  destruct (Nat.eq_dec j' j) as [->|Hne].
  - left. exists m'. now left.
  - destruct IH as [[m Hin]|Hnot].
    + left. exists m. now right.
    + right. intros m [Heq|Hin]; [congruence|now apply (Hnot m)].
Qed.

Lemma assigns_nil (r : Results) : assigns [] r r.
Proof. split; [intros m j []|reflexivity]. Qed.

Lemma assigns_cons (m : string) (j : nat) (md : TokenMetadata)
      (rest : list (string * nat)) (before after : Results) :
  assigns rest (<[j := md]> before) after ->
  assigns ((m, j) :: rest) before after.
Proof.
  intros [Hcover Hframe]. split.
  - intros m' j' [Heq|Hin]; [|now apply (Hcover m')].
    injection Heq as <- <-.
    destruct (classic_in rest j) as [[m' Hin]|Hnot].
    + now apply (Hcover m').
    + rewrite Hframe by exact Hnot. rewrite lookup_insert_eq. now eexists.
  - intros j' Hnot. rewrite Hframe.
    + apply lookup_insert_ne. intros ->. apply (Hnot m). now left.
    + intros m' Hin. apply (Hnot m'). now right.
Qed.

Lemma assigns_app (a b : list (string * nat)) (r0 r1 r2 : Results) :
  assigns a r0 r1 -> assigns b r1 r2 -> assigns (a ++ b)%list r0 r2.
Proof.
  intros [Hc1 Hf1] [Hc2 Hf2]. split.
  - intros m j Hin. apply in_app_or in Hin as [Hin|Hin]; [|now apply (Hc2 m)].
    destruct (classic_in b j) as [[m' Hin']|Hnot]; [now apply (Hc2 m')|].
    rewrite Hf2 by exact Hnot. now apply (Hc1 m).
  - intros j Hnot. rewrite Hf2, Hf1; [reflexivity| |];
      intros m Hin; apply (Hnot m), in_or_app; auto.
Qed.

Lemma mapBack_assigns (items : list TokenData) (batch : list (string * nat)) :
  forall (results : Results) (c : Cache),
    assigns batch results (fst (mapBack cacheSet batch items results c)).
Proof.
  induction batch as [|[m j] rest IH]; intros results c; [apply assigns_nil|].
  simpl. destruct (resultFor m items); eapply assigns_cons; apply IH.
Qed.

Lemma individually_assigns (batch : list (string * nat)) :
  forall (results : Results) (st : Store Cache),
    assigns batch results (fst (individually cacheGet cacheSet search batch results st)).
Proof.
  induction batch as [|[m j] rest IH]; intros results st; [apply assigns_nil|].
  simpl. destruct (fetchOne m st) as [md st']. eapply assigns_cons. apply IH.
Qed.

Lemma batches_assigns (fuel : nat) :
  forall (pending : list (string * nat)) (results : Results) (st : Store Cache),
    (length pending <= fuel)%nat ->
    assigns pending results (fst (batches cacheGet cacheSet search fuel pending results st)).
Proof.
  induction fuel as [|fuel IH]; intros pending results st Hfuel.
  - destruct pending; [apply assigns_nil|simpl in Hfuel; lia].
  - destruct pending as [|p pending]; [apply assigns_nil|].
    remember (p :: pending) as todo eqn:Htodo.
    assert (Hstep : batches cacheGet cacheSet search (S fuel) todo results st
                    = let batch := firstn BATCH_SIZE todo in
                      let mints := join (List.map fst batch) in
                      let '(data, st) := ask search mints st in
                      let '(results, st) :=
                        match data with
                        | Some data =>
                            let items := match data with JArray items => items | _ => [] end in
                            let '(results, c) := mapBack cacheSet batch items results (cache st) in
                            (results, {| cache := c; asked := asked st |})
                        | None => individually cacheGet cacheSet search batch results st
                        end in
                      batches cacheGet cacheSet search fuel (skipn BATCH_SIZE todo) results st)
      by (subst todo; reflexivity).
    rewrite Hstep. clear Hstep. cbv zeta.
    destruct (ask search (join (List.map fst (firstn BATCH_SIZE todo))) st) as [data st1].
    rewrite <- (firstn_skipn BATCH_SIZE todo) at 1.
    assert (Hlen : (length (skipn BATCH_SIZE todo) <= fuel)%nat).
    { rewrite length_skipn. subst todo. simpl in *. unfold BATCH_SIZE. lia. }
    destruct data as [data|].
    + pose proof (mapBack_assigns
                    (match data with JArray items => items | _ => [] end)
                    (firstn BATCH_SIZE todo) results (cache st1)) as Hfill.
      destruct (mapBack cacheSet (firstn BATCH_SIZE todo) _ results (cache st1))
        as [results1 c1].
      eapply assigns_app; [exact Hfill|]. now apply IH.
    + pose proof (individually_assigns (firstn BATCH_SIZE todo) results st1) as Hfill.
      destruct (individually cacheGet cacheSet search (firstn BATCH_SIZE todo) results st1)
        as [results1 st2].
      eapply assigns_app; [exact Hfill|]. now apply IH.
Qed.

Lemma batch_fills (mints : list string) (st : Store Cache) (i : nat) :
  match mints !! i with
  | Some m =>
      exists metadata,
        fst (fetchBatch mints st) !! i = Some metadata
        /\ forall cached, cacheGet m (cache st) = Some cached -> metadata = cached
  | None => fst (fetchBatch mints st) !! i = None
  end.
Proof.
  unfold fetchTokenMetadataBatch.
  destruct (checkCache cacheGet 0 mints (cache st) ∅) as [r u] eqn:Hcheck.
  destruct (checkCache_spec _ _ _ _ _ _ Hcheck) as (Hout & Hhit & Hmiss & Hu).
  destruct (batches_assigns (length u) u r st (le_n _)) as [Hcover Hframe].
  destruct (mints !! i) as [m|] eqn:Hm.
  - destruct (cacheGet m (cache st)) as [cached|] eqn:Hget.
    + exists cached. split; [|congruence].
      rewrite Hframe; [now apply (Hhit i m)|].
      intros m' Hin. destruct (Hu m' i Hin) as (k & Hk & Hm' & Hnone).
      simpl in Hk. subst k. congruence.
    + destruct (Hmiss i m Hm Hget) as [Hin _]. simpl in Hin.
      destruct (Hcover m i Hin) as [metadata Hmd].
      exists metadata. split; [exact Hmd|discriminate].
  - apply lookup_ge_None in Hm. rewrite Hframe.
    + rewrite Hout by lia. apply lookup_empty.
    + intros m Hin. destruct (Hu m i Hin) as (k & Hk & Hm' & _).
      simpl in Hk. subst k. apply lookup_lt_Some in Hm'. lia.
Qed.


(** *** The queries *)

Lemma fetchOne_asked (m : string) (st : Store Cache) :
  asked (snd (fetchOne m st)) = asked st
  \/ asked (snd (fetchOne m st)) = (asked st ++ [m])%list.
Proof.
  unfold fetchTokenMetadataFromJupiter, ask.
  destruct (cacheGet m (cache st)); [now left|]. right.
  destruct (search (length (asked st)) m) as [[items|item|]|]; try reflexivity.
  now destruct (head items).
Qed.

Lemma individually_asked (batch : list (string * nat)) :
  forall (results : Results) (st : Store Cache),
    exists queries,
      asked (snd (individually cacheGet cacheSet search batch results st))
      = (asked st ++ queries)%list
      /\ Forall (fun q => exists j, In (q, j) batch) queries.
Proof.
  induction batch as [|[m j] rest IH]; intros results st.
  - exists []. split; [now rewrite app_nil_r|constructor].
  - simpl. pose proof (fetchOne_asked m st) as Hone.
    destruct (fetchOne m st) as [md st1]. simpl in Hone.
    destruct (IH (<[j := md]> results) st1) as (queries & -> & Hall).
    assert (Hweak : Forall (fun q => exists j0, (m, j) = (q, j0) \/ In (q, j0) rest) queries).
    { eapply Forall_impl; [exact Hall|]. intros q [j0 Hin]. eauto. }
    destruct Hone as [->| ->].
    + now exists queries.
    + exists (m :: queries). split; [now rewrite <- app_assoc|].
      constructor; [|exact Hweak]. exists j. now left.
Qed.

Lemma join_single (m : string) : join [m] = m.
Proof. reflexivity. Qed.

Lemma batches_asked (fuel : nat) :
  forall (pending : list (string * nat)) (results : Results) (st : Store Cache),
    exists queries,
      asked (snd (batches cacheGet cacheSet search fuel pending results st))
      = (asked st ++ queries)%list
      /\ Forall (sentFor pending) queries.
Proof.
  induction fuel as [|fuel IH]; intros pending results st.
  - exists []. simpl. split; [now rewrite app_nil_r|constructor].
  - destruct pending as [|p pending].
    { exists []. simpl. split; [now rewrite app_nil_r|constructor]. }
    remember (p :: pending) as todo eqn:Htodo.
    assert (Hstep : batches cacheGet cacheSet search (S fuel) todo results st
                    = let batch := firstn BATCH_SIZE todo in
                      let mints := join (List.map fst batch) in
                      let '(data, st) := ask search mints st in
                      let '(results, st) :=
                        match data with
                        | Some data =>
                            let items := match data with JArray items => items | _ => [] end in
                            let '(results, c) := mapBack cacheSet batch items results (cache st) in
                            (results, {| cache := c; asked := asked st |})
                        | None => individually cacheGet cacheSet search batch results st
                        end in
                      batches cacheGet cacheSet search fuel (skipn BATCH_SIZE todo) results st)
      by (subst todo; reflexivity).
    rewrite Hstep. clear Hstep. cbv zeta. unfold ask.
    set (batch := firstn BATCH_SIZE todo).
    assert (Hfirst : sentFor todo (join (List.map fst batch))).
    { exists (List.map fst batch). split; [|split; [|split]].
      - subst batch todo. discriminate.
      - rewrite length_map. subst batch. rewrite length_firstn. unfold BATCH_SIZE. lia.
      - reflexivity.
      - apply Forall_forall. intros m Hin. apply list_elem_of_In, in_map_iff in Hin
          as ([m' j] & <- & Hin). exists j. simpl.
        eapply (In_firstn BATCH_SIZE). exact Hin. }
    assert (Hrest : forall queries,
               Forall (sentFor (skipn BATCH_SIZE todo)) queries ->
               Forall (sentFor todo) queries).
    { intros queries Hqs. eapply Forall_impl; [exact Hqs|].
      intros q (b & Hne & Hlen & Hq & Hall).
      exists b. repeat split; auto.
      eapply Forall_impl; [exact Hall|]. intros m [j Hin]. exists j.
      eapply (In_skipn BATCH_SIZE). exact Hin. }
    destruct (search (length (asked st)) (join (List.map fst batch))) as [data|].
    + simpl.
      destruct (mapBack cacheSet batch
                        (match data with JArray items => items | _ => [] end)
                        results (cache st)) as [results1 c1].
      destruct (IH (skipn BATCH_SIZE todo) results1
                   {| cache := c1;
                      asked := (asked st ++ [join (List.map fst batch)])%list |})
        as (queries & -> & Hall).
      exists (join (List.map fst batch) :: queries). simpl.
      split; [now rewrite <- app_assoc|]. constructor; [exact Hfirst|now apply Hrest].
    + destruct (individually_asked batch results
                  {| cache := cache st;
                     asked := (asked st ++ [join (List.map fst batch)])%list |})
        as (singles & Hsingles & Hall1).
      destruct (individually cacheGet cacheSet search batch results _) as [results1 st1].
      simpl in Hsingles.
      destruct (IH (skipn BATCH_SIZE todo) results1 st1) as (queries & -> & Hall).
      rewrite Hsingles.
      exists (join (List.map fst batch) :: singles ++ queries)%list.
      split; [now rewrite <- !app_assoc|].
      constructor; [exact Hfirst|]. apply Forall_app. split; [|now apply Hrest].
      eapply Forall_impl; [exact Hall1|]. intros q [j Hin].
      exists [q]. split; [discriminate|]. split; [simpl; unfold BATCH_SIZE; lia|].
      split; [reflexivity|]. constructor; [|constructor]. exists j.
      eapply (In_firstn BATCH_SIZE). exact Hin.
Qed.

(** X24 -- fetchTokenMetadataBatch asks only for what the cache lacks:
    the queries it sends are appended to those sent before, and each of
    them is the comma-separated list of at least one and at most twenty
    mints, all of them among the mints given and absent from the cache at
    the start; when every mint is cached it sends nothing. *)
Theorem only_uncached_mints_are_queried (mints : list string) (st : Store Cache) :
  exists queries,
    asked (snd (fetchBatch mints st)) = (asked st ++ queries)%list
    /\ Forall (fun q =>
                 exists batch,
                   batch <> [] /\ (length batch <= BATCH_SIZE)%nat /\ q = join batch
                   /\ Forall (fun m => In m mints /\ cacheGet m (cache st) = None) batch)
              queries
    /\ ((forall m, In m mints -> cacheGet m (cache st) <> None) -> queries = []).
Proof.
  unfold fetchTokenMetadataBatch.
  destruct (checkCache cacheGet 0 mints (cache st) ∅) as [r u] eqn:Hcheck.
  destruct (checkCache_spec _ _ _ _ _ _ Hcheck) as (_ & _ & _ & Hu).
  destruct (batches_asked (length u) u r st) as (queries & Heq & Hall).
  assert (Huncached : forall m j, In (m, j) u -> In m mints /\ cacheGet m (cache st) = None).
  { intros m j Hin. destruct (Hu m j Hin) as (k & _ & Hk & Hnone).
    split; [|exact Hnone]. apply list_elem_of_In. now apply list_elem_of_lookup_2 in Hk. }
  assert (Hqueries :
            Forall (fun q =>
                      exists batch,
                        batch <> [] /\ (length batch <= BATCH_SIZE)%nat /\ q = join batch
                        /\ Forall (fun m => In m mints /\ cacheGet m (cache st) = None) batch)
                   queries).
  { eapply Forall_impl; [exact Hall|]. intros q (b & Hne & Hlen & Hq & Hb).
    exists b. repeat split; auto.
    eapply Forall_impl; [exact Hb|]. intros m [j Hin]. now apply (Huncached m j). }
  exists queries. split; [exact Heq|]. split; [exact Hqueries|].
  intros Hcached. destruct queries as [|q queries]; [reflexivity|].
  apply Forall_cons in Hqueries as [(b & Hne & _ & _ & Hb) _].
  destruct b as [|m b]; [now elim Hne|].
  apply Forall_cons in Hb as [[Hin Hnone] _]. now elim (Hcached m Hin).
Qed.

(** *** The portfolio *)

Variable prices : string -> option Holdings.PriceData.

Lemma tokenItems_total (tokenMetadata : Results) (holdings : list Holding) :
  forall start : nat,
    (forall index, (index < length holdings)%nat ->
                   is_Some (tokenMetadata !! (start + index + 1)%nat)) ->
    exists items,
      tokenItems tokenMetadata prices holdings start = Some items
      /\ (length items <= length holdings)%nat
      /\ forall item,
           In item items ->
           exists index holding metadata priceData,
             holdings !! index = Some holding
             /\ tokenMetadata !! (start + index + 1)%nat = Some metadata
             /\ prices (mint holding) = Some priceData
             /\ tokenItem tokenMetadata prices holding (start + index) = Some (Some item).
Proof.
  induction holdings as [|holding rest IH]; intros start Hfilled.
  - exists []. split; [reflexivity|]. split; [reflexivity|]. intros item [].
  - destruct (IH (S start)) as (items & Hitems & Hlen & Hall).
    { intros index Hindex. replace (S start + index + 1)%nat with (start + S index + 1)%nat
        by lia. apply Hfilled. simpl. lia. }
    destruct (Hfilled 0%nat) as [metadata Hmd]; [simpl; lia|].
    rewrite Nat.add_0_r in Hmd.
    assert (Hlater : forall item,
               In item items ->
               exists index holding0 metadata0 priceData,
                 (holding :: rest) !! index = Some holding0
                 /\ tokenMetadata !! (start + index + 1)%nat = Some metadata0
                 /\ prices (mint holding0) = Some priceData
                 /\ tokenItem tokenMetadata prices holding0 (start + index) = Some (Some item)).
    { intros item Hin.
      destruct (Hall item Hin) as (index & h & md & pd & Hh & Hm & Hp & Hi).
      exists (S index), h, md, pd.
      replace (start + S index + 1)%nat with (S start + index + 1)%nat by lia.
      replace (start + S index)%nat with (S start + index)%nat by lia.
      now repeat split. }
    simpl. rewrite Hitems.
    destruct (tokenItem tokenMetadata prices holding start) as [[item|]|] eqn:Hitem.
    + exists (item :: items). split; [reflexivity|]. split; [simpl; lia|].
      intros item' [<-|Hin]; [|now apply Hlater].
      unfold tokenItem in Hitem. rewrite Hmd in Hitem.
      destruct (prices (mint holding)) as [priceData|] eqn:Hprice; [|discriminate].
      exists 0%nat, holding, metadata, priceData. rewrite !Nat.add_0_r.
      repeat split; auto.
      unfold tokenItem. now rewrite Hmd, Hprice.
    + exists items. split; [reflexivity|]. split; [simpl; lia|exact Hlater].
    + unfold tokenItem in Hitem. rewrite Hmd in Hitem.
      destruct (prices (mint holding)); [|discriminate].
      now destruct (Holdings.printsZero _).
Qed.

Lemma getHoldings_positive (atas atas2022 : list Account) (holding : Holding) :
  In holding (getHoldings atas atas2022) -> 0 < h_amount holding.
Proof.
  unfold getHoldings. intros H. apply filter_In in H as [_ H]. now apply Z.ltb_lt.
Qed.

(** X25 -- fetchPortfolio always answers, SOL first: given the balance and
    the token accounts, and whatever the cache holds and the searches and
    prices answer, the metadata array has an entry for wrapped SOL and for
    every holding, so the function returns a list; its head is the SOL
    item (symbol SOL, the balance in lamports divided by 10^9, price 0
    without a quote, decimals and logo of the wrapped-SOL metadata, the
    cached one if there is one), present even with a zero balance; the
    rest has at most one item per holding, each on chain solana, for a
    holding with a positive raw amount for which a price was found, with
    the amount scaled by the decimals of the metadata at the holding's own
    position, positive, and a value that does not print as 0.00. *)
Theorem portfolio_always_starts_with_sol
        (solBalance : Z) (atas atas2022 : list Account) (st : Store Cache) :
  let holdings := getHoldings atas atas2022 in
  let tokenMetadata := fst (fetchBatch (WSOL_MINT :: List.map mint holdings) st) in
  exists solMetadata items,
    fetchPortfolio cacheGet cacheSet search prices solBalance holdings st
    = Some (solPortfolioItem solMetadata (prices WSOL_MINT) solBalance :: items)
    /\ (forall cached, cacheGet WSOL_MINT (cache st) = Some cached -> solMetadata = cached)
    /\ (length items <= length holdings)%nat
    /\ forall item,
         In item items ->
         Portfolio.chain item = "solana"
         /\ (0 < Portfolio.amount item)%Qc
         /\ Holdings.printsZero (Portfolio.price item * Portfolio.amount item)%Qc = false
         /\ exists index holding metadata,
              holdings !! index = Some holding
              /\ tokenMetadata !! (index + 1)%nat = Some metadata
              /\ prices (mint holding) <> None
              /\ Portfolio.decimals item = decimals metadata
              /\ Portfolio.amount item
                 = (Q2Qc (inject_Z (h_amount holding)) / Evm.pow10 (decimals metadata))%Qc.
Proof.
  intros holdings tokenMetadata.
  pose proof (batch_fills (WSOL_MINT :: List.map mint holdings) st 0) as Hsol.
  simpl in Hsol. destruct Hsol as (solMetadata & Hsol & Hcached).
  destruct (tokenItems_total tokenMetadata holdings 0) as (items & Hitems & Hlen & Hall).
  { intros index Hindex.
    pose proof (batch_fills (WSOL_MINT :: List.map mint holdings) st (0 + index + 1)) as H.
    replace (0 + index + 1)%nat with (S index) in * by lia. simpl in H.
    destruct (List.map mint holdings !! index) as [m|] eqn:Hm.
    - destruct H as (metadata & H & _). subst tokenMetadata. rewrite H. now eexists.
    - apply lookup_ge_None in Hm. rewrite length_map in Hm. lia. }
  exists solMetadata, items. split; [|split; [exact Hcached|split; [exact Hlen|]]].
  - unfold fetchPortfolio. fold holdings. fold tokenMetadata.
    subst tokenMetadata. rewrite Hsol. fold holdings in Hitems. now rewrite Hitems.
  - intros item Hin.
    destruct (Hall item Hin) as (index & holding & metadata & priceData
                                 & Hh & Hmd & Hprice & Hitem).
    simpl in Hmd, Hitem. unfold tokenItem in Hitem. rewrite Hmd, Hprice in Hitem.
    destruct (Holdings.printsZero _) eqn:Hzero; [discriminate|].
    injection Hitem as <-. simpl.
    split; [reflexivity|]. split.
    { apply HoldingsFacts.Qcmult_pos.
      - apply HoldingsFacts.balance_pos, (getHoldings_positive atas atas2022).
        apply list_elem_of_In. now apply list_elem_of_lookup_2 in Hh.
      - apply HoldingsFacts.Qcinv_pos, HoldingsFacts.pow10_pos. }
    split; [exact Hzero|].
    exists index, holding, metadata. repeat split; auto. now rewrite Hprice.
Qed.

End Facts.

End SolanaFacts.

(* ===================================================================== *)
(** ** The metadata lookup behind jupiterRateLimiter                      *)
(* ===================================================================== *)

Module JupiterFacts.
Import RateLimiter Solana.

Lemma label_has_no_429 (mint : string) :
  Js.includes "429" ("Failed to fetch metadata for " +:+ mint) = Js.includes "429" mint.
Proof. rewrite !DenylistFacts.append_cons, DenylistFacts.append_nil. reflexivity. Qed.

Lemma lookupError_rateLimit (mint : string) (status : Z) :
  isRateLimit (lookupError mint status) = Js.includes "429" mint || (status =? 429).
Proof.
  unfold isRateLimit, lookupError. cbn [Js.message Js.status].
  now rewrite label_has_no_429.
Qed.

(** X26 -- a mint whose address contains 429 makes every failed lookup
    look like a rate limit: the error of fetchTokenMetadataFromJupiter
    carries the mint in its message, and execute tests the message for
    429.  For such a mint, on four responses in a row that are not ok,
    with any status codes, execute of jupiterRateLimiter retries three
    times and throws the error of the fourth response; for a mint
    without 429 in it, a response with a status other than 429 is thrown
    at once, after a single invocation.  The batch operation, whose
    message is fixed, is retried on status 429 only. *)
Theorem mint_naming_429_is_always_retried
        (mint : string) (w : World)
        (l1 l2 l3 l4 : N) (s1 s2 s3 s4 : Z) (more : list (Reply Json)) :
  Z.of_nat (length (requests w)) <= 10 ->
  (Js.includes "429" mint = true ->
   exists fuel0, forall fuel, (fuel0 <= fuel)%nat ->
     snd (execute jupiterRateLimiter fuel
            ([lookupReply mint l1 (Status s1); lookupReply mint l2 (Status s2);
              lookupReply mint l3 (Status s3)]
             ++ lookupReply mint l4 (Status s4) :: more)%list w)
     = Thrown (lookupError mint s4))
  /\ (Js.includes "429" mint = false -> s1 <> 429 ->
      exists fuel0 w', forall fuel, (fuel0 <= fuel)%nat ->
        execute jupiterRateLimiter fuel (lookupReply mint l1 (Status s1) :: more) w
        = (w', Thrown (lookupError mint s1))
        /\ length (granted w') = (length (granted w) + 1)%nat)
  /\ isRateLimit (batchError s1) = (s1 =? 429).
Proof.
  intros Hlen. split; [|split; [|reflexivity]].
  - intros Hmint.
    assert (Hrl : forall s, isRateLimit (lookupError mint s) = true)
      by (intros s; now rewrite lookupError_rateLimit, Hmint).
    assert (Hfail : forall l s, rateLimited (lookupReply mint l (Status s)))
      by (intros l s; exists (lookupError mint s); split; [reflexivity|apply Hrl]).
    destruct (RateLimiterFacts.drive_exhausts jupiterRateLimiter
                [lookupReply mint l1 (Status s1); lookupReply mint l2 (Status s2);
                 lookupReply mint l3 (Status s3)]
                w 0 (lookupReply mint l4 (Status s4)) more (lookupError mint s4))
      as (k & w' & Hk).
    + lia.
    + reflexivity.
    + reflexivity.
    + exact Hlen.
    + repeat constructor; apply Hfail.
    + reflexivity.
    + apply Hrl.
    + exists k. intros fuel Hfuel. unfold execute.
      replace fuel with (k + (fuel - k))%nat by lia. now rewrite Hk.
  - intros Hmint Hstatus.
    assert (Hdec : RateLimiterRuns.decisive (lookupReply mint l1 (Status s1))).
    { unfold RateLimiterRuns.decisive. simpl. rewrite lookupError_rateLimit, Hmint.
      simpl. now apply Z.eqb_neq. }
    destruct (RateLimiterRunFacts.decided_run jupiterRateLimiter w []
                (lookupReply mint l1 (Status s1)) more)
      as (k & w' & Hk & Hgranted & _).
    + reflexivity.
    + exact Hlen.
    + simpl. unfold jupiterRateLimiter, new. simpl. lia.
    + constructor.
    + exact Hdec.
    + exists k, w'. intros fuel Hfuel. unfold execute.
      replace fuel with (k + (fuel - k))%nat by lia.
      pose proof (Hk (fuel - k)%nat) as Hrun. cbn [app] in Hrun.
      split; [exact Hrun|simpl in Hgranted; lia].
Qed.

End JupiterFacts.

Lemma mint_naming_429_is_always_retried_witness :
  exists fuel0, forall fuel, (fuel0 <= fuel)%nat ->
    snd (RateLimiter.execute RateLimiter.jupiterRateLimiter fuel
           ([Solana.lookupReply "Es9vMFrzaCER429mint" 30 (Solana.Status 404);
             Solana.lookupReply "Es9vMFrzaCER429mint" 30 (Solana.Status 404);
             Solana.lookupReply "Es9vMFrzaCER429mint" 30 (Solana.Status 500)]
            ++ [Solana.lookupReply "Es9vMFrzaCER429mint" 30 (Solana.Status 503)])%list
           {| RateLimiter.clock := 0; RateLimiter.requests := [];
              RateLimiter.granted := [] |})
    = RateLimiter.Thrown (Solana.lookupError "Es9vMFrzaCER429mint" 503).
Proof.
  destruct (JupiterFacts.mint_naming_429_is_always_retried
              "Es9vMFrzaCER429mint"
              {| RateLimiter.clock := 0; RateLimiter.requests := [];
                 RateLimiter.granted := [] |}
              30 30 30 30 404 404 500 503 []) as (Hretry & _).
  - simpl. lia.
  - apply Hretry. reflexivity.
Defined.

(* ===================================================================== *)
(** ** suggestStore: one request per message                              *)
(* ===================================================================== *)

Module SuggestFacts.
Import Suggest.

Lemma sameId_refl (id : string) : sameId id (Some id) = true.
Proof. simpl. apply String.eqb_refl. Qed.

Lemma start_settled (chatId id : string) (messages : list Message)
      (state : SuggestState) (entry : ChatSuggestions) :
  lastId messages = Some id ->
  suggestionsPerChat state !! chatId = Some entry ->
  lastMessageId entry = Some id \/ hasFailedForMessage entry = Some id ->
  start chatId messages state = None.
Proof.
  unfold lastId, start. intros Hlast Hentry Hsettled.
  destruct (last messages) as [lastMessage|]; [|reflexivity].
  simpl in Hlast. injection Hlast as ->. rewrite Hentry. simpl.
  destruct Hsettled as [-> | ->]; rewrite sameId_refl; [reflexivity|now rewrite orb_true_r].
Qed.

Lemma start_open (chatId id : string) (messages : list Message) (state : SuggestState) :
  lastId messages = Some id ->
  (forall entry, suggestionsPerChat state !! chatId = Some entry ->
                 lastMessageId entry = None /\ hasFailedForMessage entry = None) ->
  exists loading, start chatId messages state = Some (id, loading).
Proof.
  unfold lastId, start. intros Hlast Hopen.
  destruct (last messages) as [lastMessage|]; [|discriminate].
  simpl in Hlast. injection Hlast as ->.
  destruct (suggestionsPerChat state !! chatId) as [entry|]; simpl.
  - destruct (Hopen entry eq_refl) as [-> ->]. simpl. now eexists.
  - now eexists.
Qed.

Lemma fetch_settles (chatId id : string) (messages : list Message)
      (outcome : Outcome) (state : SuggestState) :
  lastId messages = Some id ->
  exists entry,
    suggestionsPerChat (fst (fetchSuggestions chatId messages outcome state)) !! chatId
    = Some entry
    /\ (lastMessageId entry = Some id \/ hasFailedForMessage entry = Some id).
Proof.
  intros Hlast. unfold fetchSuggestions.
  destruct (start chatId messages state) as [[id' loading]|] eqn:Hstart.
  - assert (id' = id).
    { unfold start, lastId in *. destruct (last messages) as [m|]; [|discriminate].
      simpl in Hlast. injection Hlast as <-.
      destruct (_ || _); [discriminate|]. now injection Hstart as <- _. }
    subst id'. destruct outcome; simpl; rewrite lookup_insert_eq; eexists;
      (split; [reflexivity|]); simpl; auto.
  - unfold start, lastId in *. destruct (last messages) as [m|]; [|discriminate].
    simpl in Hlast. injection Hlast as <-. simpl.
    destruct (suggestionsPerChat state !! chatId) as [entry|]; simpl in Hstart;
      [|discriminate].
    exists entry. split; [reflexivity|].
    destruct (sameId (msg_id m) (lastMessageId entry)) eqn:H1.
    + left. destruct (lastMessageId entry) as [y|]; [|discriminate].
      simpl in H1. apply String.eqb_eq in H1. now subst.
    + destruct (sameId (msg_id m) (hasFailedForMessage entry)) eqn:H2; [|discriminate].
      right. destruct (hasFailedForMessage entry) as [y|]; [|discriminate].
      simpl in H2. apply String.eqb_eq in H2. now subst.
Qed.

Lemma fetch_elsewhere (chatId other : string) (messages : list Message)
      (outcome : Outcome) (state : SuggestState) :
  other <> chatId ->
  suggestionsPerChat (fst (fetchSuggestions other messages outcome state)) !! chatId
  = suggestionsPerChat state !! chatId.
Proof.
  intros Hne. unfold fetchSuggestions.
  destruct (start other messages state) as [[id loading]|] eqn:Hstart; [|reflexivity].
  assert (Hsame : suggestionsPerChat loading = suggestionsPerChat state).
  { unfold start in Hstart. destruct (last messages); [|discriminate].
    destruct (_ || _); [discriminate|]. now injection Hstart as _ <-. }
  destruct outcome; simpl; rewrite lookup_insert_ne by exact Hne; now rewrite Hsame.
Qed.

Lemma act_elsewhere (chatId : string) (a : Action) (state : SuggestState) :
  elsewhere chatId a ->
  suggestionsPerChat (act a state) !! chatId = suggestionsPerChat state !! chatId.
Proof.
  destruct a as [c messages outcome|c|value]; simpl.
  - apply fetch_elsewhere.
  - intros [Hne Hc]. destruct c as [|x c]; [now elim Hc|]. simpl.
    now apply lookup_insert_ne.
  - reflexivity.
Qed.

Lemma acts_elsewhere (chatId : string) (others : list Action) :
  forall state,
    Forall (elsewhere chatId) others ->
    suggestionsPerChat (fold_left (fun s a => act a s) others state) !! chatId
    = suggestionsPerChat state !! chatId.
Proof.
  induction others as [|a others IH]; intros state Hall; [reflexivity|].
  inversion Hall as [|? ? Ha Hrest]; subst. simpl.
  rewrite IH by exact Hrest. now apply act_elsewhere.
Qed.

(** X27 -- the suggest store sends one request per last message of a
    chat: once fetchSuggestions has run for a chat whose last message has
    a given id, whether the request succeeded, failed or was skipped, any
    further fetchSuggestions for that chat with a message list ending in
    the same id returns early, sends nothing and leaves the state as it
    is, also after any number of fetches and clears for other chats; a
    clearSuggestions for the chat, or for all chats, opens it again. *)
Theorem one_request_per_last_message
        (chatId id : string) (messages messages' : list Message)
        (outcome outcome' : Outcome) (others : list Action) (state : SuggestState) :
  lastId messages = Some id ->
  lastId messages' = Some id ->
  Forall (elsewhere chatId) others ->
  let later :=
    fold_left (fun s a => act a s) others
              (fst (fetchSuggestions chatId messages outcome state)) in
  fetchSuggestions chatId messages' outcome' later = (later, false)
  /\ snd (fetchSuggestions chatId messages' outcome'
            (clearSuggestions (Some chatId) later)) = true
  /\ snd (fetchSuggestions chatId messages' outcome' (clearSuggestions None later)) = true.
Proof.
  intros Hlast Hlast' Hothers later.
  destruct (fetch_settles chatId id messages outcome state Hlast) as (entry & Hentry & Hid).
  assert (Hlater : suggestionsPerChat later !! chatId = Some entry).
  { subst later. now rewrite acts_elsewhere. }
  split; [|split].
  - unfold fetchSuggestions.
    now rewrite (start_settled chatId id messages' later entry Hlast' Hlater Hid).
  - unfold fetchSuggestions.
    destruct (start_open chatId id messages' (clearSuggestions (Some chatId) later) Hlast')
      as [loading ->]; [|reflexivity].
    intros e. simpl. destruct (Js.truthy chatId).
    + rewrite lookup_insert_eq. intros [= <-]. now split.
    + now rewrite lookup_empty.
  - unfold fetchSuggestions.
    destruct (start_open chatId id messages' (clearSuggestions None later) Hlast')
      as [loading ->]; [|reflexivity].
    intros e. simpl. now rewrite lookup_empty.
Qed.

(** X28 -- a failed request keeps what the chat shows: after a
    fetchSuggestions that fails, getSuggestions for the chat returns what
    it returned before and the error text is stored; after one that
    succeeds it returns the suggestions of the response; in both cases
    the suggestions of every other chat are what they were and the
    loading flag is down. *)
Theorem failure_keeps_the_suggestions
        (chatId other : string) (messages : list Message)
        (outcome : Outcome) (state : SuggestState) :
  snd (fetchSuggestions chatId messages outcome state) = true ->
  let after := fst (fetchSuggestions chatId messages outcome state) in
  match outcome with
  | Suggested data => getSuggestions chatId after = data
  | Failed errorMessage =>
      getSuggestions chatId after = getSuggestions chatId state
      /\ error after = Some errorMessage
  end
  /\ isLoading after = false
  /\ (other <> chatId -> getSuggestions other after = getSuggestions other state).
Proof.
  unfold fetchSuggestions.
  destruct (start chatId messages state) as [[id loading]|] eqn:Hstart; [|discriminate].
  intros _. simpl.
  assert (Hsame : suggestionsPerChat loading = suggestionsPerChat state).
  { unfold start in Hstart. destruct (last messages); [|discriminate].
    destruct (_ || _); [discriminate|]. now injection Hstart as _ <-. }
  split; [|split].
  - destruct outcome; unfold getSuggestions; simpl; rewrite lookup_insert_eq; simpl.
    + reflexivity.
    + split; [|reflexivity]. rewrite Hsame.
      now destruct (suggestionsPerChat state !! chatId).
  - now destruct outcome.
  - intros Hne. unfold getSuggestions.
    destruct outcome; simpl; rewrite lookup_insert_ne by congruence; now rewrite Hsame.
Qed.

End SuggestFacts.

Lemma one_request_per_last_message_witness :
  let later :=
    fold_left (fun s a => Suggest.act a s)
              [Suggest.Fetch "chat-2" [SuggestExamples.hello] (Suggest.Suggested ["Sell"]);
               Suggest.Clear "chat-2"]
              (fst (Suggest.fetchSuggestions
                      "chat-1" [SuggestExamples.hello; SuggestExamples.answer]
                      (Suggest.Failed "Failed to fetch suggestions")
                      SuggestExamples.shown)) in
  Suggest.fetchSuggestions "chat-1" [SuggestExamples.answer]
                           (Suggest.Suggested ["Buy SOL"]) later
  = (later, false).
Proof.
  cbv zeta.
  apply (SuggestFacts.one_request_per_last_message
           "chat-1" "m2" [SuggestExamples.hello; SuggestExamples.answer]
           [SuggestExamples.answer]
           (Suggest.Failed "Failed to fetch suggestions") (Suggest.Suggested ["Buy SOL"])
           [Suggest.Fetch "chat-2" [SuggestExamples.hello] (Suggest.Suggested ["Sell"]);
            Suggest.Clear "chat-2"]
           SuggestExamples.shown).
  - reflexivity.
  - reflexivity.
  - repeat constructor; discriminate.
Defined.

Lemma failure_keeps_the_suggestions_witness :
  Suggest.getSuggestions
    "chat-1"
    (fst (Suggest.fetchSuggestions
            "chat-1" [SuggestExamples.hello; SuggestExamples.answer]
            (Suggest.Failed "Failed to fetch suggestions") SuggestExamples.shown))
  = Suggest.getSuggestions "chat-1" SuggestExamples.shown.
Proof.
  destruct (SuggestFacts.failure_keeps_the_suggestions
              "chat-1" "chat-2" [SuggestExamples.hello; SuggestExamples.answer]
              (Suggest.Failed "Failed to fetch suggestions") SuggestExamples.shown)
    as ([Hkept _] & _).
  - vm_compute. reflexivity.
  - exact Hkept.
Defined.

(* ===================================================================== *)
(** ** RateLimiter: the defaults of the constructor                       *)
(* ===================================================================== *)

Module RateLimiterNewFacts.
Import RateLimiter RateLimiterRuns.

Lemma orNumber_nonzero (x : option Z) (d : Z) : d <> 0 -> Js.orNumber x d <> 0.
Proof.
  intros Hd. unfold Js.orNumber. destruct x as [v|]; [|exact Hd].
  destruct (v =? 0) eqn:Hv; [exact Hd|]. now apply Z.eqb_neq.
Qed.

(** X29 -- retries cannot be switched off: the constructor reads its
    optional numbers with [||], so an explicit 0 for maxRetries or for
    retryAfterMs is replaced by the default (3 retries, 1000 ms) and no
    limiter has either of them equal to 0; a limiter built with
    maxRetries 0 still retries an operation that is rate limited up to
    three times and returns the value of the attempt that succeeds. *)
Theorem retries_cannot_be_switched_off
        {T : Type} (maxReq window : Z) (retryAfter retries : option Z)
        (w : World) (failures : list (Reply T)) (l : N) (v : T) (more : list (Reply T)) :
  0 < maxReq ->
  Z.of_nat (length (requests w)) <= maxReq ->
  (length failures <= 3)%nat ->
  Forall rateLimited failures ->
  maxRetries (new maxReq window retryAfter retries) <> 0
  /\ retryAfterMs (new maxReq window retryAfter retries) <> 0
  /\ maxRetries (new maxReq window retryAfter (Some 0)) = 3
  /\ retryAfterMs (new maxReq window (Some 0) retries) = 1000
  /\ exists fuel0 w', forall fuel, (fuel0 <= fuel)%nat ->
       execute (new maxReq window retryAfter (Some 0)) fuel
               (failures ++ {| latency := l; outcome := Fulfilled v |} :: more)%list w
       = (w', Returned v).
Proof.
  intros Hmax Hlen Hfew Hall.
  split; [now apply orNumber_nonzero|]. split; [now apply orNumber_nonzero|].
  split; [reflexivity|]. split; [reflexivity|].
  destruct (RateLimiterRunFacts.decided_run
              (new maxReq window retryAfter (Some 0)) w failures
              {| latency := l; outcome := Fulfilled v |} more)
    as (k & w' & Hk & _).
  - exact Hmax.
  - exact Hlen.
  - simpl. lia.
  - exact Hall.
  - exact I.
  - exists k, w'. intros fuel Hfuel. unfold execute.
    replace fuel with (k + (fuel - k))%nat by lia. apply Hk.
Qed.

End RateLimiterNewFacts.

Lemma retries_cannot_be_switched_off_witness :
  exists fuel0 w', forall fuel, (fuel0 <= fuel)%nat ->
    RateLimiter.execute (RateLimiter.new 10 1000 None (Some 0)) fuel
      ([RateLimiterExamples.failing] ++ [RateLimiterRunExamples.succeeding])%list
      {| RateLimiter.clock := 0; RateLimiter.requests := []; RateLimiter.granted := [] |}
    = (w', RateLimiter.Returned "[]").
Proof.
  destruct (RateLimiterNewFacts.retries_cannot_be_switched_off
              10 1000 None (Some 0)
              {| RateLimiter.clock := 0; RateLimiter.requests := [];
                 RateLimiter.granted := [] |}
              [RateLimiterExamples.failing] 20 "[]" [])
    as (_ & _ & _ & _ & H).
  - lia.
  - simpl. lia.
  - simpl. lia.
  - repeat constructor. eexists. split; reflexivity.
  - exact H.
Defined.
